(** * Wildfire helicopter dispatch: a shallow embedding and its properties

  The development follows the Python sources:
  - [utils.py]            : [GeoUtils.find_optimal_water_sources],
                            [ScenarioGenerator.group_by_time_proximity];
  - [pyomo_optimizer.py]  : [PyomoOptimizer._init_parameters],
                            [calculate_time_matrices], the constraint rules,
                            [build_model], [parse_solution];
  - [dispatcher.py]       : [BasicDispatcher.dispatch],
                            [WildfireDispatcher.dispatch_optimized].

  Numbers.  Python floats are modelled by exact rationals [Q] (no rounding,
  no NaN, no infinity); integers by [Z]; list positions by [nat].
  Library calls the sources treat as black boxes (the geodesic distance,
  [datetime.strptime], [random.choices], [round], the MILP solver) are
  section variables.  The router makes coordinates of its own, so there the
  distance call also has the [ValueError] of a latitude outside [[-90, 90]]. *)

From Stdlib Require Import String Bool Arith PeanoNat.
From Stdlib Require Import ZArith QArith Qabs Qround List Lia Lqa Permutation Sorted.
Import ListNotations.

Local Open Scope Z_scope.

(* ------------------------------------------------------------------ *)
(** * Python list primitives                                           *)
(* ------------------------------------------------------------------ *)

Module PyList.

Section Sorted.
Context {A : Type}.
(** [le x y] is [key(x) <= key(y)]. *)
Variable le : A -> A -> bool.

Fixpoint insert_sorted (x : A) (l : list A) : list A :=
  match l with
  | [] => [x]
  | y :: t => if le x y then x :: y :: t else y :: insert_sorted x t
  end.

(** [sorted(l, key=...)] and [l.sort(key=...)]: a stable sort.  Each element
    is put in front of the first later element whose key is not smaller. *)
Definition py_sorted (l : list A) : list A := fold_right insert_sorted [] l.

Lemma insert_sorted_perm x l : Permutation (insert_sorted x l) (x :: l).
Proof.
  induction l as [|y t IH]; simpl.
  - reflexivity.
  - destruct (le x y).
    + reflexivity.
    + rewrite IH. apply perm_swap.
Qed.

Lemma py_sorted_perm l : Permutation (py_sorted l) l.
Proof.
  induction l as [|x t IH]; simpl.
  - constructor.
  - rewrite insert_sorted_perm. now constructor.
Qed.

Lemma py_sorted_length l : length (py_sorted l) = length l.
Proof. apply Permutation_length, py_sorted_perm. Qed.

(** Stability: elements that are pairwise tied keep their input order. *)
Lemma insert_sorted_filter (p : A -> bool) x l :
  (forall a b, p a = true -> p b = true -> le a b = true) ->
  filter p (insert_sorted x l) = filter p (x :: l).
Proof.
  intros Htie. induction l as [|y t IH]; simpl.
  - reflexivity.
  - destruct (le x y) eqn:Exy.
    + reflexivity.
    + simpl. rewrite IH. simpl.
      destruct (p x) eqn:Px, (p y) eqn:Py; try reflexivity.
      rewrite (Htie x y Px Py) in Exy. discriminate.
Qed.

Lemma py_sorted_stable (p : A -> bool) l :
  (forall a b, p a = true -> p b = true -> le a b = true) ->
  filter p (py_sorted l) = filter p l.
Proof.
  intros Htie. induction l as [|x t IH]; simpl.
  - reflexivity.
  - rewrite insert_sorted_filter by assumption. simpl. now rewrite IH.
Qed.

Hypothesis le_total : forall a b, le a b = false -> le b a = true.
Hypothesis le_trans : forall a b c, le a b = true -> le b c = true -> le a c = true.

Lemma insert_sorted_sorted x l :
  StronglySorted (fun a b => le a b = true) l ->
  StronglySorted (fun a b => le a b = true) (insert_sorted x l).
Proof.
  induction 1 as [|y t Hs IH Hall]; simpl.
  - repeat constructor.
  - destruct (le x y) eqn:Exy.
    + constructor.
      * now constructor.
      * constructor; [assumption|].
        eapply Forall_impl; [|exact Hall]. intros z Hz. now apply le_trans with y.
    + constructor; [assumption|].
      rewrite Forall_forall. intros z Hz.
      apply (Permutation_in _ (insert_sorted_perm x t)) in Hz.
      destruct Hz as [<- | Hz]; [now apply le_total|].
      rewrite Forall_forall in Hall. now apply Hall.
Qed.

Lemma py_sorted_sorted l : StronglySorted (fun a b => le a b = true) (py_sorted l).
Proof.
  induction l as [|x t IH]; simpl.
  - constructor.
  - now apply insert_sorted_sorted.
Qed.
Lemma StronglySorted_impl_bool (R : A -> A -> Prop) l :
  (forall a b, le a b = true -> R a b) ->
  StronglySorted (fun a b => le a b = true) l -> StronglySorted R l.
Proof.
  intros Himp. induction 1 as [|x t Hs IH Hall]; constructor.
  - assumption.
  - eapply Forall_impl; [|exact Hall]. intros; now apply Himp.
Qed.

End Sorted.

(** [enumerate(l, start=i)] *)
Fixpoint enumerate_from {A : Type} (i : nat) (l : list A) : list (nat * A) :=
  match l with
  | [] => []
  | x :: t => (i, x) :: enumerate_from (S i) t
  end.

Definition enumerate {A : Type} (l : list A) : list (nat * A) := enumerate_from 0 l.

Lemma enumerate_from_fst {A : Type} (l : list A) i :
  map fst (enumerate_from i l) = seq i (length l).
Proof.
  revert i. induction l as [|x t IH]; intros i; simpl; [reflexivity|]. now rewrite IH.
Qed.

Lemma enumerate_from_length {A : Type} (l : list A) i :
  length (enumerate_from i l) = length l.
Proof. now rewrite <- (length_map fst), enumerate_from_fst, length_seq. Qed.

Lemma enumerate_from_snd {A : Type} (l : list A) i :
  map snd (enumerate_from i l) = l.
Proof.
  revert i. induction l as [|x t IH]; intros i; simpl; [reflexivity|]. now rewrite IH.
Qed.

Lemma enumerate_from_nth {A : Type} (l : list A) i j x :
  In (j, x) (enumerate_from i l) -> (i <= j)%nat /\ nth_error l (j - i) = Some x.
Proof.
  revert i. induction l as [|y t IH]; intros i; simpl; [tauto|].
  intros [E | Hin].
  - inversion E; subst. split; [lia|]. now rewrite Nat.sub_diag.
  - destruct (IH _ Hin) as [Hle Hn]. split; [lia|].
  replace (j - i)%nat with (S (j - S i)) by lia. exact Hn.
Qed.

(** Facts on [Sorted] (every adjacent pair is related) used for chains. *)
Lemma Sorted_snoc {A : Type} (R : A -> A -> Prop) l x d :
  Sorted R l -> (l = [] \/ R (last l d) x) -> Sorted R (l ++ [x]).
Proof.
  induction 1 as [|a t Hs IH Hhd]; intros Hl; simpl.
  - repeat constructor.
  - destruct Hl as [Hl | Hl]; [discriminate|].
  constructor.
  + apply IH. destruct t as [|b t']; [now left | now right].
  + destruct t as [|b t']; simpl in *; constructor.
    * exact Hl.
    * now inversion Hhd.
Qed.

Lemma Sorted_map {A B : Type} (f : A -> B) (R : B -> B -> Prop) l :
  Sorted (fun a b => R (f a) (f b)) l -> Sorted R (map f l).
Proof.
  induction 1 as [|a t Hs IH Hhd]; simpl; constructor.
  - assumption.
  - destruct Hhd; simpl; constructor. assumption.
Qed.

Lemma Sorted_impl_in {A : Type} (R R' : A -> A -> Prop) l :
  (forall a b, In a l -> In b l -> R a b -> R' a b) -> Sorted R l -> Sorted R' l.
Proof.
  intros Himp Hs. induction Hs as [|a t Hs IH Hhd]; constructor.
  - apply IH. intros x y Hx Hy. apply Himp; now right.
  - destruct Hhd; constructor. apply Himp; simpl; auto.
Qed.

Lemma Sorted_replace_last {A : Type} (R : A -> A -> Prop) l c c' :
  Sorted R (l ++ [c]) -> (forall g, R g c -> R g c') -> Sorted R (l ++ [c']).
Proof.
  intros Hs Himp. induction l as [|a t IH]; simpl in *.
  - repeat constructor.
  - inversion Hs as [|? ? Hs' Hhd]; subst. constructor.
  + now apply IH.
  + destruct t as [|b t']; simpl in *; inversion Hhd; subst; constructor; auto.
Qed.

Lemma StronglySorted_snoc_inv {A : Type} (R : A -> A -> Prop) l x :
  StronglySorted R (l ++ [x]) -> StronglySorted R l /\ Forall (fun a => R a x) l.
Proof.
  induction l as [|a t IH]; simpl; intros Hs.
  - split; constructor.
  - inversion Hs as [|? ? Hs' Hall]; subst.
  destruct (IH Hs') as [Ht Hx]. split.
  + constructor; [assumption|]. apply Forall_app in Hall. tauto.
  + constructor; [|assumption]. apply Forall_app in Hall.
    destruct Hall as [_ Hall]. now inversion Hall.
Qed.

Lemma last_in {A : Type} (l : list A) d : l <> [] -> In (last l d) l.
Proof.
  induction l as [|a t IH]; [congruence|]. intros _.
  destruct t as [|b t']; [now left|]. right. apply IH. discriminate.
Qed.

End PyList.

(* ------------------------------------------------------------------ *)
(** * Data model                                                       *)
(* ------------------------------------------------------------------ *)

(** A point is a [(lat, lng)] tuple. *)
Definition Coord : Type := (Q * Q)%type.

(** One element of [fire_points] (a dict built by [DataLoader.load_fires]). *)
Record Fire : Type := mkFire {
  fire_name : string;
  fire_lat : Q;
  fire_lng : Q;
  fire_date : string;
  fire_time : string;
  fire_intensity : Z
  }.

(** [a < b] on rationals, as a boolean. *)
Definition Qlt_bool (a b : Q) : bool := negb (Qle_bool b a).

Lemma Qlt_bool_iff a b : Qlt_bool a b = true <-> (a < b)%Q.
Proof.
  unfold Qlt_bool. rewrite negb_true_iff. split.
  - intros H. apply Qnot_le_lt. intros Hle. apply Qle_bool_iff in Hle. congruence.
  - intros H. destruct (Qle_bool b a) eqn:E; [|reflexivity].
  apply Qle_bool_iff in E. exfalso. exact (Qlt_not_le _ _ H E).
Qed.

Lemma Qle_bool_total a b : Qle_bool a b = false -> Qle_bool b a = true.
Proof.
  intros H. apply Qle_bool_iff. apply Qlt_le_weak. apply Qnot_le_lt.
  intros Hle. apply Qle_bool_iff in Hle. congruence.
Qed.

Lemma Qle_bool_trans a b c :
  Qle_bool a b = true -> Qle_bool b c = true -> Qle_bool a c = true.
Proof. rewrite !Qle_bool_iff. apply Qle_trans. Qed.

(* ------------------------------------------------------------------ *)
(** * utils.py : ScenarioGenerator                                     *)
(* ------------------------------------------------------------------ *)

Module ScenarioGenerator.
Import PyList.

Section Grouping.
(** [datetime.datetime.strptime(s, "%Y-%m-%d %H:%M")], as whole minutes on
    the time line; [None] stands for the [ValueError] of a malformed
    string.  The format has no seconds, so the difference of two parsed
    values, [total_seconds() / 60.0], is that whole number of minutes. *)
Variable strptime : string -> option Z.
(** [config.get_optimization_params()['scenario_time_window_minutes']] *)
Variable time_window : Q.

Definition dt_str (f : Fire) : string :=
  (fire_date f ++ " " ++ fire_time f)%string.

(** First loop: [temp_list.append((i, dt_fmt))]. *)
Fixpoint parse_enumerated (l : list (nat * Fire)) : option (list (nat * Z)) :=
  match l with
  | [] => Some []
  | (i, f) :: t =>
      match strptime (dt_str f) with
      | None => None
      | Some dt_fmt =>
          match parse_enumerated t with
          | None => None
          | Some temp_list => Some ((i, dt_fmt) :: temp_list)
          end
      end
  end.

(** [diff_mins <= time_window] *)
Definition within_window (prev_dt dt : Z) : bool :=
  Qle_bool (inject_Z (dt - prev_dt)) time_window.

(** One iteration of the grouping loop on the state
    [(scenario_sets, current_set)]. *)
Definition group_step (st : list (list nat) * list (nat * Z)) (x : nat * Z)
  : list (list nat) * list (nat * Z) :=
  let '(scenario_sets, current_set) := st in
  match current_set with
  | [] => (scenario_sets, [x])
  | _ :: _ =>
      let prev_dt := snd (last current_set x) in
      if within_window prev_dt (snd x)
      then (scenario_sets, current_set ++ [x])
      else (scenario_sets ++ [map fst current_set], [x])
  end.

Definition by_datetime (a b : nat * Z) : bool := snd a <=? snd b.

Definition group_by_time_proximity (fire_points : list Fire)
  : option (list (list nat)) :=
  match fire_points with
  | [] => Some []
  | _ :: _ =>
      match parse_enumerated (enumerate fire_points) with
      | None => None
      | Some temp_list =>
          let temp_list := py_sorted by_datetime temp_list in
          let '(scenario_sets, current_set) :=
            fold_left group_step temp_list ([], []) in
          match current_set with
          | [] => Some scenario_sets
          | _ :: _ => Some (scenario_sets ++ [map fst current_set])
          end
      end
  end.

(** The parsed timestamp of the fire at position [i] of the batch. *)
Definition timestamp (fire_points : list Fire) (i : nat) : Z :=
  match nth_error fire_points i with
  | Some f => match strptime (dt_str f) with Some dt => dt | None => 0 end
  | None => 0
  end.

Definition parses (f : Fire) : Prop := strptime (dt_str f) <> None.

(** ** Parsing *)

Lemma parse_enumerated_total l :
  Forall (fun p => parses (snd p)) l -> exists tl, parse_enumerated l = Some tl.
Proof.
  induction 1 as [|[i f] t Hp _ [tl IH]]; simpl.
  - now exists [].
  - unfold parses in Hp. simpl in Hp.
    destruct (strptime (dt_str f)) as [dt|]; [|congruence].
    rewrite IH. eauto.
Qed.

Lemma parse_enumerated_fst l tl :
  parse_enumerated l = Some tl -> map fst tl = map fst l.
Proof.
  revert tl. induction l as [|[i f] t IH]; simpl; intros tl H.
  - now inversion H.
  - destruct (strptime (dt_str f)) as [dt|]; [|discriminate].
    destruct (parse_enumerated t) as [tl'|]; [|discriminate].
    inversion H; subst. simpl. f_equal. now apply IH.
Qed.

Lemma parse_enumerated_in l tl i dt :
  parse_enumerated l = Some tl -> In (i, dt) tl ->
  exists f, In (i, f) l /\ strptime (dt_str f) = Some dt.
Proof.
  revert tl. induction l as [|[j f] t IH]; simpl; intros tl H Hin.
  - inversion H; subst. destruct Hin.
  - destruct (strptime (dt_str f)) as [dt'|] eqn:E; [|discriminate].
    destruct (parse_enumerated t) as [tl'|]; [|discriminate].
    inversion H; subst. destruct Hin as [Heq | Hin].
    + inversion Heq; subst. exists f. split; [now left | assumption].
    + destruct (IH _ eq_refl Hin) as [f' [Hf' Hs]]. exists f'. split; [now right | assumption].
Qed.

Lemma parse_enumerated_timestamp fire_points tl i dt :
  parse_enumerated (enumerate fire_points) = Some tl -> In (i, dt) tl ->
  timestamp fire_points i = dt.
Proof.
  intros H Hin. destruct (parse_enumerated_in _ _ _ _ H Hin) as [f [Hf Hs]].
  apply enumerate_from_nth in Hf. destruct Hf as [_ Hn].
  rewrite Nat.sub_0_r in Hn. unfold timestamp. now rewrite Hn, Hs.
Qed.

(** ** The grouping loop *)

Definition d0 : nat * Z := (0%nat, 0).

(** Adjacent members of a group. *)
Definition Rin (a b : nat * Z) : Prop :=
  snd a <= snd b /\ within_window (snd a) (snd b) = true.

(** Adjacent groups. *)
Definition Rout (g1 g2 : list (nat * Z)) : Prop :=
  within_window (snd (last g1 d0)) (snd (hd d0 g2)) = false.

Record loop_inv (l : list (nat * Z)) (st : list (list nat) * list (nat * Z))
       (psets : list (list (nat * Z))) : Prop := {
  inv_sets : fst st = map (map fst) psets;
  inv_concat : concat psets ++ snd st = l;
  inv_nonempty : Forall (fun g => g <> []) psets;
  inv_cur : l <> [] -> snd st <> [];
  inv_first : snd st = [] -> psets = [];
  inv_in : Forall (Sorted Rin) psets;
  inv_in_cur : Sorted Rin (snd st);
  inv_out : Sorted Rout (psets ++ [snd st])
  }.

Lemma last_default {A : Type} (l : list A) d d' : l <> [] -> last l d = last l d'.
Proof.
  induction l as [|a t IH]; [congruence|]. intros _.
  destruct t as [|b t']; [reflexivity|]. simpl in *. apply IH. discriminate.
Qed.

Lemma group_loop_inv l :
  StronglySorted (fun a b => by_datetime a b = true) l ->
  exists psets, loop_inv l (fold_left group_step l ([], [])) psets.
Proof.
  induction l as [|x l IH] using rev_ind; intros Hs.
  - exists []. split; simpl; auto; try congruence; repeat constructor.
  - apply StronglySorted_snoc_inv in Hs. destruct Hs as [Hs Hle].
    destruct (IH Hs) as [psets Hinv]. clear IH.
    rewrite fold_left_app. simpl.
    destruct (fold_left group_step l ([], [])) as [sets cur].
    destruct Hinv as [Hsets Hcat Hne Hcur Hfirst Hin Hincur Hout]. simpl in *.
    destruct cur as [|c cs].
    + (* first fire *)
      specialize (Hfirst eq_refl). subst psets.
      exists []. simpl in *. subst l.
      split; simpl; auto; try congruence; repeat constructor.
    + assert (Hlast : In (last (c :: cs) x) l).
      { rewrite <- Hcat. apply in_or_app. right. apply last_in. discriminate. }
      assert (Hord : snd (last (c :: cs) x) <= snd x).
      { rewrite Forall_forall in Hle. apply Hle in Hlast.
        unfold by_datetime in Hlast. now apply Z.leb_le. }
      unfold group_step.
      destruct (within_window (snd (last (c :: cs) x)) (snd x)) eqn:Ew.
      * (* same scenario group *)
        exists psets. split; cbn [fst snd].
        -- assumption.
        -- rewrite <- Hcat, <- app_assoc. reflexivity.
        -- assumption.
        -- intros _. destruct cs; discriminate.
        -- intros H. destruct cs; discriminate.
        -- assumption.
        -- change (Sorted Rin ((c :: cs) ++ [x])).
           apply Sorted_snoc with (d := x); [assumption|]. right. now split.
        -- change (Sorted Rout (psets ++ [(c :: cs) ++ [x]])).
           apply Sorted_replace_last with (c := c :: cs); [assumption|].
           intros g Hg. exact Hg.
      * (* close the group, open a new one *)
        exists (psets ++ [c :: cs]). split; cbn [fst snd].
        -- rewrite Hsets, map_app. reflexivity.
        -- rewrite concat_app. simpl. rewrite app_nil_r. now rewrite Hcat.
        -- apply Forall_app. split; [assumption|]. repeat constructor. discriminate.
        -- intros _. discriminate.
        -- intros H. discriminate.
        -- apply Forall_app. split; [assumption|]. constructor; [assumption|constructor].
        -- repeat constructor.
        -- apply Sorted_snoc with (d := []); [assumption|]. right.
           rewrite last_last. unfold Rout. simpl hd.
           rewrite (last_default (c :: cs) d0 x) by discriminate. exact Ew.
Qed.

(** ** From (index, datetime) pairs back to fire indices *)

Lemma map_fst_last (g : list (nat * Z)) :
  last (map fst g) 0%nat = fst (last g d0).
Proof.
  induction g as [|a t IH]; [reflexivity|].
  destruct t as [|b t']; [reflexivity|]. exact IH.
Qed.

Lemma map_fst_hd (g : list (nat * Z)) : hd 0%nat (map fst g) = fst (hd d0 g).
Proof. destruct g; reflexivity. Qed.

(** Adjacent fires of one group, by fire index. *)
Definition chained (fire_points : list Fire) (a b : nat) : Prop :=
  timestamp fire_points a <= timestamp fire_points b /\
  (inject_Z (timestamp fire_points b - timestamp fire_points a) <= time_window)%Q.

(** Adjacent groups, by fire index. *)
Definition separated (fire_points : list Fire) (g1 g2 : list nat) : Prop :=
  (time_window <
   inject_Z (timestamp fire_points (hd 0%nat g2) - timestamp fire_points (last g1 0%nat)))%Q.

Lemma within_window_false prev_dt dt :
  within_window prev_dt dt = false -> (time_window < inject_Z (dt - prev_dt))%Q.
Proof.
  unfold within_window. intros H. apply Qnot_le_lt. intros Hle.
  apply Qle_bool_iff in Hle. congruence.
Qed.

Lemma groups_by_index fire_points (pgs : list (list (nat * Z))) :
  (forall i dt, In (i, dt) (concat pgs) -> timestamp fire_points i = dt) ->
  Forall (fun g => g <> []) pgs ->
  Forall (Sorted Rin) pgs ->
  Sorted Rout pgs ->
  Forall (fun g => g <> []) (map (map fst) pgs) /\
  Forall (Sorted (chained fire_points)) (map (map fst) pgs) /\
  Sorted (separated fire_points) (map (map fst) pgs).
Proof.
  intros Hts Hne Hin Hout.
  assert (Hmem : forall g a, In g pgs -> In a g -> timestamp fire_points (fst a) = snd a).
  { intros g [i dt] Hg Ha. apply Hts. apply in_concat. eauto. }
  split; [|split].
  - rewrite Forall_map. eapply Forall_impl; [|exact Hne].
    intros g Hg. destruct g; [congruence | discriminate].
  - rewrite Forall_map. rewrite Forall_forall in *. intros g Hg.
    apply Sorted_map. apply Sorted_impl_in with (R := Rin); [|now apply Hin].
    intros a b Ha Hb [Hle Hw]. unfold chained.
    rewrite (Hmem g a Hg Ha), (Hmem g b Hg Hb). split; [assumption|].
    now apply Qle_bool_iff.
  - apply Sorted_map. apply Sorted_impl_in with (R := Rout); [|assumption].
    intros g1 g2 Hg1 Hg2 Hr. unfold separated, Rout in *.
    rewrite map_fst_hd, map_fst_last.
    rewrite Forall_forall in Hne.
    rewrite (Hmem g2 (hd d0 g2) Hg2), (Hmem g1 (last g1 d0) Hg1).
    + now apply within_window_false.
    + apply last_in. now apply Hne.
    + destruct g2 as [|a t]; [now apply Hne in Hg2 | now left].
Qed.

(** The groups of a batch whose timestamps all parse, as lists of
    (index, datetime) pairs. *)
Lemma group_by_time_proximity_pairs (fire_points : list Fire) :
  Forall parses fire_points ->
  exists tl pgs,
    parse_enumerated (enumerate fire_points) = Some tl /\
    group_by_time_proximity fire_points = Some (map (map fst) pgs) /\
    Permutation (concat pgs) tl /\
    Forall (fun g => g <> []) pgs /\
    Forall (Sorted Rin) pgs /\
    Sorted Rout pgs.
Proof.
  intros Hp. unfold group_by_time_proximity.
  destruct fire_points as [|f0 fs] eqn:Efp.
  - exists [], []. repeat split; constructor.
  - rewrite <- Efp in *.
    destruct (parse_enumerated_total (enumerate fire_points)) as [tl Htl].
    { rewrite Forall_forall in *. intros [i f] Hin. apply Hp.
      apply enumerate_from_nth in Hin. destruct Hin as [_ Hn].
      eapply nth_error_In; exact Hn. }
    rewrite Htl. cbv zeta.
    pose proof (py_sorted_perm by_datetime tl) as Hperm.
    assert (Hsorted : StronglySorted (fun a b => by_datetime a b = true)
                        (py_sorted by_datetime tl)).
    { apply py_sorted_sorted; unfold by_datetime; intros; lia. }
    destruct (group_loop_inv _ Hsorted) as [psets Hinv].
    destruct (fold_left group_step (py_sorted by_datetime tl) ([], [])) as [sets cur].
    destruct Hinv as [Hsets Hcat Hne Hcur Hfirst Hin Hincur Hout]. simpl in *.
    assert (Hnonnil : py_sorted by_datetime tl <> []).
    { intros E. apply (f_equal (@length _)) in E. rewrite py_sorted_length in E.
      rewrite <- (length_map fst), (parse_enumerated_fst _ _ Htl) in E.
      unfold enumerate in E. rewrite enumerate_from_fst, length_seq, Efp in E.
      discriminate. }
    specialize (Hcur Hnonnil).
    exists tl, (psets ++ [cur]). split; [reflexivity|]. split.
    { destruct cur; [congruence|]. now rewrite Hsets, map_app. }
    split.
    { rewrite concat_app. simpl. now rewrite app_nil_r, Hcat. }
    split; [apply Forall_app; split; [assumption | now repeat constructor]|].
    split; [apply Forall_app; split; [assumption | now repeat constructor]|].
    assumption.
Qed.

(** Over all groups, every fire index of the batch occurs once. *)
Lemma groups_partition_indices (fire_points : list Fire) tl (pgs : list (list (nat * Z))) :
  parse_enumerated (enumerate fire_points) = Some tl ->
  Permutation (concat pgs) tl ->
  Permutation (concat (map (map fst) pgs)) (seq 0 (length fire_points)).
Proof.
  intros Htl Hperm. rewrite <- concat_map.
  rewrite <- (enumerate_from_fst fire_points 0).
  fold (enumerate fire_points). rewrite <- (parse_enumerated_fst _ _ Htl).
  now apply Permutation_map.
Qed.

(** C4.  When every timestamp of the batch parses, the grouper returns groups
    that partition the fire indices [0 .. n-1] (each index once, over all
    groups), none of them empty; inside a group consecutive fires have
    non-decreasing timestamps at most [time_window] minutes apart, and from
    the last fire of a group to the first fire of the next one there are more
    than [time_window] minutes. *)
Theorem group_by_time_proximity_partition (fire_points : list Fire) :
  Forall parses fire_points ->
  exists groups,
    group_by_time_proximity fire_points = Some groups /\
    Permutation (concat groups) (seq 0 (length fire_points)) /\
    Forall (fun g => g <> []) groups /\
    Forall (Sorted (chained fire_points)) groups /\
    Sorted (separated fire_points) groups.
Proof.
  intros Hp.
  destruct (group_by_time_proximity_pairs fire_points Hp)
    as [tl [pgs [Htl [Hgroups [Hperm [Hne [Hin Hout]]]]]]].
  exists (map (map fst) pgs). split; [exact Hgroups|].
  split; [exact (groups_partition_indices fire_points tl pgs Htl Hperm)|].
  apply groups_by_index; try assumption.
  intros i dt Hi. apply (Permutation_in _ Hperm) in Hi.
  eapply parse_enumerated_timestamp; eassumption.
Qed.

End Grouping.

(** ** Concrete runs *)

(** A small parser table standing for [strptime] on one day, in minutes
    after midnight. *)
Definition demo_strptime (s : string) : option Z :=
  if String.eqb s "2024-03-01 10:00" then Some 600
  else if String.eqb s "2024-03-01 10:05" then Some 605
  else if String.eqb s "2024-03-01 10:30" then Some 630
  else if String.eqb s "2024-03-01 12:00" then Some 720
  else None.

Definition demo_fire (nm tm : string) : Fire :=
  mkFire nm (37 # 1) (127 # 1) "2024-03-01" tm 3.

(** Two fires 5 minutes apart, window of 10 minutes: one group. *)
Example group_two_fires_close :
  group_by_time_proximity demo_strptime (10 # 1)
    [demo_fire "A" "10:00"; demo_fire "B" "10:05"] = Some [[0; 1]%nat].
Proof. vm_compute. reflexivity. Qed.

(** Two fires 30 minutes apart, same window: two groups. *)
Example group_two_fires_apart :
  group_by_time_proximity demo_strptime (10 # 1)
    [demo_fire "A" "10:00"; demo_fire "B" "10:30"] = Some [[0]; [1]]%nat.
Proof. vm_compute. reflexivity. Qed.

(** A batch that is not in time order: groups keep the original indices. *)
Example group_unordered_batch :
  group_by_time_proximity demo_strptime (10 # 1)
    [demo_fire "A" "10:00"; demo_fire "B" "12:00"; demo_fire "C" "10:05"]
  = Some [[0; 2]; [1]]%nat.
Proof. vm_compute. reflexivity. Qed.

(** A malformed timestamp makes the call fail. *)
Example group_malformed :
  group_by_time_proximity demo_strptime (10 # 1) [demo_fire "A" "25:99"] = None.
Proof. vm_compute. reflexivity. Qed.

Lemma group_by_time_proximity_partition_witness :
  exists groups,
    group_by_time_proximity demo_strptime (10 # 1)
      [demo_fire "A" "10:00"; demo_fire "B" "12:00"; demo_fire "C" "10:05"]
    = Some groups /\
    Permutation (concat groups) [0; 1; 2]%nat /\
    Forall (fun g => g <> []) groups.
Proof.
  destruct (group_by_time_proximity_partition demo_strptime (10 # 1)
              [demo_fire "A" "10:00"; demo_fire "B" "12:00"; demo_fire "C" "10:05"])
    as [groups [H1 [H2 [H3 _]]]].
  - repeat constructor; unfold parses; vm_compute; discriminate.
  - exists groups. repeat split; assumption.
Defined.

(** ** The groups in chronological order *)

Section Chronology.
Variable strptime : string -> option Z.
Variable time_window : Q.

(** Earlier timestamp first; at equal timestamps, earlier batch position
    first. *)
Definition before (ts : nat -> Z) (a b : nat) : Prop :=
  ts a < ts b \/ (ts a = ts b /\ (a < b)%nat).

Definition before_pair (a b : nat * Z) : Prop :=
  snd a < snd b \/ (snd a = snd b /\ (fst a < fst b)%nat).

Lemma insert_sorted_before x l :
  StronglySorted before_pair l ->
  Forall (fun y => (fst x < fst y)%nat) l ->
  StronglySorted before_pair (insert_sorted by_datetime x l).
Proof.
  induction 1 as [|y t Hs IH Hall]; intros Hidx; simpl.
  - repeat constructor.
  - inversion Hidx as [|? ? Hxy Hidx']; subst.
    unfold by_datetime at 1. destruct (snd x <=? snd y) eqn:E.
    + apply Z.leb_le in E. constructor; [now constructor|].
      constructor; [unfold before_pair; lia|].
      rewrite Forall_forall in *. intros z Hz.
      pose proof (Hall z Hz) as Hyz. pose proof (Hidx' z Hz) as Hxz.
      unfold before_pair in *. lia.
    + apply Z.leb_gt in E. constructor; [now apply IH|].
      rewrite Forall_forall in *. intros z Hz.
      apply (Permutation_in _ (insert_sorted_perm by_datetime x t)) in Hz.
      destruct Hz as [<- | Hz]; [unfold before_pair; lia | now apply Hall].
Qed.

Lemma py_sorted_before l :
  StronglySorted (fun a b => (fst a < fst b)%nat) l ->
  StronglySorted before_pair (py_sorted by_datetime l).
Proof.
  induction 1 as [|x t Hs IH Hall]; simpl; [constructor|].
  apply insert_sorted_before; [assumption|].
  rewrite Forall_forall in *. intros y Hy. apply Hall.
  now apply (Permutation_in _ (py_sorted_perm by_datetime t)).
Qed.

(** A list that is already in key order is left as it is. *)
Lemma py_sorted_already l :
  StronglySorted (fun a b => by_datetime a b = true) l -> py_sorted by_datetime l = l.
Proof.
  induction 1 as [|x t Hs IH Hall]; simpl; [reflexivity|].
  rewrite IH. destruct t as [|y t']; [reflexivity|]. simpl.
  inversion Hall as [|? ? Hxy _]; subst. now rewrite Hxy.
Qed.

Lemma seq_increasing n : forall s, StronglySorted lt (seq s n).
Proof.
  induction n as [|n IH]; intros s; simpl; constructor; [apply IH|].
  rewrite Forall_forall. intros y Hy. apply in_seq in Hy. lia.
Qed.

Lemma StronglySorted_map_in {A B : Type} (f : A -> B) (R : A -> A -> Prop)
      (R' : B -> B -> Prop) l :
  (forall a b, In a l -> In b l -> R a b -> R' (f a) (f b)) ->
  StronglySorted R l -> StronglySorted R' (map f l).
Proof.
  intros Himp Hs. induction Hs as [|x t Hs IH Hall]; simpl; constructor.
  - apply IH. intros a b Ha Hb. apply Himp; now right.
  - rewrite Forall_map, Forall_forall. rewrite Forall_forall in Hall.
    intros y Hy. apply Himp; [now left | now right | now apply Hall].
Qed.

Lemma StronglySorted_unmap {A B : Type} (f : A -> B) (R : B -> B -> Prop) l :
  StronglySorted R (map f l) -> StronglySorted (fun a b => R (f a) (f b)) l.
Proof.
  induction l as [|x t IH]; simpl; intros Hs; [constructor|].
  inversion Hs as [|? ? Hs' Hall]; subst. constructor; [now apply IH|].
  now rewrite Forall_map in Hall.
Qed.

(** The parsed list, entry by entry. *)
Lemma parse_enumerated_entries fire_points tl :
  parse_enumerated strptime (enumerate fire_points) = Some tl ->
  tl = map (fun i => (i, timestamp strptime fire_points i)) (seq 0 (length fire_points)).
Proof.
  intros Htl. rewrite <- (enumerate_from_fst fire_points 0).
  fold (enumerate fire_points). rewrite <- (parse_enumerated_fst _ _ _ Htl).
  rewrite map_map. rewrite <- (map_id tl) at 1. apply map_ext_in.
  intros [i dt] Hin. simpl.
  now rewrite (parse_enumerated_timestamp _ _ _ _ _ Htl Hin).
Qed.

(** Concatenating the groups gives the sorted list of the loop. *)
Lemma group_by_time_proximity_concat (fire_points : list Fire) :
  Forall (parses strptime) fire_points ->
  exists tl groups,
    parse_enumerated strptime (enumerate fire_points) = Some tl /\
    group_by_time_proximity strptime time_window fire_points = Some groups /\
    concat groups = map fst (py_sorted by_datetime tl).
Proof.
  intros Hp. unfold group_by_time_proximity.
  destruct (parse_enumerated_total strptime (enumerate fire_points)) as [tl Htl].
  { rewrite Forall_forall in *. intros [i f] Hin. apply Hp.
    apply enumerate_from_nth in Hin. destruct Hin as [_ Hn].
    eapply nth_error_In; exact Hn. }
  destruct fire_points as [|f0 fs] eqn:Efp.
  - simpl in Htl. inversion Htl; subst. exists [], []. repeat split.
  - rewrite <- Efp in *. rewrite Htl. cbv zeta.
    assert (Hsorted : StronglySorted (fun a b => by_datetime a b = true)
                        (py_sorted by_datetime tl)).
    { apply py_sorted_sorted; unfold by_datetime; intros; lia. }
    destruct (group_loop_inv time_window _ Hsorted) as [psets Hinv].
    destruct (fold_left (group_step time_window) (py_sorted by_datetime tl) ([], []))
      as [sets cur].
    destruct Hinv as [Hsets Hcat _ _ Hfirst _ _ _]. simpl in *.
    exists tl. destruct cur as [|c cs].
    + exists sets. split; [reflexivity|]. split; [reflexivity|].
      rewrite (Hfirst eq_refl) in *. simpl in *. now rewrite <- Hcat, Hsets.
    + exists (sets ++ [map fst (c :: cs)]). split; [reflexivity|].
      split; [reflexivity|].
      rewrite <- Hcat, Hsets, concat_app, map_app, concat_map. simpl.
      now rewrite app_nil_r.
Qed.

Lemma sorted_pairs_chronological (fire_points : list Fire) tl :
  parse_enumerated strptime (enumerate fire_points) = Some tl ->
  StronglySorted (before (timestamp strptime fire_points))
                 (map fst (py_sorted by_datetime tl)).
Proof.
  intros Htl. apply StronglySorted_map_in with (R := before_pair).
  - intros a b Ha Hb Hab.
    apply (Permutation_in _ (py_sorted_perm by_datetime tl)) in Ha, Hb.
    destruct a as [i dt], b as [j dt'].
    rewrite <- (parse_enumerated_timestamp _ _ _ _ _ Htl Ha) in Hab.
    rewrite <- (parse_enumerated_timestamp _ _ _ _ _ Htl Hb) in Hab.
    exact Hab.
  - apply py_sorted_before. apply StronglySorted_unmap.
    rewrite (parse_enumerated_fst _ _ _ Htl). unfold enumerate.
    rewrite enumerate_from_fst. apply seq_increasing.
Qed.

(** Read in order, the groups list the fires by timestamp, fires with the
    same timestamp in batch order. *)
Theorem groups_in_chronological_order (fire_points : list Fire) :
  Forall (parses strptime) fire_points ->
  exists groups,
    group_by_time_proximity strptime time_window fire_points = Some groups /\
    StronglySorted (before (timestamp strptime fire_points)) (concat groups).
Proof.
  intros Hp.
  destruct (group_by_time_proximity_concat fire_points Hp) as [tl [groups [Htl [Hg Hc]]]].
  exists groups. split; [exact Hg|]. rewrite Hc.
  exact (sorted_pairs_chronological fire_points tl Htl).
Qed.

(** ** Fires of different groups *)

Lemma Sorted_middle {A : Type} (R : A -> A -> Prop) pre a b t :
  Sorted R (pre ++ a :: b :: t) -> R a b.
Proof.
  induction pre as [|x pre IH]; simpl; intros Hs.
  - inversion Hs as [|? ? _ Hhd]; subst. now inversion Hhd.
  - inversion Hs; subst. now apply IH.
Qed.

Lemma StronglySorted_app_inv {A : Type} (R : A -> A -> Prop) l1 l2 :
  StronglySorted R (l1 ++ l2) ->
  StronglySorted R l1 /\ StronglySorted R l2 /\
  (forall a b, In a l1 -> In b l2 -> R a b).
Proof.
  induction l1 as [|x t IH]; simpl; intros Hs.
  - repeat split; [constructor | assumption | intros a b []].
  - inversion Hs as [|? ? Hs' Hall]; subst.
    destruct (IH Hs') as [H1 [H2 H12]]. apply Forall_app in Hall.
    destruct Hall as [Hall1 Hall2]. repeat split.
    + now constructor.
    + assumption.
    + intros a b [<- | Ha] Hb; [|now apply H12].
      rewrite Forall_forall in Hall2. now apply Hall2.
Qed.

Lemma before_le ts a b : before ts a b -> ts a <= ts b.
Proof. unfold before. lia. Qed.

Lemma le_last_of_group ts (g : list nat) i :
  StronglySorted (before ts) g -> In i g -> ts i <= ts (last g 0%nat).
Proof.
  intros Hs Hi. destruct g as [|x t]; [destruct Hi|].
  rewrite (app_removelast_last 0%nat (l := x :: t)) in Hs, Hi by discriminate.
  apply in_app_or in Hi. destruct Hi as [Hi | [<- | []]]; [|lia].
  apply StronglySorted_app_inv in Hs. destruct Hs as [_ [_ Hcross]].
  apply before_le. apply Hcross; [assumption | now left].
Qed.

Lemma hd_le_of_rest ts (nxt : list nat) (rest : list (list nat)) j g2 :
  nxt <> [] -> StronglySorted (before ts) (concat (nxt :: rest)) ->
  In g2 (nxt :: rest) -> In j g2 -> ts (hd 0%nat nxt) <= ts j.
Proof.
  intros Hne Hs Hg Hj. destruct nxt as [|x t]; [congruence|]. simpl hd.
  assert (Hin : In j (concat ((x :: t) :: rest))) by (apply in_concat; eauto).
  simpl in Hin, Hs. inversion Hs as [|? ? _ Hall]; subst.
  destruct Hin as [<- | Hin]; [lia|].
  rewrite Forall_forall in Hall. apply before_le. now apply Hall.
Qed.

(** Two fires of different groups are more than the window apart: the
    fire of the later group is more than [time_window] minutes after the
    fire of the earlier group. *)
Theorem fires_of_different_groups_apart (fire_points : list Fire) :
  Forall (parses strptime) fire_points ->
  exists groups,
    group_by_time_proximity strptime time_window fire_points = Some groups /\
    forall pre g1 mid g2 post i j,
      groups = pre ++ g1 :: mid ++ g2 :: post -> In i g1 -> In j g2 ->
      (time_window <
       inject_Z (timestamp strptime fire_points j - timestamp strptime fire_points i))%Q.
Proof.
  intros Hp.
  destruct (group_by_time_proximity_concat fire_points Hp) as [tl0 [groups [Htl0 [Hg Hc]]]].
  pose proof (sorted_pairs_chronological fire_points tl0 Htl0) as Hchron.
  rewrite <- Hc in Hchron. clear Hc Htl0 tl0.
  destruct (group_by_time_proximity_pairs strptime time_window fire_points Hp)
    as [tl [pgs [Htl [Hg' [Hperm [Hne [Hin Hout]]]]]]].
  rewrite Hg in Hg'. inversion Hg' as [Egroups].
  destruct (groups_by_index strptime time_window fire_points pgs) as [Hne' [_ Hsep]];
    try assumption.
  { intros i dt Hi. apply (Permutation_in _ Hperm) in Hi.
    eapply parse_enumerated_timestamp; eassumption. }
  rewrite <- Egroups in Hne', Hsep. clear Egroups Hg' Hperm Hne Hin Hout Htl pgs tl.
  exists groups. split; [exact Hg|].
  intros pre g1 mid g2 post i j E Hi Hj. subst groups.
  set (ts := timestamp strptime fire_points) in *.
  destruct (mid ++ g2 :: post) as [|nxt rest] eqn:Erest;
    [destruct mid; discriminate|].
  assert (Hg2 : In g2 (nxt :: rest)).
  { rewrite <- Erest. apply in_or_app. right. now left. }
  pose proof (Sorted_middle _ _ _ _ _ Hsep) as Hgap. unfold separated in Hgap.
  fold ts in Hgap.
  rewrite concat_app in Hchron. apply StronglySorted_app_inv in Hchron.
  destruct Hchron as [_ [Hchron _]]. simpl in Hchron.
  apply StronglySorted_app_inv in Hchron. destruct Hchron as [Hs1 [Hs2 _]].
  pose proof (le_last_of_group ts g1 i Hs1 Hi) as Hlast.
  assert (Hnxt : nxt <> []).
  { rewrite Forall_forall in Hne'. apply Hne'. apply in_or_app. right. right. now left. }
  pose proof (hd_le_of_rest ts nxt rest j g2 Hnxt Hs2 Hg2 Hj) as Hhd.
  eapply Qlt_le_trans; [exact Hgap|]. rewrite <- Zle_Qle. lia.
Qed.

(** ** A batch that is already in time order *)

Lemma app_eq_length {A : Type} (l1 l1' l2 l2' : list A) :
  l1 ++ l2 = l1' ++ l2' -> length l1 = length l1' -> l1 = l1' /\ l2 = l2'.
Proof.
  revert l1'. induction l1 as [|x t IH]; intros [|y t'] E Hl; try discriminate.
  - now split.
  - simpl in *. inversion E; subst. destruct (IH t' H1) as [-> ->]; [lia|]. now split.
Qed.

Lemma concat_seq_ranges (groups : list (list nat)) : forall s n,
  concat groups = seq s n ->
  Forall (fun g => exists m, g = seq m (length g)) groups.
Proof.
  induction groups as [|g gs IH]; intros s n E; [constructor|].
  simpl in E.
  assert (Hn : n = (length g + length (concat gs))%nat).
  { apply (f_equal (@length _)) in E. now rewrite length_app, length_seq in E. }
  rewrite Hn, seq_app in E.
  apply app_eq_length in E; [|now rewrite length_seq].
  destruct E as [Eg Egs]. constructor; [now exists s | now apply (IH _ _ Egs)].
Qed.

Lemma time_ordered_batch_concat (fire_points : list Fire) :
  Forall (parses strptime) fire_points ->
  (forall i j, (i <= j)%nat -> (j < length fire_points)%nat ->
               timestamp strptime fire_points i <= timestamp strptime fire_points j) ->
  exists groups,
    group_by_time_proximity strptime time_window fire_points = Some groups /\
    concat groups = seq 0 (length fire_points).
Proof.
  intros Hp Hord.
  destruct (group_by_time_proximity_concat fire_points Hp) as [tl [groups [Htl [Hg Hc]]]].
  exists groups. split; [exact Hg|].
  rewrite Hc, py_sorted_already.
  - rewrite (parse_enumerated_fst _ _ _ Htl). apply enumerate_from_fst.
  - rewrite (parse_enumerated_entries _ _ Htl).
    apply StronglySorted_map_in with (R := lt); [|apply seq_increasing].
    intros a b _ Hb Hab. apply in_seq in Hb. unfold by_datetime. simpl.
    apply Z.leb_le. apply Hord; lia.
Qed.

(** When the batch is given in non-decreasing time order, the groups cut
    the batch into runs of consecutive positions. *)
Theorem time_ordered_batch_groups (fire_points : list Fire) :
  Forall (parses strptime) fire_points ->
  (forall i j, (i <= j)%nat -> (j < length fire_points)%nat ->
               timestamp strptime fire_points i <= timestamp strptime fire_points j) ->
  exists groups,
    group_by_time_proximity strptime time_window fire_points = Some groups /\
    concat groups = seq 0 (length fire_points) /\
    Forall (fun g => exists m, g = seq m (length g)) groups.
Proof.
  intros Hp Hord.
  destruct (time_ordered_batch_concat fire_points Hp Hord) as [groups [Hg Hseq]].
  exists groups. split; [exact Hg|]. split; [exact Hseq|].
  exact (concat_seq_ranges groups _ _ Hseq).
Qed.

End Chronology.

Definition demo_batch : list Fire :=
  [demo_fire "A" "10:00"; demo_fire "B" "12:00"; demo_fire "C" "10:05"].

Definition demo_ordered_batch : list Fire :=
  [demo_fire "A" "10:00"; demo_fire "C" "10:05"; demo_fire "B" "12:00"].

Lemma demo_batch_parses : Forall (parses demo_strptime) demo_batch.
Proof. repeat constructor; unfold parses; vm_compute; discriminate. Qed.

Lemma demo_ordered_batch_parses : Forall (parses demo_strptime) demo_ordered_batch.
Proof. repeat constructor; unfold parses; vm_compute; discriminate. Qed.

Lemma groups_in_chronological_order_witness :
  exists groups,
    group_by_time_proximity demo_strptime (10 # 1) demo_batch = Some groups /\
    StronglySorted (before (timestamp demo_strptime demo_batch)) (concat groups).
Proof.
  apply (groups_in_chronological_order demo_strptime (10 # 1) demo_batch).
  exact demo_batch_parses.
Defined.

Lemma fires_of_different_groups_apart_witness :
  exists groups,
    group_by_time_proximity demo_strptime (10 # 1) demo_batch = Some groups /\
    forall pre g1 mid g2 post i j,
      groups = pre ++ g1 :: mid ++ g2 :: post -> In i g1 -> In j g2 ->
      (10 # 1 <
       inject_Z (timestamp demo_strptime demo_batch j
                 - timestamp demo_strptime demo_batch i))%Q.
Proof.
  apply (fires_of_different_groups_apart demo_strptime (10 # 1) demo_batch).
  exact demo_batch_parses.
Defined.

Lemma time_ordered_batch_groups_witness :
  exists groups,
    group_by_time_proximity demo_strptime (10 # 1) demo_ordered_batch = Some groups /\
    concat groups = [0; 1; 2]%nat /\
    Forall (fun g => exists m, g = seq m (length g)) groups.
Proof.
  apply (time_ordered_batch_groups demo_strptime (10 # 1) demo_ordered_batch).
  - exact demo_ordered_batch_parses.
  - intros i j Hij Hj. simpl in Hj.
    destruct i as [|[|[|i]]], j as [|[|[|j]]]; try lia; vm_compute; discriminate.
Defined.

End ScenarioGenerator.

(* ------------------------------------------------------------------ *)
(** * A result type for Python calls that may raise                    *)
(* ------------------------------------------------------------------ *)

Module Py.

(** [Raised] stands for an exception leaving the function ([IndexError],
    [KeyError], [ValueError]); a division by zero is reported the same way,
    because its IEEE result has no counterpart among the rationals. *)
Inductive Result (A : Type) : Type :=
  | Ok (a : A)
  | Raised.
Arguments Ok {A} a.
Arguments Raised {A}.

Definition bind {A B : Type} (r : Result A) (k : A -> Result B) : Result B :=
  match r with
  | Ok a => k a
  | Raised => Raised
  end.

Definition of_option {A : Type} (o : option A) : Result A :=
  match o with
  | Some a => Ok a
  | None => Raised
  end.

(** A list comprehension whose element expression may raise. *)
Fixpoint comprehension {A B : Type} (f : A -> Result B) (l : list A) : Result (list B) :=
  match l with
  | [] => Ok []
  | x :: t =>
      bind (f x) (fun y => bind (comprehension f t) (fun ys => Ok (y :: ys)))
  end.

(** A [for] loop over [l] on a state [s] whose body may raise. *)
Fixpoint for_loop {A S : Type} (body : S -> A -> Result S) (l : list A) (s : S)
  : Result S :=
  match l with
  | [] => Ok s
  | x :: t => bind (body s x) (fun s' => for_loop body t s')
  end.

Lemma comprehension_ok {A B : Type} (f : A -> Result B) (g : A -> B) l :
  (forall x, In x l -> f x = Ok (g x)) -> comprehension f l = Ok (map g l).
Proof.
  induction l as [|x t IH]; intros H; simpl; [reflexivity|].
  rewrite (H x (or_introl eq_refl)). simpl.
  rewrite IH by (intros; apply H; now right). reflexivity.
Qed.

Lemma comprehension_inv {A B : Type} (f : A -> Result B) l ys :
  comprehension f l = Ok ys -> Forall2 (fun x y => f x = Ok y) l ys.
Proof.
  revert ys. induction l as [|x t IH]; simpl; intros ys H.
  - inversion H. constructor.
  - destruct (f x) as [y|] eqn:E; [|discriminate]. simpl in H.
    destruct (comprehension f t) as [ys'|]; [|discriminate]. simpl in H.
    inversion H; subst. constructor; [assumption | now apply IH].
Qed.

(** A comprehension, or a loop, whose body raises exactly when a test on
    the element fails. *)
Lemma comprehension_guarded {A B : Type} (p : A -> bool) (g : A -> B)
    (f : A -> Result B) l :
  (forall x, f x = if p x then Ok (g x) else Raised) ->
  comprehension f l = if forallb p l then Ok (map g l) else Raised.
Proof.
  intros Hf. induction l as [|x t IH]; simpl; [reflexivity|].
  rewrite Hf. destruct (p x); simpl; [|reflexivity].
  rewrite IH. now destruct (forallb p t).
Qed.

Lemma for_loop_guarded {A S : Type} (p : A -> bool) (g : S -> A -> S)
    (body : S -> A -> Result S) l :
  (forall s x, body s x = if p x then Ok (g s x) else Raised) ->
  forall s, for_loop body l s = if forallb p l then Ok (fold_left g l s) else Raised.
Proof.
  intros Hb. induction l as [|x t IH]; intros s; simpl; [reflexivity|].
  rewrite Hb. destruct (p x); simpl; [apply IH | reflexivity].
Qed.

End Py.

Notation "x <- e1 ;; e2" := (Py.bind e1 (fun x => e2))
  (at level 61, e1 at next level, right associativity).

(* ------------------------------------------------------------------ *)
(** * utils.py : GeoUtils.find_optimal_water_sources                   *)
(* ------------------------------------------------------------------ *)

Module GeoUtils.
Import PyList Py.
Local Open Scope Q_scope.

(** A [[helicopter][fire]] matrix of distances. *)
Definition Matrix : Type := list (list Q).

(** [d[h_idx].append(v)]; [h_idx] is always a valid row in the source. *)
Fixpoint append_at (h_idx : nat) (v : Q) (d : Matrix) : Matrix :=
  match d, h_idx with
  | [], _ => []
  | row :: t, O => (row ++ [v]) :: t
  | row :: t, S i => row :: append_at i v t
  end.

(** Appending one value to every row: the effect of one pass of the
    helicopter loop on a matrix. *)
Fixpoint append_column (d : Matrix) (vs : list Q) : Matrix :=
  match d, vs with
  | row :: t, v :: vs' => (row ++ [v]) :: append_column t vs'
  | _, _ => d
  end.

Definition warning_no_water : string :=
  "Warning: No water sources available. Using dummy water source.".

(** [[(lat + 0.01, lng + 0.01) for lat, lng in fire_coords]] *)
Definition dummy_water_pts (fire_coords : list Coord) : list Coord :=
  map (fun '(lat, lng) => (lat + (1 # 100), lng + (1 # 100))) fire_coords.

(** [d[h][f]]; [None] is Python's [IndexError]. *)
Definition entry (d : Matrix) (h f : nat) : option Q :=
  match nth_error d h with
  | Some row => nth_error row f
  | None => None
  end.

Lemma entry_map {A B : Type} (g : B -> A -> Q) (hs : list A) (fs : list B) h j x y :
  nth_error hs h = Some x -> nth_error fs j = Some y ->
  entry (map (fun a => map (fun b => g b a) fs) hs) h j = Some (g y x).
Proof.
  intros Hh Hj. unfold entry.
  rewrite (map_nth_error _ _ _ Hh). now rewrite (map_nth_error _ _ _ Hj).
Qed.

(** [geodesic] makes a [Point] of each tuple: a latitude outside
    [[-90, 90]] raises [ValueError], a longitude is wrapped into range. *)
Definition valid_point (loc : Coord) : bool :=
  Qle_bool (-90 # 1) (fst loc) && Qle_bool (fst loc) (90 # 1).

Section Router.
(** The length in kilometres of the geodesic between two points with valid
    latitudes. *)
Variable geodesic_km : Coord -> Coord -> Q.

(** [geodesic(loc1, loc2).kilometers] *)
Definition calculate_distance (loc1 loc2 : Coord) : Result Q :=
  if valid_point loc1 && valid_point loc2 then Ok (geodesic_km loc1 loc2) else Raised.

(** Key of [sorted(dist_list, key=lambda x: x[1])]. *)
Definition by_distance (a b : Coord * Q) : bool := Qle_bool (snd a) (snd b).

Definition dist_list (fire_loc : Coord) (water_pts : list Coord)
  : Result (list (Coord * Q)) :=
  comprehension
    (fun water_loc =>
       dist_km <- calculate_distance fire_loc water_loc ;;
       Ok (water_loc, dist_km))
    water_pts.

Definition nearest_3 (fire_loc : Coord) (water_pts : list Coord)
  : Result (list (Coord * Q)) :=
  dl <- dist_list fire_loc water_pts ;;
  Ok (firstn 3 (py_sorted by_distance dl)).

(** One iteration of the candidate loop on [(best_val, best_combo)];
    [best_val = None] is [float('inf')]. *)
Definition candidate_step (fire_loc heli_loc : Coord)
    (st : option Q * (Q * Q * Q)) (c : Coord * Q) : Result (option Q * (Q * Q * Q)) :=
  let '(water_loc, dist_fw) := c in
  dist_hw <- calculate_distance heli_loc water_loc ;;
  dist_fh <- calculate_distance fire_loc heli_loc ;;
  let total := dist_hw + dist_fw + dist_fh in
  let better := match fst st with
                | None => true
                | Some best_val => Qlt_bool total best_val
                end in
  Ok (if better then (Some total, (dist_hw, dist_fw, dist_fh)) else st).

Definition best_combo (fire_loc : Coord) (candidates : list (Coord * Q))
    (heli_loc : Coord) : Result (Q * Q * Q) :=
  st <- for_loop (candidate_step fire_loc heli_loc) candidates (None, (0, 0, 0)) ;;
  Ok (snd st).

(** One iteration of the helicopter loop on [(d1, d2, d3)]. *)
Definition heli_step (fire_loc : Coord) (candidates : list (Coord * Q))
    (d : Matrix * Matrix * Matrix) (x : nat * Coord)
  : Result (Matrix * Matrix * Matrix) :=
  let '(d1, d2, d3) := d in
  let '(h_idx, heli_loc) := x in
  combo <- best_combo fire_loc candidates heli_loc ;;
  let '(c1, c2, c3) := combo in
  Ok (append_at h_idx c1 d1, append_at h_idx c2 d2, append_at h_idx c3 d3).

(** One iteration of the fire loop. *)
Definition fire_step (water_pts heli_locs : list Coord)
    (d : Matrix * Matrix * Matrix) (fire_loc : Coord)
  : Result (Matrix * Matrix * Matrix) :=
  candidates <- nearest_3 fire_loc water_pts ;;
  for_loop (heli_step fire_loc candidates) (enumerate heli_locs) d.

(** The result carries what was printed; the warning is printed before any
    distance is measured. *)
Definition find_optimal_water_sources
    (fire_coords water_pts heli_locs : list Coord)
    : list string * Result (Matrix * Matrix * Matrix) :=
  match fire_coords, heli_locs with
  | [], _ | _, [] => ([], Ok ([], [], []))
  | _ :: _, _ :: _ =>
      let '(log, water_pts) :=
        match water_pts with
        | [] => ([warning_no_water], dummy_water_pts fire_coords)
        | _ :: _ => ([], water_pts)
        end in
      let num_heli := length heli_locs in
      let d := (repeat [] num_heli, repeat [] num_heli, repeat [] num_heli) in
      (log, for_loop (fire_step water_pts heli_locs) fire_coords d)
  end.

(** The water sources the routing really uses. *)
Definition effective_water_pts (fire_coords water_pts : list Coord) : list Coord :=
  match water_pts with
  | [] => dummy_water_pts fire_coords
  | _ :: _ => water_pts
  end.

(** ** The loops on coordinates whose every distance call returns *)

(** What each loop computes when none of its distance calls raises; the
    [_guarded] lemmas below say when that is and relate these values to the
    loops above. *)
Definition dist_list_km (fire_loc : Coord) (water_pts : list Coord) : list (Coord * Q) :=
  map (fun water_loc => (water_loc, geodesic_km fire_loc water_loc)) water_pts.

Definition nearest_3_km (fire_loc : Coord) (water_pts : list Coord) : list (Coord * Q) :=
  firstn 3 (py_sorted by_distance (dist_list_km fire_loc water_pts)).

(** The three legs and their sum for one candidate. *)
Definition legs (fire_loc heli_loc : Coord) (c : Coord * Q) : Q * Q * Q :=
  (geodesic_km heli_loc (fst c), snd c, geodesic_km fire_loc heli_loc).

Definition total_dist (fire_loc heli_loc : Coord) (c : Coord * Q) : Q :=
  geodesic_km heli_loc (fst c) + snd c + geodesic_km fire_loc heli_loc.

Definition candidate_step_km (fire_loc heli_loc : Coord)
    (st : option Q * (Q * Q * Q)) (c : Coord * Q) : option Q * (Q * Q * Q) :=
  let '(water_loc, dist_fw) := c in
  let dist_hw := geodesic_km heli_loc water_loc in
  let dist_fh := geodesic_km fire_loc heli_loc in
  let total := dist_hw + dist_fw + dist_fh in
  let better := match fst st with
                | None => true
                | Some best_val => Qlt_bool total best_val
                end in
  if better then (Some total, (dist_hw, dist_fw, dist_fh)) else st.

Definition best_combo_km (fire_loc : Coord) (candidates : list (Coord * Q))
    (heli_loc : Coord) : Q * Q * Q :=
  snd (fold_left (candidate_step_km fire_loc heli_loc) candidates (None, (0, 0, 0))).

Definition heli_step_km (fire_loc : Coord) (candidates : list (Coord * Q))
    (d : Matrix * Matrix * Matrix) (x : nat * Coord) : Matrix * Matrix * Matrix :=
  let '(d1, d2, d3) := d in
  let '(h_idx, heli_loc) := x in
  let '(c1, c2, c3) := best_combo_km fire_loc candidates heli_loc in
  (append_at h_idx c1 d1, append_at h_idx c2 d2, append_at h_idx c3 d3).

Definition fire_step_km (water_pts heli_locs : list Coord)
    (d : Matrix * Matrix * Matrix) (fire_loc : Coord) : Matrix * Matrix * Matrix :=
  fold_left (heli_step_km fire_loc (nearest_3_km fire_loc water_pts)) (enumerate heli_locs) d.

(** ** The helicopter and fire loops as matrices *)

Definition leg1 (water_pts : list Coord) (fire_loc heli_loc : Coord) : Q :=
  fst (fst (best_combo_km fire_loc (nearest_3_km fire_loc water_pts) heli_loc)).
Definition leg2 (water_pts : list Coord) (fire_loc heli_loc : Coord) : Q :=
  snd (fst (best_combo_km fire_loc (nearest_3_km fire_loc water_pts) heli_loc)).
Definition leg3 (water_pts : list Coord) (fire_loc heli_loc : Coord) : Q :=
  snd (best_combo_km fire_loc (nearest_3_km fire_loc water_pts) heli_loc).

Lemma heli_loop_shift fire_loc cands heli_locs :
  forall i r1 r2 r3 t1 t2 t3,
    fold_left (heli_step_km fire_loc cands) (enumerate_from (S i) heli_locs)
      (r1 :: t1, r2 :: t2, r3 :: t3)
    = (let '(u1, u2, u3) :=
         fold_left (heli_step_km fire_loc cands) (enumerate_from i heli_locs) (t1, t2, t3)
       in (r1 :: u1, r2 :: u2, r3 :: u3)).
Proof.
  induction heli_locs as [|h hs IH]; intros i r1 r2 r3 t1 t2 t3; simpl.
  - reflexivity.
  - destruct (best_combo_km fire_loc cands h) as [[c1 c2] c3]. simpl.
    apply IH.
Qed.

Lemma heli_loop_columns fire_loc cands heli_locs :
  forall d1 d2 d3,
    length d1 = length heli_locs -> length d2 = length heli_locs ->
    length d3 = length heli_locs ->
    fold_left (heli_step_km fire_loc cands) (enumerate heli_locs) (d1, d2, d3)
    = (append_column d1 (map (fun h => fst (fst (best_combo_km fire_loc cands h))) heli_locs),
       append_column d2 (map (fun h => snd (fst (best_combo_km fire_loc cands h))) heli_locs),
       append_column d3 (map (fun h => snd (best_combo_km fire_loc cands h)) heli_locs)).
Proof.
  unfold enumerate.
  induction heli_locs as [|h hs IH]; intros d1 d2 d3 H1 H2 H3.
  - destruct d1, d2, d3; try discriminate. reflexivity.
  - destruct d1 as [|r1 t1], d2 as [|r2 t2], d3 as [|r3 t3]; try discriminate.
    simpl in H1, H2, H3. injection H1 as H1. injection H2 as H2. injection H3 as H3.
    simpl. destruct (best_combo_km fire_loc cands h) as [[c1 c2] c3] eqn:E. simpl.
    rewrite heli_loop_shift. rewrite (IH t1 t2 t3 H1 H2 H3). reflexivity.
Qed.

Lemma append_column_map {A B : Type} (f : A -> B -> Q) (hs : list A) (done : list B) x :
  append_column (map (fun h => map (fun y => f h y) done) hs) (map (fun h => f h x) hs)
  = map (fun h => map (fun y => f h y) (done ++ [x])) hs.
Proof.
  induction hs as [|h t IH]; simpl; [reflexivity|].
  rewrite IH, map_app. reflexivity.
Qed.

Lemma repeat_nil_map {A B : Type} (f : A -> B -> Q) (hs : list A) :
  repeat [] (length hs) = map (fun h => map (fun y => f h y) []) hs.
Proof. induction hs as [|h t IH]; simpl; [reflexivity|]. now rewrite IH. Qed.

(** The matrices the loops build, in closed form. *)
Lemma fire_loop_matrices water_pts heli_locs fire_coords :
  fold_left (fire_step_km water_pts heli_locs) fire_coords
    (repeat [] (length heli_locs), repeat [] (length heli_locs), repeat [] (length heli_locs))
  = (map (fun h => map (fun f => leg1 water_pts f h) fire_coords) heli_locs,
     map (fun h => map (fun f => leg2 water_pts f h) fire_coords) heli_locs,
     map (fun h => map (fun f => leg3 water_pts f h) fire_coords) heli_locs).
Proof.
  induction fire_coords as [|f fs IH] using rev_ind.
  - simpl.
    now rewrite (repeat_nil_map (fun h f => leg1 water_pts f h)) at 1;
      rewrite (repeat_nil_map (fun h f => leg2 water_pts f h)) at 1;
      rewrite (repeat_nil_map (fun h f => leg3 water_pts f h)) at 1.
  - rewrite fold_left_app, IH. simpl. unfold fire_step_km.
    rewrite heli_loop_columns by (now rewrite length_map).
    rewrite <- (append_column_map (fun h f => leg1 water_pts f h)).
    rewrite <- (append_column_map (fun h f => leg2 water_pts f h)).
    rewrite <- (append_column_map (fun h f => leg3 water_pts f h)).
    reflexivity.
Qed.

(** ** Candidate selection and choice *)

Lemma nearest_3_selection fire_loc water_pts :
  exists rest,
    Permutation (nearest_3_km fire_loc water_pts ++ rest) (dist_list_km fire_loc water_pts) /\
    length (nearest_3_km fire_loc water_pts) = Nat.min 3 (length water_pts) /\
    StronglySorted (fun a b => snd a <= snd b) (nearest_3_km fire_loc water_pts ++ rest) /\
    (forall p : Coord * Q -> bool,
        (forall a b, p a = true -> p b = true -> snd a == snd b) ->
        filter p (nearest_3_km fire_loc water_pts ++ rest)
        = filter p (dist_list_km fire_loc water_pts)).
Proof.
  exists (skipn 3 (py_sorted by_distance (dist_list_km fire_loc water_pts))).
  unfold nearest_3_km. rewrite firstn_skipn. repeat split.
  - apply py_sorted_perm.
  - rewrite length_firstn, py_sorted_length. unfold dist_list_km. now rewrite length_map.
  - apply StronglySorted_impl_bool with (le := by_distance).
    + intros a b H. now apply Qle_bool_iff.
    + apply py_sorted_sorted.
      * intros a b. apply Qle_bool_total.
      * intros a b c. apply Qle_bool_trans.
  - intros p Hp. apply py_sorted_stable. intros a b Ha Hb.
    unfold by_distance. apply Qle_bool_iff. rewrite (Hp a b Ha Hb). apply Qle_refl.
Qed.

Lemma candidate_loop_first_min fire_loc heli_loc cands :
  cands <> [] ->
  exists pre c post,
    cands = pre ++ c :: post /\
    (forall c', In c' pre ->
                total_dist fire_loc heli_loc c < total_dist fire_loc heli_loc c') /\
    (forall c', In c' post ->
                total_dist fire_loc heli_loc c <= total_dist fire_loc heli_loc c') /\
    fold_left (candidate_step_km fire_loc heli_loc) cands (None, (0, 0, 0))
    = (Some (total_dist fire_loc heli_loc c), legs fire_loc heli_loc c).
Proof.
  induction cands as [|x l IH] using rev_ind; [congruence|]. intros _.
  rewrite fold_left_app. simpl.
  destruct l as [|y l'].
  - exists [], x, []. simpl. destruct x as [w dfw].
    repeat split; try (intros ? []); reflexivity.
  - destruct IH as [pre [c [post [Hl [Hpre [Hpost Hst]]]]]]; [discriminate|].
    rewrite Hst. unfold candidate_step_km at 1. destruct x as [w dfw]. cbn [fst].
    change (geodesic_km heli_loc w + dfw + geodesic_km fire_loc heli_loc)
      with (total_dist fire_loc heli_loc (w, dfw)).
    destruct (Qlt_bool (total_dist fire_loc heli_loc (w, dfw))
                       (total_dist fire_loc heli_loc c)) eqn:Elt.
    + apply Qlt_bool_iff in Elt.
      exists (y :: l'), (w, dfw), []. repeat split.
      * intros c' Hc'. rewrite Hl in Hc'. apply in_app_or in Hc'.
        destruct Hc' as [Hc' | [<- | Hc']].
        -- eapply Qlt_trans; [exact Elt | now apply Hpre].
        -- exact Elt.
        -- eapply Qlt_le_trans; [exact Elt | now apply Hpost].
      * intros ? [].
    + exists pre, c, (post ++ [(w, dfw)]). repeat split.
      * rewrite Hl. now rewrite <- app_assoc.
      * assumption.
      * intros c' Hc'. apply in_app_or in Hc'. destruct Hc' as [Hc' | [<- | []]].
        -- now apply Hpost.
        -- apply Qnot_lt_le. intros Hlt. apply Qlt_bool_iff in Hlt. congruence.
Qed.

(** ** The routing result *)

Lemma effective_water_pts_nonempty fire_coords water_pts :
  fire_coords <> [] -> effective_water_pts fire_coords water_pts <> [].
Proof.
  intros Hf. destruct water_pts; simpl; [|discriminate].
  destruct fire_coords; [congruence | discriminate].
Qed.

Lemma nearest_3_nonempty fire_loc water_pts :
  water_pts <> [] -> nearest_3_km fire_loc water_pts <> [].
Proof.
  intros Hw E. apply (f_equal (@length _)) in E.
  destruct (nearest_3_selection fire_loc water_pts) as [_ [_ [Hlen _]]].
  rewrite Hlen in E. destruct water_pts; [congruence | discriminate].
Qed.

Lemma nearest_3_in fire_loc water_pts c :
  In c (nearest_3_km fire_loc water_pts) ->
  In (fst c) water_pts /\ snd c = geodesic_km fire_loc (fst c).
Proof.
  intros Hc. destruct (nearest_3_selection fire_loc water_pts) as [rest [Hperm _]].
  assert (Hin : In c (dist_list_km fire_loc water_pts)).
  { eapply Permutation_in; [exact Hperm|]. apply in_or_app. now left. }
  unfold dist_list_km in Hin. apply in_map_iff in Hin.
  destruct Hin as [w [<- Hw]]. now split.
Qed.

Lemma best_combo_legs fire_loc water_pts heli_loc :
  water_pts <> [] ->
  exists w, In w water_pts /\
            best_combo_km fire_loc (nearest_3_km fire_loc water_pts) heli_loc
            = (geodesic_km heli_loc w, geodesic_km fire_loc w,
               geodesic_km fire_loc heli_loc).
Proof.
  intros Hw.
  destruct (candidate_loop_first_min fire_loc heli_loc (nearest_3_km fire_loc water_pts))
    as [pre [c [post [Hc [_ [_ Hst]]]]]]; [now apply nearest_3_nonempty|].
  destruct (nearest_3_in fire_loc water_pts c) as [Hin Hd].
  { rewrite Hc. apply in_or_app. right. now left. }
  exists (fst c). split; [assumption|].
  unfold best_combo_km. rewrite Hst. unfold legs. now rewrite Hd.
Qed.

(** ** When the distance calls return *)

(** The two calls of one pass of the candidate loop return. *)
Definition candidate_ok (fire_loc heli_loc : Coord) (c : Coord * Q) : bool :=
  (valid_point heli_loc && valid_point (fst c)) &&
  (valid_point fire_loc && valid_point heli_loc).

(** All calls of one pass of the fire loop return. *)
Definition fire_ok (water_pts heli_locs : list Coord) (fire_loc : Coord) : bool :=
  forallb (fun water_loc => valid_point fire_loc && valid_point water_loc) water_pts &&
  forallb (fun x : nat * Coord =>
             forallb (candidate_ok fire_loc (snd x)) (nearest_3_km fire_loc water_pts))
          (enumerate heli_locs).

(** Every fire, every helicopter location and every water source the
    routing uses has a latitude in [[-90, 90]]. *)
Definition routable (fire_coords water_pts heli_locs : list Coord) : bool :=
  forallb valid_point fire_coords && forallb valid_point heli_locs &&
  forallb valid_point (effective_water_pts fire_coords water_pts).

Lemma dist_list_guarded fire_loc water_pts :
  dist_list fire_loc water_pts
  = if forallb (fun water_loc => valid_point fire_loc && valid_point water_loc) water_pts
    then Ok (dist_list_km fire_loc water_pts) else Raised.
Proof.
  unfold dist_list, dist_list_km. apply comprehension_guarded.
  intros w. unfold calculate_distance.
  now destruct (valid_point fire_loc && valid_point w).
Qed.

Lemma nearest_3_guarded fire_loc water_pts :
  nearest_3 fire_loc water_pts
  = if forallb (fun water_loc => valid_point fire_loc && valid_point water_loc) water_pts
    then Ok (nearest_3_km fire_loc water_pts) else Raised.
Proof.
  unfold nearest_3, nearest_3_km. rewrite dist_list_guarded.
  now destruct (forallb _ water_pts).
Qed.

Lemma candidate_step_guarded fire_loc heli_loc st c :
  candidate_step fire_loc heli_loc st c
  = if candidate_ok fire_loc heli_loc c
    then Ok (candidate_step_km fire_loc heli_loc st c) else Raised.
Proof.
  destruct c as [w dfw].
  unfold candidate_step, candidate_step_km, candidate_ok, calculate_distance. cbn [fst].
  destruct (valid_point heli_loc), (valid_point w), (valid_point fire_loc); reflexivity.
Qed.

Lemma best_combo_guarded fire_loc cands heli_loc :
  best_combo fire_loc cands heli_loc
  = if forallb (candidate_ok fire_loc heli_loc) cands
    then Ok (best_combo_km fire_loc cands heli_loc) else Raised.
Proof.
  unfold best_combo, best_combo_km.
  rewrite (for_loop_guarded (candidate_ok fire_loc heli_loc)
             (candidate_step_km fire_loc heli_loc))
    by (intros; apply candidate_step_guarded).
  now destruct (forallb _ cands).
Qed.

Lemma heli_step_guarded fire_loc cands d x :
  heli_step fire_loc cands d x
  = if forallb (candidate_ok fire_loc (snd x)) cands
    then Ok (heli_step_km fire_loc cands d x) else Raised.
Proof.
  destruct d as [[d1 d2] d3], x as [h_idx heli_loc].
  unfold heli_step, heli_step_km. cbn [snd]. rewrite best_combo_guarded.
  destruct (forallb _ cands); [|reflexivity]. cbn [bind].
  now destruct (best_combo_km fire_loc cands heli_loc) as [[c1 c2] c3].
Qed.

Lemma fire_step_guarded water_pts heli_locs d fire_loc :
  fire_step water_pts heli_locs d fire_loc
  = if fire_ok water_pts heli_locs fire_loc
    then Ok (fire_step_km water_pts heli_locs d fire_loc) else Raised.
Proof.
  unfold fire_step, fire_step_km, fire_ok. rewrite nearest_3_guarded.
  destruct (forallb _ water_pts); [|reflexivity]. cbn [bind andb].
  apply (for_loop_guarded
           (fun x : nat * Coord =>
              forallb (candidate_ok fire_loc (snd x)) (nearest_3_km fire_loc water_pts))
           (heli_step_km fire_loc (nearest_3_km fire_loc water_pts))).
  intros s x. apply heli_step_guarded.
Qed.

Lemma forallb_enumerate_snd fire_loc cands (heli_locs : list Coord) : forall i,
  forallb (fun x : nat * Coord => forallb (candidate_ok fire_loc (snd x)) cands)
          (enumerate_from i heli_locs)
  = forallb (fun heli_loc => forallb (candidate_ok fire_loc heli_loc) cands) heli_locs.
Proof.
  induction heli_locs as [|a t IH]; intros i; simpl; [reflexivity|]. now rewrite IH.
Qed.

(** With a fire, a helicopter and a water source, the calls of the fire
    loop all return exactly when all the latitudes are valid. *)
Lemma fire_loop_ok water_pts heli_locs fire_coords :
  fire_coords <> [] -> heli_locs <> [] -> water_pts <> [] ->
  forallb (fire_ok water_pts heli_locs) fire_coords
  = forallb valid_point fire_coords && forallb valid_point heli_locs &&
    forallb valid_point water_pts.
Proof.
  intros Hf Hh Hw. apply eq_true_iff_eq.
  unfold fire_ok, enumerate.
  rewrite !andb_true_iff, !forallb_forall. split.
  - intros Hall.
    assert (Hfire : forall f, In f fire_coords ->
              valid_point f = true /\
              (forall w, In w water_pts -> valid_point w = true) /\
              (forall hl, In hl heli_locs -> valid_point hl = true)).
    { intros f Hin. specialize (Hall f Hin). apply andb_true_iff in Hall.
      destruct Hall as [Hwat Hhel]. rewrite forallb_forall in Hwat.
      rewrite forallb_enumerate_snd, forallb_forall in Hhel.
      split; [|split].
      - destruct water_pts as [|w0 ws]; [congruence|].
        specialize (Hwat w0 (or_introl eq_refl)).
        now apply andb_true_iff in Hwat.
      - intros w Hin'. specialize (Hwat w Hin'). now apply andb_true_iff in Hwat.
      - intros hl Hin'. specialize (Hhel hl Hin'). rewrite forallb_forall in Hhel.
        pose proof (nearest_3_nonempty f water_pts Hw) as Hne.
        destruct (nearest_3_km f water_pts) as [|c0 cs]; [congruence|].
        specialize (Hhel c0 (or_introl eq_refl)). unfold candidate_ok in Hhel.
        rewrite !andb_true_iff in Hhel. tauto. }
    destruct fire_coords as [|f0 fs]; [congruence|].
    destruct (Hfire f0 (or_introl eq_refl)) as [_ [Hwat Hhel]].
    repeat split; [|exact Hhel | exact Hwat].
    intros f Hin. now apply Hfire.
  - intros [[Hfire Hhel] Hwat] f Hin. apply andb_true_iff. split.
    + apply forallb_forall. intros w Hin'.
      now rewrite (Hfire f Hin), (Hwat w Hin').
    + rewrite forallb_enumerate_snd. apply forallb_forall. intros hl Hin'.
      apply forallb_forall. intros c Hc.
      destruct (nearest_3_in f water_pts c Hc) as [Hcw _].
      unfold candidate_ok.
      now rewrite (Hfire f Hin), (Hhel hl Hin'), (Hwat (fst c) Hcw).
Qed.

(** The result in closed form. *)
Lemma find_optimal_water_sources_eq fire_coords water_pts heli_locs :
  fire_coords <> [] -> heli_locs <> [] ->
  find_optimal_water_sources fire_coords water_pts heli_locs
  = (match water_pts with [] => [warning_no_water] | _ :: _ => [] end,
     if routable fire_coords water_pts heli_locs
     then Ok (map (fun h => map (fun f => leg1 (effective_water_pts fire_coords water_pts) f h)
                              fire_coords) heli_locs,
              map (fun h => map (fun f => leg2 (effective_water_pts fire_coords water_pts) f h)
                              fire_coords) heli_locs,
              map (fun h => map (fun f => leg3 (effective_water_pts fire_coords water_pts) f h)
                              fire_coords) heli_locs)
     else Raised).
Proof.
  intros Hf Hh.
  pose proof (effective_water_pts_nonempty fire_coords water_pts Hf) as Hw.
  assert (Hloop : for_loop (fire_step (effective_water_pts fire_coords water_pts) heli_locs)
                    fire_coords
                    (repeat [] (length heli_locs), repeat [] (length heli_locs),
                     repeat [] (length heli_locs))
                  = if routable fire_coords water_pts heli_locs
                    then Ok (map (fun h => map (fun f =>
                                   leg1 (effective_water_pts fire_coords water_pts) f h)
                                   fire_coords) heli_locs,
                             map (fun h => map (fun f =>
                                   leg2 (effective_water_pts fire_coords water_pts) f h)
                                   fire_coords) heli_locs,
                             map (fun h => map (fun f =>
                                   leg3 (effective_water_pts fire_coords water_pts) f h)
                                   fire_coords) heli_locs)
                    else Raised).
  { rewrite (for_loop_guarded
               (fire_ok (effective_water_pts fire_coords water_pts) heli_locs)
               (fire_step_km (effective_water_pts fire_coords water_pts) heli_locs))
      by (intros; apply fire_step_guarded).
    rewrite (fire_loop_ok _ _ _ Hf Hh Hw). fold (routable fire_coords water_pts heli_locs).
    now rewrite fire_loop_matrices. }
  unfold find_optimal_water_sources.
  destruct fire_coords as [|f0 fs]; [congruence|].
  destruct heli_locs as [|h0 hs]; [congruence|].
  destruct water_pts as [|w0 ws]; cbv zeta iota beta;
    cbn [effective_water_pts] in Hloop; now rewrite Hloop.
Qed.

Lemma find_optimal_water_sources_returned fire_coords water_pts heli_locs log d :
  fire_coords <> [] -> heli_locs <> [] ->
  find_optimal_water_sources fire_coords water_pts heli_locs = (log, Ok d) ->
  routable fire_coords water_pts heli_locs = true /\
  d = (map (fun h => map (fun f => leg1 (effective_water_pts fire_coords water_pts) f h)
                       fire_coords) heli_locs,
       map (fun h => map (fun f => leg2 (effective_water_pts fire_coords water_pts) f h)
                       fire_coords) heli_locs,
       map (fun h => map (fun f => leg3 (effective_water_pts fire_coords water_pts) f h)
                       fire_coords) heli_locs).
Proof.
  intros Hf Hh E. rewrite (find_optimal_water_sources_eq _ _ _ Hf Hh) in E.
  destruct (routable fire_coords water_pts heli_locs); [|discriminate].
  inversion E. now split.
Qed.

Lemma routable_fire fire_coords water_pts heli_locs fire_loc :
  routable fire_coords water_pts heli_locs = true -> In fire_loc fire_coords ->
  forallb (fun water_loc => valid_point fire_loc && valid_point water_loc)
          (effective_water_pts fire_coords water_pts) = true.
Proof.
  unfold routable. rewrite !andb_true_iff, !forallb_forall.
  intros [[Hfire _] Hwat] Hin w Hw. now rewrite (Hfire _ Hin), (Hwat _ Hw).
Qed.

(** C6.  For the fire at position [j] and the helicopter at position [h] of
    a routed group: the candidates are the first three entries (all of them
    when the catalog is shorter) of the catalog ordered by distance to the
    fire, sources at equal distance staying in catalog order; and the entries
    [[h][j]] of the three matrices are the legs of the candidate with the
    least three-leg total, the earliest such candidate in case of ties. *)
Theorem find_optimal_water_sources_choice
    fire_coords water_pts heli_locs j fire_loc h heli_loc log d1 d2 d3 :
  nth_error fire_coords j = Some fire_loc ->
  nth_error heli_locs h = Some heli_loc ->
  find_optimal_water_sources fire_coords water_pts heli_locs = (log, Ok (d1, d2, d3)) ->
  let candidates := nearest_3_km fire_loc (effective_water_pts fire_coords water_pts) in
  let catalog := dist_list_km fire_loc (effective_water_pts fire_coords water_pts) in
  dist_list fire_loc (effective_water_pts fire_coords water_pts) = Ok catalog /\
  nearest_3 fire_loc (effective_water_pts fire_coords water_pts) = Ok candidates /\
  (exists rest,
      Permutation (candidates ++ rest) catalog /\
      length candidates = Nat.min 3 (length catalog) /\
      StronglySorted (fun a b => snd a <= snd b) (candidates ++ rest) /\
      (forall p : Coord * Q -> bool,
          (forall a b, p a = true -> p b = true -> snd a == snd b) ->
          filter p (candidates ++ rest) = filter p catalog)) /\
  (exists pre c post,
      candidates = pre ++ c :: post /\
      (forall c', In c' pre ->
                  total_dist fire_loc heli_loc c < total_dist fire_loc heli_loc c') /\
      (forall c', In c' post ->
                  total_dist fire_loc heli_loc c <= total_dist fire_loc heli_loc c') /\
      entry d1 h j = Some (geodesic_km heli_loc (fst c)) /\
      entry d2 h j = Some (snd c) /\
      entry d3 h j = Some (geodesic_km fire_loc heli_loc)).
Proof.
  intros Hj Hh Hres candidates catalog.
  assert (Hf : fire_coords <> []) by (destruct fire_coords, j; discriminate).
  assert (Hl : heli_locs <> []) by (destruct heli_locs, h; discriminate).
  destruct (find_optimal_water_sources_returned _ _ _ _ _ Hf Hl Hres) as [Hok Hd].
  injection Hd as -> -> ->.
  pose proof (routable_fire _ _ _ _ Hok (nth_error_In _ _ Hj)) as Hcalls.
  split; [rewrite dist_list_guarded; now rewrite Hcalls|].
  split; [rewrite nearest_3_guarded; now rewrite Hcalls|].
  split.
  - destruct (nearest_3_selection fire_loc (effective_water_pts fire_coords water_pts))
      as [rest [Hp [Hlen [Hs Hst]]]].
    exists rest. repeat split; try assumption.
    unfold catalog, dist_list_km. now rewrite length_map.
  - destruct (candidate_loop_first_min fire_loc heli_loc candidates)
      as [pre [c [post [Hc [Hpre [Hpost Hst]]]]]].
    { apply nearest_3_nonempty. now apply effective_water_pts_nonempty. }
    exists pre, c, post. repeat split; try assumption.
    + rewrite (entry_map (leg1 _) _ _ _ _ _ _ Hh Hj).
      unfold leg1, best_combo_km. fold candidates. now rewrite Hst.
    + rewrite (entry_map (leg2 _) _ _ _ _ _ _ Hh Hj).
      unfold leg2, best_combo_km. fold candidates. now rewrite Hst.
    + rewrite (entry_map (leg3 _) _ _ _ _ _ _ Hh Hj).
      unfold leg3, best_combo_km. fold candidates. now rewrite Hst.
Qed.

Definition shaped (rows cols : nat) (d : Matrix) : Prop :=
  length d = rows /\ Forall (fun row => length row = cols) d.

Definition nonneg (d : Matrix) : Prop := Forall (Forall (fun x => 0 <= x)) d.

(** C7, as the code has it.  With fires and helicopters but no water
    source, the router warns and uses one dummy source per fire, at that
    fire's latitude and longitude plus 0.01 each.  When every fire, every
    dummy source and every helicopter location has a latitude in
    [[-90, 90]], it returns three matrices with one row per helicopter and one
    column per fire; every entry is a distance the router really measured
    through one of the dummy sources, hence non-negative.  Otherwise a
    distance call raises and nothing is returned. *)
Theorem find_optimal_water_sources_no_water fire_coords heli_locs :
  fire_coords <> [] -> heli_locs <> [] ->
  (forall a b, 0 <= geodesic_km a b) ->
  fst (find_optimal_water_sources fire_coords [] heli_locs) = [warning_no_water] /\
  effective_water_pts fire_coords [] = dummy_water_pts fire_coords /\
  length (dummy_water_pts fire_coords) = length fire_coords /\
  (forall j lat lng,
      nth_error fire_coords j = Some (lat, lng) ->
      nth_error (dummy_water_pts fire_coords) j
      = Some (lat + (1 # 100), lng + (1 # 100))) /\
  (forallb valid_point fire_coords && forallb valid_point heli_locs &&
   forallb valid_point (dummy_water_pts fire_coords) = false ->
   snd (find_optimal_water_sources fire_coords [] heli_locs) = Raised) /\
  (forallb valid_point fire_coords && forallb valid_point heli_locs &&
   forallb valid_point (dummy_water_pts fire_coords) = true ->
   exists d1 d2 d3,
     snd (find_optimal_water_sources fire_coords [] heli_locs) = Ok (d1, d2, d3) /\
     shaped (length heli_locs) (length fire_coords) d1 /\
     shaped (length heli_locs) (length fire_coords) d2 /\
     shaped (length heli_locs) (length fire_coords) d3 /\
     nonneg d1 /\ nonneg d2 /\ nonneg d3 /\
     (forall h j heli_loc fire_loc,
         nth_error heli_locs h = Some heli_loc ->
         nth_error fire_coords j = Some fire_loc ->
         exists w, In w (dummy_water_pts fire_coords) /\
                   entry d1 h j = Some (geodesic_km heli_loc w) /\
                   entry d2 h j = Some (geodesic_km fire_loc w) /\
                   entry d3 h j = Some (geodesic_km fire_loc heli_loc))).
Proof.
  intros Hf Hl Hpos.
  rewrite (find_optimal_water_sources_eq _ [] _ Hf Hl).
  unfold routable. simpl effective_water_pts. cbn [fst snd].
  assert (Hw : dummy_water_pts fire_coords <> []).
  { exact (effective_water_pts_nonempty fire_coords [] Hf). }
  assert (Hshape : forall g : Coord -> Coord -> Q,
             shaped (length heli_locs) (length fire_coords)
               (map (fun h => map (fun f => g f h) fire_coords) heli_locs)).
  { intros g. split; [apply length_map|].
    rewrite Forall_map, Forall_forall. intros; apply length_map. }
  assert (Hnn : forall g : Coord -> Coord -> Q,
             (forall f h, 0 <= g f h) ->
             nonneg (map (fun h => map (fun f => g f h) fire_coords) heli_locs)).
  { intros g Hg. unfold nonneg. rewrite Forall_map, Forall_forall. intros x _.
    rewrite Forall_map, Forall_forall. intros; apply Hg. }
  split; [reflexivity|]. split; [reflexivity|].
  split; [apply length_map|]. split.
  { intros j lat lng Hj. unfold dummy_water_pts.
    now rewrite (map_nth_error _ _ _ Hj). }
  split; [now intros ->|]. intros ->.
  do 3 eexists. split; [reflexivity|].
  repeat (split; [apply Hshape|]).
  split; [|split; [|split]].
  - apply Hnn. intros f h. unfold leg1.
    destruct (best_combo_legs f _ h Hw) as [w [_ ->]]. apply Hpos.
  - apply Hnn. intros f h. unfold leg2.
    destruct (best_combo_legs f _ h Hw) as [w [_ ->]]. apply Hpos.
  - apply Hnn. intros f h. unfold leg3.
    destruct (best_combo_legs f _ h Hw) as [w [_ ->]]. apply Hpos.
  - intros h j heli_loc fire_loc Hh Hj.
    destruct (best_combo_legs fire_loc _ heli_loc Hw) as [w [Hin Hb]].
    exists w. split; [assumption|].
    rewrite (entry_map (leg1 _) _ _ _ _ _ _ Hh Hj).
    rewrite (entry_map (leg2 _) _ _ _ _ _ _ Hh Hj).
    rewrite (entry_map (leg3 _) _ _ _ _ _ _ Hh Hj).
    unfold leg1, leg2, leg3. rewrite Hb. repeat split.
Qed.

End Router.

(** C7 as claimed: with fires and helicopters at valid latitudes and an
    empty catalog, the router returns three matrices and never raises. *)
Definition never_raises_without_water : Prop :=
  forall (geodesic_km : Coord -> Coord -> Q) fire_coords heli_locs,
    fire_coords <> [] -> heli_locs <> [] ->
    forallb valid_point fire_coords = true ->
    forallb valid_point heli_locs = true ->
    exists d1 d2 d3,
      snd (find_optimal_water_sources geodesic_km fire_coords [] heli_locs)
      = Ok (d1, d2, d3).

(** ** Concrete runs *)

(** A stand-in for the geodesic distance on a small grid: the sum of the
    absolute differences of the coordinates. *)
Definition demo_distance (a b : Coord) : Q :=
  Qabs (fst a - fst b) + Qabs (snd a - snd b).

Lemma demo_distance_nonneg a b : 0 <= demo_distance a b.
Proof.
  unfold demo_distance.
  apply (Qplus_le_compat 0 _ 0 _); apply Qabs_nonneg.
Qed.

Definition demo_water : list Coord := [(0, 2); (1, 0); (0, -1); (0, 1); (3, 0)].
Definition demo_fires : list Coord := [(0, 0); (10, 10)].
Definition demo_helis : list Coord := [(0, 5); (5, 0); (0, 0)].

(** Three sources are at distance 1 from the first fire: they are the
    candidates, in catalog order. *)
Example nearest_3_ties :
  nearest_3 demo_distance (0, 0) demo_water
  = Ok [((1, 0), 1); ((0, -1), 1); ((0, 1), 1)].
Proof. vm_compute. reflexivity. Qed.

(** Helicopter 0 goes through the third candidate, helicopter 1 through the
    first; for helicopter 2 all three totals are equal and the first wins. *)
Example find_optimal_water_sources_run :
  find_optimal_water_sources demo_distance demo_fires demo_water demo_helis
  = ([], Ok ([[4; 3]; [4; 2]; [1; 3]],
             [[1; 18]; [1; 17]; [1; 17]],
             [[5; 15]; [5; 15]; [0; 20]])).
Proof. vm_compute. reflexivity. Qed.

(** Without fires or without helicopters there is nothing to route, and no
    distance is measured. *)
Example find_optimal_water_sources_empty :
  find_optimal_water_sources demo_distance [] demo_water demo_helis
  = ([], Ok ([], [], [])) /\
  find_optimal_water_sources demo_distance demo_fires demo_water []
  = ([], Ok ([], [], [])).
Proof. split; reflexivity. Qed.

(** A fire at latitude 89.995 with no water source: its dummy source is at
    latitude 90.005, and the first distance call raises, after the warning. *)
Example find_optimal_water_sources_near_pole :
  find_optimal_water_sources demo_distance [(89995 # 1000, 10)] [] [(37, 127)]
  = ([warning_no_water], Raised).
Proof. vm_compute. reflexivity. Qed.

Lemma find_optimal_water_sources_no_water_raises : ~ never_raises_without_water.
Proof.
  intros Hclaim.
  destruct (Hclaim demo_distance [(89995 # 1000, 10)] [(37, 127)])
    as [d1 [d2 [d3 H]]]; try discriminate; try reflexivity.
Qed.

Lemma find_optimal_water_sources_choice_witness :
  exists pre c post,
    nearest_3 demo_distance (0, 0) demo_water = Ok (pre ++ c :: post) /\
    entry [[4; 3]; [4; 2]; [1; 3]] 0 0 = Some (demo_distance (0, 5) (fst c)).
Proof.
  destruct (find_optimal_water_sources_choice demo_distance
              demo_fires demo_water demo_helis 0 (0, 0) 0 (0, 5) []
              [[4; 3]; [4; 2]; [1; 3]] [[1; 18]; [1; 17]; [1; 17]]
              [[5; 15]; [5; 15]; [0; 20]])
    as [_ [Hn [_ [pre [c [post [H1 [_ [_ [H2 _]]]]]]]]]].
  - reflexivity.
  - reflexivity.
  - vm_compute. reflexivity.
  - exists pre, c, post. split; [|assumption].
    simpl effective_water_pts in Hn, H1. rewrite Hn. now rewrite H1.
Defined.

Lemma find_optimal_water_sources_no_water_witness :
  exists d1 d2 d3,
    find_optimal_water_sources demo_distance demo_fires [] demo_helis
    = ([warning_no_water], Ok (d1, d2, d3)) /\
    shaped 3 2 d1 /\ shaped 3 2 d2 /\ shaped 3 2 d3 /\
    nonneg d1 /\ nonneg d2 /\ nonneg d3.
Proof.
  destruct (find_optimal_water_sources_no_water demo_distance demo_fires demo_helis)
    as [Hlog [_ [_ [_ [_ Hret]]]]].
  - discriminate.
  - discriminate.
  - exact demo_distance_nonneg.
  - destruct Hret as [d1 [d2 [d3 [H [S1 [S2 [S3 [N1 [N2 [N3 _]]]]]]]]]];
      [vm_compute; reflexivity|].
    exists d1, d2, d3. split.
    + destruct (find_optimal_water_sources demo_distance demo_fires [] demo_helis)
        as [log r]. simpl in Hlog, H. now subst.
    + repeat (split; [assumption|]). assumption.
Defined.

(** ** Shape of the result and routes over a short catalog *)

Section RouterFacts.
Variable geodesic_km : Coord -> Coord -> Q.

(** With at least one fire and one helicopter, and whatever the water
    catalog, the router warns exactly when the catalog is empty.  It returns
    exactly when every fire, every helicopter location and every water
    source it uses has a latitude in [[-90, 90]], and raises otherwise.  What
    it returns are three matrices with a row per helicopter and a column per
    fire, and the third leg is the distance from the fire back to the
    helicopter, which does not depend on the water source. *)
Theorem find_optimal_water_sources_shape fire_coords water_pts heli_locs :
  fire_coords <> [] -> heli_locs <> [] ->
  fst (find_optimal_water_sources geodesic_km fire_coords water_pts heli_locs)
  = match water_pts with [] => [warning_no_water] | _ :: _ => [] end /\
  (routable fire_coords water_pts heli_locs = false ->
   snd (find_optimal_water_sources geodesic_km fire_coords water_pts heli_locs) = Raised) /\
  (routable fire_coords water_pts heli_locs = true ->
   exists d1 d2 d3,
     snd (find_optimal_water_sources geodesic_km fire_coords water_pts heli_locs)
     = Ok (d1, d2, d3) /\
     shaped (length heli_locs) (length fire_coords) d1 /\
     shaped (length heli_locs) (length fire_coords) d2 /\
     shaped (length heli_locs) (length fire_coords) d3 /\
     forall h j heli_loc fire_loc,
       nth_error heli_locs h = Some heli_loc ->
       nth_error fire_coords j = Some fire_loc ->
       entry d3 h j = Some (geodesic_km fire_loc heli_loc)).
Proof.
  intros Hf Hh. rewrite (find_optimal_water_sources_eq _ _ _ _ Hf Hh). cbn [fst snd].
  split; [reflexivity|]. split; [now intros ->|]. intros ->.
  do 3 eexists. split; [reflexivity|].
  assert (Hshape : forall g : Coord -> Coord -> Q,
             shaped (length heli_locs) (length fire_coords)
               (map (fun h => map (fun f => g f h) fire_coords) heli_locs)).
  { intros g. split; [apply length_map|].
    rewrite Forall_map, Forall_forall. intros; apply length_map. }
  repeat (split; [apply Hshape|]).
  intros h j heli_loc fire_loc Hhl Hfc.
  rewrite (entry_map (leg3 geodesic_km _) _ _ _ _ _ _ Hhl Hfc).
  unfold leg3.
  destruct (best_combo_legs geodesic_km fire_loc
              (effective_water_pts fire_coords water_pts) heli_loc) as [w [_ ->]];
    [now apply effective_water_pts_nonempty | reflexivity].
Qed.

Lemma firstn_short {A : Type} (l : list A) n : (length l <= n)%nat -> firstn n l = l.
Proof.
  revert n. induction l as [|x t IH]; intros n Hn; [now destruct n|].
  destruct n as [|n]; simpl in *; [lia|]. rewrite IH by lia. reflexivity.
Qed.

(** With one, two or three water sources in the catalog, the route stored
    for a helicopter and a fire is a shortest round trip over the whole
    catalog. *)
Theorem short_catalog_route_is_shortest
    fire_coords water_pts heli_locs h j heli_loc fire_loc log d1 d2 d3 :
  water_pts <> [] -> (length water_pts <= 3)%nat ->
  nth_error heli_locs h = Some heli_loc ->
  nth_error fire_coords j = Some fire_loc ->
  find_optimal_water_sources geodesic_km fire_coords water_pts heli_locs
  = (log, Ok (d1, d2, d3)) ->
  exists l1 l2 l3,
    entry d1 h j = Some l1 /\ entry d2 h j = Some l2 /\ entry d3 h j = Some l3 /\
    forall w, In w water_pts ->
      l1 + l2 + l3
      <= geodesic_km heli_loc w + geodesic_km fire_loc w
         + geodesic_km fire_loc heli_loc.
Proof.
  intros Hw Hlen Hh Hj Hres.
  assert (Hf : fire_coords <> []) by (destruct fire_coords, j; discriminate).
  assert (Hl : heli_locs <> []) by (destruct heli_locs, h; discriminate).
  destruct (find_optimal_water_sources_returned _ _ _ _ _ _ Hf Hl Hres) as [_ Hd].
  injection Hd as -> -> ->.
  assert (Heff : effective_water_pts fire_coords water_pts = water_pts)
    by (destruct water_pts; [congruence | reflexivity]).
  rewrite Heff.
  rewrite (entry_map (leg1 geodesic_km _) _ _ _ _ _ _ Hh Hj),
    (entry_map (leg2 geodesic_km _) _ _ _ _ _ _ Hh Hj),
    (entry_map (leg3 geodesic_km _) _ _ _ _ _ _ Hh Hj).
  do 3 eexists. repeat (split; [reflexivity|]).
  intros w Hin. unfold leg1, leg2, leg3, best_combo_km.
  destruct (candidate_loop_first_min geodesic_km fire_loc heli_loc
              (nearest_3_km geodesic_km fire_loc water_pts))
    as [pre [c [post [Hc [Hpre [Hpost Hst]]]]]];
    [now apply nearest_3_nonempty|].
  rewrite Hst. cbn [snd fst legs].
  assert (Hcand : In (w, geodesic_km fire_loc w)
                     (nearest_3_km geodesic_km fire_loc water_pts)).
  { unfold nearest_3_km. rewrite firstn_short.
    - apply (Permutation_in _ (Permutation_sym (py_sorted_perm _ _))).
      unfold dist_list_km. apply in_map_iff. now exists w.
    - rewrite py_sorted_length. unfold dist_list_km. now rewrite length_map. }
  rewrite Hc in Hcand. apply in_app_or in Hcand.
  change (total_dist geodesic_km fire_loc heli_loc c
          <= total_dist geodesic_km fire_loc heli_loc
               (w, geodesic_km fire_loc w)).
  destruct Hcand as [Hin' | [<- | Hin']].
  - apply Qlt_le_weak. now apply Hpre.
  - apply Qle_refl.
  - now apply Hpost.
Qed.

End RouterFacts.

Lemma find_optimal_water_sources_shape_witness :
  exists d1 d2 d3,
    find_optimal_water_sources demo_distance demo_fires demo_water demo_helis
    = ([], Ok (d1, d2, d3)) /\
    shaped 3 2 d1 /\ shaped 3 2 d2 /\ shaped 3 2 d3.
Proof.
  destruct (find_optimal_water_sources_shape demo_distance demo_fires demo_water demo_helis)
    as [Hlog [_ Hret]].
  - discriminate.
  - discriminate.
  - destruct Hret as [d1 [d2 [d3 [H [S1 [S2 [S3 _]]]]]]]; [vm_compute; reflexivity|].
    exists d1, d2, d3. split.
    + destruct (find_optimal_water_sources demo_distance demo_fires demo_water demo_helis)
        as [log r]. simpl in Hlog, H. now subst.
    + repeat (split; [assumption|]). assumption.
Defined.

Lemma short_catalog_route_is_shortest_witness :
  exists l1 l2 l3,
    entry [[4; 4]] 0 0 = Some l1 /\ entry [[1; 19]] 0 0 = Some l2 /\
    entry [[5; 15]] 0 0 = Some l3 /\
    forall w, In w [(1, 0); (0, 1)] ->
      l1 + l2 + l3
      <= demo_distance (0, 5) w + demo_distance (0, 0) w + demo_distance (0, 0) (0, 5).
Proof.
  apply (short_catalog_route_is_shortest demo_distance demo_fires [(1, 0); (0, 1)]
           [(0, 5)] 0 0 (0, 5) (0, 0) []).
  - discriminate.
  - simpl. lia.
  - reflexivity.
  - reflexivity.
  - vm_compute. reflexivity.
Defined.

End GeoUtils.

(* ------------------------------------------------------------------ *)
(** * pyomo_optimizer.py : PyomoOptimizer                              *)
(* ------------------------------------------------------------------ *)

Module Optimizer.
Import PyList GeoUtils Py.
Local Open Scope Q_scope.

(** One row of [heli_df] (the fleet registry joined with the specs). *)
Record HeliRow : Type := mkHeliRow {
  df_model_nm : string;
  df_base : Z;
  df_speed_w1 : Q;
  df_speed_w2 : Q;
  df_efficiency : Q;
  df_load_capa : Q;
  df_time_limit : Q;
  df_supp_capa : Q
  }.

(** One helipad: [(lat, lng, name)]. *)
Definition Helipad : Type := (Q * Q * string)%type.

(** [config.get_optimization_params()], the keys the optimizer reads. *)
Record OptParams : Type := mkOptParams {
  golden_time_minutes : Q;
  fuel_rate : Q;
  big_penalty : Q
  }.

(** What the optimizer prints. *)
Inductive Message : Type :=
  | CannotInitialize          (* "Warning: Cannot initialize PyomoOptimizer ..." *)
  | InvalidBaseIndex (base_idx : Z)  (* "Warning: Invalid base index ..." *)
  | CannotBuild               (* "Cannot build optimization model: ..." *)
  | NoOptimalSolution         (* "[Pyomo] Could not find optimal solution." *)
  | ErrorSolving.             (* "Error solving model: ..." *)

(** The attributes of a [PyomoOptimizer] instance. *)
Record PyomoOptimizer : Type := mkOptimizer {
  heli_df : list HeliRow;
  helipads : list Helipad;
  opt_params : OptParams;
  speed_w1 : list Q;
  speed_w2 : list Q;
  efficiency : list Q;
  load_capa : list Q;
  time_limit : list Q;
  supp_capa : list Q;
  heli_locs : list Coord
  }.

(** [0 <= base_idx < len(self.helipads)] *)
Definition valid_base (pads : list Helipad) (base_idx : Z) : bool :=
  (0 <=? base_idx)%Z && (base_idx <? Z.of_nat (length pads))%Z.

Definition pad_coord (p : Helipad) : Coord := (fst (fst p), snd (fst p)).

(** The loop of [_init_parameters] over [self.heli_df["base"]], on the
    state [self.heli_locs]; the result carries what was printed.  The
    [return] in the [else] branch ends the loop at the first invalid index. *)
Fixpoint heli_locs_loop (pads : list Helipad) (bases : list Z) (locs : list Coord)
  : list Message * list Coord :=
  match bases with
  | [] => ([], locs)
  | base_idx :: rest =>
      if valid_base pads base_idx then
        match nth_error pads (Z.to_nat base_idx) with
        | Some p => heli_locs_loop pads rest (locs ++ [pad_coord p])
        | None => ([], locs)
        end
      else ([InvalidBaseIndex base_idx], locs)
  end.

Definition _init_parameters (self : PyomoOptimizer) : list Message * PyomoOptimizer :=
  let df := heli_df self in
  let '(log, locs) := heli_locs_loop (helipads self) (map df_base df) [] in
  (log,
   {| heli_df := df;
      helipads := helipads self;
      opt_params := opt_params self;
      speed_w1 := map df_speed_w1 df;
      speed_w2 := map df_speed_w2 df;
      efficiency := map df_efficiency df;
      load_capa := map df_load_capa df;
      time_limit := map df_time_limit df;
      supp_capa := map df_supp_capa df;
      heli_locs := locs |}).

(** [PyomoOptimizer.__init__], given the loaded tables and configuration. *)
Definition init (df : list HeliRow) (pads : list Helipad) (params : OptParams)
  : list Message * PyomoOptimizer :=
  let self := {| heli_df := df; helipads := pads; opt_params := params;
                 speed_w1 := []; speed_w2 := []; efficiency := [];
                 load_capa := []; time_limit := []; supp_capa := [];
                 heli_locs := [] |} in
  match df, pads with
  | _ :: _, _ :: _ => _init_parameters self
  | _, _ => ([CannotInitialize], self)
  end.

(** ** Routing setup stops at the first invalid base index *)

(** The helicopters in front of the first one with an invalid base. *)
Fixpoint valid_prefix (pads : list Helipad) (bases : list Z) : list Z :=
  match bases with
  | [] => []
  | b :: rest => if valid_base pads b then b :: valid_prefix pads rest else []
  end.

Definition base_coord (pads : list Helipad) (base_idx : Z) : Coord :=
  match nth_error pads (Z.to_nat base_idx) with
  | Some p => pad_coord p
  | None => (0, 0)
  end.

Lemma valid_base_nth pads b :
  valid_base pads b = true -> exists p, nth_error pads (Z.to_nat b) = Some p.
Proof.
  unfold valid_base. intros H. apply andb_true_iff in H. destruct H as [H0 H1].
  apply Z.leb_le in H0. apply Z.ltb_lt in H1.
  destruct (nth_error pads (Z.to_nat b)) as [p|] eqn:E; [eauto|].
  apply nth_error_None in E. lia.
Qed.

Lemma heli_locs_loop_spec pads bases locs :
  heli_locs_loop pads bases locs
  = (match nth_error bases (length (valid_prefix pads bases)) with
     | Some b => [InvalidBaseIndex b]
     | None => []
     end,
     locs ++ map (base_coord pads) (valid_prefix pads bases)).
Proof.
  revert locs. induction bases as [|b rest IH]; intros locs; simpl.
  - now rewrite app_nil_r.
  - destruct (valid_base pads b) eqn:Ev; simpl.
    + destruct (valid_base_nth pads b Ev) as [p Hp]. rewrite Hp.
      rewrite IH. unfold base_coord at 2. rewrite Hp.
      now rewrite <- app_assoc.
    + now rewrite app_nil_r.
Qed.

Lemma valid_prefix_length pads bases :
  (length (valid_prefix pads bases) <= length bases)%nat.
Proof.
  induction bases as [|b rest IH]; simpl; [lia|].
  destruct (valid_base pads b); simpl; lia.
Qed.

Lemma valid_prefix_firstn pads bases :
  valid_prefix pads bases = firstn (length (valid_prefix pads bases)) bases.
Proof.
  induction bases as [|b rest IH]; simpl; [reflexivity|].
  destruct (valid_base pads b); simpl; [now rewrite <- IH | reflexivity].
Qed.

Lemma valid_prefix_stop pads bases b :
  nth_error bases (length (valid_prefix pads bases)) = Some b ->
  valid_base pads b = false.
Proof.
  induction bases as [|b0 rest IH]; simpl; [discriminate|].
  destruct (valid_base pads b0) eqn:Ev; simpl.
  - exact IH.
  - intros H. now inversion H; subst.
Qed.

Lemma valid_prefix_all pads bases :
  Forall (fun b => valid_base pads b = true) (valid_prefix pads bases).
Proof.
  induction bases as [|b rest IH]; simpl; [constructor|].
  destruct (valid_base pads b) eqn:Ev; constructor; assumption.
Qed.

(** Every helicopter of the registry whose base is valid gets a routing
    location: what C3 asks of [_init_parameters]. *)
Definition skips_only_invalid (df : list HeliRow) (pads : list Helipad) : Prop :=
  forall row, In row df -> valid_base pads (df_base row) = true ->
              In (base_coord pads (df_base row)) (heli_locs (snd (init df pads (mkOptParams 0 0 0)))).

(** C3, as the code has it.  Setup never fails.  The routing locations are
    those of the helicopters in front of the first one whose base index is
    outside the helipad directory, in registry order; that helicopter is
    reported in a warning and it and all helicopters after it get no
    location.  The speed, efficiency, load, time-limit and suppression
    capacity lists are the columns of the whole registry, whatever the
    base indices, and the registry and the helipad directory are kept. *)
Theorem init_parameters_stops_at_first_invalid (self : PyomoOptimizer) :
  let bases := map df_base (heli_df self) in
  let n := length (valid_prefix (helipads self) bases) in
  let '(log, self') := _init_parameters self in
  heli_locs self' = map (base_coord (helipads self)) (firstn n bases) /\
  Forall (fun b => valid_base (helipads self) b = true) (firstn n bases) /\
  (n <= length (heli_df self))%nat /\
  heli_df self' = heli_df self /\
  helipads self' = helipads self /\
  speed_w1 self' = map df_speed_w1 (heli_df self) /\
  speed_w2 self' = map df_speed_w2 (heli_df self) /\
  efficiency self' = map df_efficiency (heli_df self) /\
  load_capa self' = map df_load_capa (heli_df self) /\
  time_limit self' = map df_time_limit (heli_df self) /\
  supp_capa self' = map df_supp_capa (heli_df self) /\
  match nth_error bases n with
  | Some b => valid_base (helipads self) b = false /\ log = [InvalidBaseIndex b]
  | None => n = length (heli_df self) /\ log = []
  end.
Proof.
  intros bases n. unfold _init_parameters. fold bases.
  rewrite heli_locs_loop_spec.
  cbn [heli_locs heli_df helipads speed_w1 speed_w2 efficiency load_capa time_limit
       supp_capa app].
  unfold n at 1 2. rewrite <- (valid_prefix_firstn (helipads self) bases). fold n.
  split; [reflexivity|]. split; [apply valid_prefix_all|].
  assert (Hn : (n <= length bases)%nat) by apply valid_prefix_length.
  unfold bases in Hn at 1. rewrite length_map in Hn.
  split; [exact Hn|]. do 8 (split; [reflexivity|]).
  destruct (nth_error bases n) as [b|] eqn:E.
  - split; [|reflexivity]. eapply valid_prefix_stop. exact E.
  - split; [|reflexivity]. apply nth_error_None in E.
    unfold bases in E at 1. rewrite length_map in E. lia.
Qed.

(** [_init_parameters] on a registry whose second helicopter has an unknown
    base: the third helicopter, whose base is valid, gets no location. *)
Definition demo_pads : list Helipad :=
  [(37 # 1, 127 # 1, "Alpha"%string); (35 # 1, 128 # 1, "Bravo"%string)].

Definition demo_row (nm : string) (b : Z) : HeliRow :=
  mkHeliRow nm b (200 # 1) (150 # 1) (1 # 1) (3000 # 1) (5 # 1) (4 # 1).

Definition demo_params : OptParams := mkOptParams (1 # 1) (2 # 1) (100000 # 1).

Example init_invalid_base_run :
  let r := init [demo_row "K1" 0; demo_row "K2" 7; demo_row "K3" 1] demo_pads demo_params in
  fst r = [InvalidBaseIndex 7] /\
  heli_locs (snd r) = [(37 # 1, 127 # 1)] /\
  length (supp_capa (snd r)) = 3%nat.
Proof. vm_compute. repeat split. Qed.

Lemma init_parameters_skips_later_helicopters :
  ~ (forall df pads, skips_only_invalid df pads).
Proof.
  intros H.
  specialize (H [demo_row "K1" 0; demo_row "K2" 7; demo_row "K3" 1] demo_pads
                (demo_row "K3" 1)).
  simpl in H. destruct H as [H | []]; [auto | reflexivity | ].
  discriminate H.
Qed.

(** ** calculate_time_matrices *)

(** [a / b] *)
Definition div (a b : Q) : Result Q :=
  if Qeq_bool b 0 then Raised else Ok (a / b).

(** [l[i]] *)
Definition index {A : Type} (l : list A) (i : nat) : Result A :=
  of_option (nth_error l i).

(** [d[h][f]] *)
Definition index2 (d : Matrix) (h f : nat) : Result Q := of_option (entry d h f).

Definition time_hf_entry (self : PyomoOptimizer) (d1 d2 d3 : Matrix) (h f : nat)
  : Result Q :=
  a <- index2 d1 h f ;; s1 <- index (speed_w1 self) h ;; t1 <- div a s1 ;;
  b <- index2 d2 h f ;; s2 <- index (speed_w2 self) h ;; t2 <- div b s2 ;;
  c <- index2 d3 h f ;; s3 <- index (speed_w1 self) h ;; t3 <- div c s3 ;;
  Ok (t1 + t2 + t3).

Definition cost_hf_entry (self : PyomoOptimizer) (time_hf_list : Matrix) (h f : nat)
  : Result Q :=
  e <- index (efficiency self) h ;; t <- index2 time_hf_list h f ;;
  Ok (fuel_rate (opt_params self) * e * t).

Definition arrival_time_hf_entry (self : PyomoOptimizer) (d1 d2 : Matrix) (h f : nat)
  : Result Q :=
  a <- index2 d1 h f ;; s1 <- index (speed_w1 self) h ;; t1 <- div a s1 ;;
  b <- index2 d2 h f ;; s2 <- index (speed_w2 self) h ;; t2 <- div b s2 ;;
  Ok (t1 + t2).

(** [[[e(h, f) for f in range(nf)] for h in range(nh)]] *)
Definition matrix_comprehension (nh nf : nat) (e : nat -> nat -> Result Q)
  : Result Matrix :=
  comprehension (fun h => comprehension (fun f => e h f) (seq 0 nf)) (seq 0 nh).

Definition calculate_time_matrices {I : Type} (self : PyomoOptimizer)
    (d1 d2 d3 : Matrix) (fire_indices : list I)
  : Result (Matrix * Matrix * Matrix) :=
  let nh := length (heli_locs self) in
  let nf := length fire_indices in
  time_hf_list <- matrix_comprehension nh nf (time_hf_entry self d1 d2 d3) ;;
  cost_hf_list <- matrix_comprehension nh nf (cost_hf_entry self time_hf_list) ;;
  arrival_time_hf_list <- matrix_comprehension nh nf (arrival_time_hf_entry self d1 d2) ;;
  Ok (time_hf_list, cost_hf_list, arrival_time_hf_list).

(** Closed forms, with [nth] defaults that are never reached in range. *)
Definition at2 (d : Matrix) (h f : nat) : Q := nth f (nth h d []) 0.
Definition at1 (l : list Q) (h : nat) : Q := nth h l 0.

Definition travel_time (self : PyomoOptimizer) (d1 d2 d3 : Matrix) (h f : nat) : Q :=
  at2 d1 h f / at1 (speed_w1 self) h + at2 d2 h f / at1 (speed_w2 self) h
  + at2 d3 h f / at1 (speed_w1 self) h.

Definition arrival_time (self : PyomoOptimizer) (d1 d2 : Matrix) (h f : nat) : Q :=
  at2 d1 h f / at1 (speed_w1 self) h + at2 d2 h f / at1 (speed_w2 self) h.

Definition fuel_cost (self : PyomoOptimizer) (d1 d2 d3 : Matrix) (h f : nat) : Q :=
  fuel_rate (opt_params self) * at1 (efficiency self) h * travel_time self d1 d2 d3 h f.

Definition table (nh nf : nat) (g : nat -> nat -> Q) : Matrix :=
  map (fun h => map (fun f => g h f) (seq 0 nf)) (seq 0 nh).

Lemma entry_shaped nh nf d h f :
  shaped nh nf d -> (h < nh)%nat -> (f < nf)%nat -> entry d h f = Some (at2 d h f).
Proof.
  intros [Hl Hr] Hh Hf. unfold entry, at2.
  rewrite (nth_error_nth' d []) by lia.
  apply nth_error_nth'. rewrite Forall_forall in Hr.
  rewrite (Hr (nth h d [])); [assumption|]. apply nth_In. lia.
Qed.

Lemma index_at1 (l : list Q) h : (h < length l)%nat -> index l h = Ok (at1 l h).
Proof. intros H. unfold index, at1. now rewrite (nth_error_nth' l 0 H). Qed.

Lemma div_nonzero a b : ~ b == 0 -> div a b = Ok (a / b).
Proof.
  intros H. unfold div. destruct (Qeq_bool b 0) eqn:E; [|reflexivity].
  apply Qeq_bool_iff in E. contradiction.
Qed.

Lemma at1_nonzero (l : list Q) h :
  Forall (fun s => ~ s == 0) l -> (h < length l)%nat -> ~ at1 l h == 0.
Proof.
  intros Hall Hh. rewrite Forall_forall in Hall. apply Hall. now apply nth_In.
Qed.


Lemma table_entry nh nf g h f :
  (h < nh)%nat -> (f < nf)%nat -> entry (table nh nf g) h f = Some (g h f).
Proof.
  intros Hh Hf. unfold entry, table.
  rewrite (map_nth_error _ h (seq 0 nh) (d := h)).
  - rewrite (map_nth_error _ f (seq 0 nf) (d := f)); [reflexivity|].
    rewrite nth_error_nth' with (d := 0%nat) by (now rewrite length_seq).
    now rewrite seq_nth.
  - rewrite nth_error_nth' with (d := 0%nat) by (now rewrite length_seq).
    now rewrite seq_nth.
Qed.

Lemma matrix_comprehension_ok nh nf e g :
  (forall h f, (h < nh)%nat -> (f < nf)%nat -> e h f = Ok (g h f)) ->
  matrix_comprehension nh nf e = Ok (table nh nf g).
Proof.
  intros H. unfold matrix_comprehension, table.
  apply comprehension_ok. intros h Hh. apply in_seq in Hh.
  apply comprehension_ok. intros f Hf. apply in_seq in Hf.
  apply H; lia.
Qed.

(** The inputs [calculate_time_matrices] is called with: one row per routed
    helicopter and one column per fire, a speed for every routed helicopter,
    no speed equal to zero. *)
Record time_inputs_ok (self : PyomoOptimizer) (d1 d2 d3 : Matrix) (nf : nat) : Prop := {
  ok_d1 : shaped (length (heli_locs self)) nf d1;
  ok_d2 : shaped (length (heli_locs self)) nf d2;
  ok_d3 : shaped (length (heli_locs self)) nf d3;
  ok_w1 : (length (heli_locs self) <= length (speed_w1 self))%nat;
  ok_w2 : (length (heli_locs self) <= length (speed_w2 self))%nat;
  ok_eff : (length (heli_locs self) <= length (efficiency self))%nat;
  ok_nz1 : Forall (fun s => ~ s == 0) (speed_w1 self);
  ok_nz2 : Forall (fun s => ~ s == 0) (speed_w2 self)
  }.

Lemma calculate_time_matrices_eq {I : Type} self d1 d2 d3 (fire_indices : list I) :
  time_inputs_ok self d1 d2 d3 (length fire_indices) ->
  calculate_time_matrices self d1 d2 d3 fire_indices
  = Ok (table (length (heli_locs self)) (length fire_indices) (travel_time self d1 d2 d3),
        table (length (heli_locs self)) (length fire_indices) (fuel_cost self d1 d2 d3),
        table (length (heli_locs self)) (length fire_indices) (arrival_time self d1 d2)).
Proof.
  intros [H1 H2 H3 Hw1 Hw2 He Hz1 Hz2]. unfold calculate_time_matrices.
  rewrite (matrix_comprehension_ok _ _ _ (travel_time self d1 d2 d3)).
  2:{ intros h f Hh Hf. unfold time_hf_entry, index2.
      rewrite (entry_shaped _ _ _ _ _ H1 Hh Hf), (entry_shaped _ _ _ _ _ H2 Hh Hf),
        (entry_shaped _ _ _ _ _ H3 Hh Hf).
      rewrite !index_at1 by lia. simpl.
      rewrite !div_nonzero by (apply at1_nonzero; [assumption | lia]).
      reflexivity. }
  cbn [bind].
  rewrite (matrix_comprehension_ok _ _ _ (fuel_cost self d1 d2 d3)).
  2:{ intros h f Hh Hf. unfold cost_hf_entry, index2.
      rewrite index_at1 by lia. rewrite (table_entry _ _ _ _ _ Hh Hf). reflexivity. }
  cbn [bind].
  rewrite (matrix_comprehension_ok _ _ _ (arrival_time self d1 d2)).
  2:{ intros h f Hh Hf. unfold arrival_time_hf_entry, index2.
      rewrite (entry_shaped _ _ _ _ _ H1 Hh Hf), (entry_shaped _ _ _ _ _ H2 Hh Hf).
      rewrite !index_at1 by lia. simpl.
      rewrite !div_nonzero by (apply at1_nonzero; [assumption | lia]).
      reflexivity. }
  reflexivity.
Qed.

(** C9.  On well-shaped inputs [calculate_time_matrices] returns, and for
    every routed helicopter [h] and fire [f] of the group
    [time[h][f] = d1[h][f]/speed_w1[h] + d2[h][f]/speed_w2[h] + d3[h][f]/speed_w1[h]],
    [arrival[h][f] = d1[h][f]/speed_w1[h] + d2[h][f]/speed_w2[h]] and
    [cost[h][f] = fuel_rate * efficiency[h] * time[h][f]]. *)
Theorem calculate_time_matrices_formulas {I : Type}
    self d1 d2 d3 (fire_indices : list I) :
  time_inputs_ok self d1 d2 d3 (length fire_indices) ->
  exists time_hf cost_hf arrival_time_hf,
    calculate_time_matrices self d1 d2 d3 fire_indices
    = Ok (time_hf, cost_hf, arrival_time_hf) /\
    forall h f, (h < length (heli_locs self))%nat -> (f < length fire_indices)%nat ->
      exists leg1 leg2 leg3 speedToWater speedLoaded eff travelTime,
        entry d1 h f = Some leg1 /\ entry d2 h f = Some leg2 /\
        entry d3 h f = Some leg3 /\
        nth_error (speed_w1 self) h = Some speedToWater /\
        nth_error (speed_w2 self) h = Some speedLoaded /\
        nth_error (efficiency self) h = Some eff /\
        travelTime = leg1 / speedToWater + leg2 / speedLoaded + leg3 / speedToWater /\
        entry time_hf h f = Some travelTime /\
        entry arrival_time_hf h f = Some (leg1 / speedToWater + leg2 / speedLoaded) /\
        entry cost_hf h f = Some (fuel_rate (opt_params self) * eff * travelTime).
Proof.
  intros Hok. rewrite (calculate_time_matrices_eq _ _ _ _ _ Hok).
  do 3 eexists. split; [reflexivity|]. intros h f Hh Hf.
  destruct Hok as [H1 H2 H3 Hw1 Hw2 He _ _].
  exists (at2 d1 h f), (at2 d2 h f), (at2 d3 h f),
    (at1 (speed_w1 self) h), (at1 (speed_w2 self) h), (at1 (efficiency self) h).
  eexists. rewrite !table_entry by assumption.
  repeat split; try (eapply entry_shaped; eassumption);
    try (apply nth_error_nth'; lia).
Qed.

(** ** The optimization model *)

(** [var.value] of every decision variable; [None] before a solve. *)
Record Values : Type := mkValues {
  Assign : nat -> nat -> option Q;
  FireOn : nat -> option Q;
  AssignFire : nat -> nat -> option Q
  }.

Definition no_values : Values :=
  mkValues (fun _ _ => None) (fun _ => None) (fun _ _ => None).

(** The constraint expressions the rules return. *)
Inductive ConstraintExpr : Type :=
  | AssignEqZero (h f : nat)          (* Assign[h,f] == 0 *)
  | AssignFireLeAssign (h f : nat)    (* AssignFire[h,f] <= Assign[h,f] *)
  | AssignFireLeFireOn (h f : nat)    (* AssignFire[h,f] <= FireOn[f] *)
  | AssignFireGeSum (h f : nat)       (* AssignFire[h,f] >= Assign[h,f] + FireOn[f] - 1 *)
  | SuppressionCovers (f : nat)       (* difficulties[f] * FireOn[f] <= sum ... *)
  | AtMostOneFire (h : nat).          (* sum(Assign[h,f] for f in F) <= 1 *)

(** What a rule returns: an expression or [Constraint.Skip]. *)
Inductive RuleResult : Type :=
  | Skip
  | Expr (c : ConstraintExpr).

Record ConcreteModel : Type := mkModel {
  H : list nat;
  F : list nat;
  time_hf : Matrix;
  cost_hf : Matrix;
  arrival_time_hf : Matrix;
  difficulties : list Q;
  SUPP_CAPA : list Q;
  TIME_LIMIT : list Q;
  AssignFire_ub1 : list ConstraintExpr;
  AssignFire_ub2 : list ConstraintExpr;
  AssignFire_lb : list ConstraintExpr;
  golden_time_constraint : list ConstraintExpr;
  time_limit_constraint : list ConstraintExpr;
  suppression_constraint : list ConstraintExpr;
  one_assignment_constraint : list ConstraintExpr;
  vars : Values
  }.

Definition golden_time_rule (self : PyomoOptimizer) (arrival : Matrix) (h f : nat)
  : Result RuleResult :=
  a <- index2 arrival h f ;;
  Ok (if Qlt_bool (golden_time_minutes (opt_params self)) a
      then Expr (AssignEqZero h f) else Skip).

Definition time_limit_rule (time : Matrix) (limits : list Q) (h f : nat)
  : Result RuleResult :=
  t <- index2 time h f ;; lim <- index limits h ;;
  Ok (if Qlt_bool lim t then Expr (AssignEqZero h f) else Skip).

Definition suppression_rule (f : nat) : Result RuleResult :=
  Ok (Expr (SuppressionCovers f)).

Definition one_assignment_rule (h : nat) : Result RuleResult :=
  Ok (Expr (AtMostOneFire h)).

Definition assignfire_upper_bound1 (h f : nat) : Result RuleResult :=
  Ok (Expr (AssignFireLeAssign h f)).

Definition assignfire_upper_bound2 (h f : nat) : Result RuleResult :=
  Ok (Expr (AssignFireLeFireOn h f)).

Definition assignfire_lower_bound (h f : nat) : Result RuleResult :=
  Ok (Expr (AssignFireGeSum h f)).

Definition kept (rs : list RuleResult) : list ConstraintExpr :=
  flat_map (fun r => match r with Skip => [] | Expr c => [c] end) rs.

(** [Constraint(model.H, model.F, rule=...)] *)
Definition Constraint2 (Hs Fs : list nat) (rule : nat -> nat -> Result RuleResult)
  : Result (list ConstraintExpr) :=
  rs <- comprehension (fun hf => rule (fst hf) (snd hf)) (list_prod Hs Fs) ;;
  Ok (kept rs).

(** [Constraint(model.H, rule=...)] and [Constraint(model.F, rule=...)] *)
Definition Constraint1 (Is : list nat) (rule : nat -> Result RuleResult)
  : Result (list ConstraintExpr) :=
  rs <- comprehension rule Is ;; Ok (kept rs).

(** The value of a variable inside a linear expression. *)
Definition val (o : option Q) : Q :=
  match o with
  | Some x => x
  | None => 0
  end.

Definition Qsum (l : list Q) : Q := fold_right Qplus 0 l.

(** When a valuation satisfies a constraint of model [m]. *)
Definition holds (m : ConcreteModel) (v : Values) (c : ConstraintExpr) : Prop :=
  match c with
  | AssignEqZero h f => exists x, Assign v h f = Some x /\ x == 0
  | AssignFireLeAssign h f => val (AssignFire v h f) <= val (Assign v h f)
  | AssignFireLeFireOn h f => val (AssignFire v h f) <= val (FireOn v f)
  | AssignFireGeSum h f =>
      val (Assign v h f) + val (FireOn v f) - 1 <= val (AssignFire v h f)
  | SuppressionCovers f =>
      at1 (difficulties m) f * val (FireOn v f)
      <= Qsum (map (fun h => at1 (SUPP_CAPA m) h * val (Assign v h f)) (H m))
  | AtMostOneFire h => Qsum (map (fun f => val (Assign v h f)) (F m)) <= 1
  end.

Definition constraints (m : ConcreteModel) : list ConstraintExpr :=
  AssignFire_ub1 m ++ AssignFire_ub2 m ++ AssignFire_lb m ++
  golden_time_constraint m ++ time_limit_constraint m ++
  suppression_constraint m ++ one_assignment_constraint m.

Definition satisfies (m : ConcreteModel) (v : Values) : Prop :=
  Forall (holds m v) (constraints m).

(** [objective_rule], on a valuation. *)
Definition objective_rule (self : PyomoOptimizer) (m : ConcreteModel) (v : Values) : Q :=
  Qsum (map (fun hf => at2 (cost_hf m) (fst hf) (snd hf) * val (AssignFire v (fst hf) (snd hf)))
            (list_prod (H m) (F m)))
  + Qsum (map (fun f => big_penalty (opt_params self) * (1 - val (FireOn v f))) (F m)).

Definition is_empty {A : Type} (l : list A) : bool :=
  match l with
  | [] => true
  | _ :: _ => false
  end.

(** [build_model] up to the solver call: sets, parameters, constraints. *)
Definition assemble_model {I : Type} (self : PyomoOptimizer) (fire_indices : list I)
    (difficulties_in : list Q) (d1 d2 d3 : Matrix) : Result ConcreteModel :=
  let Hs := seq 0 (length (heli_locs self)) in
  let Fs := seq 0 (length fire_indices) in
  tca <- calculate_time_matrices self d1 d2 d3 fire_indices ;;
  let '(time_hf_list, cost_hf_list, arrival_time_hf_list) := tca in
  diffs <- comprehension (index difficulties_in) Fs ;;
  supp <- comprehension (index (supp_capa self)) Hs ;;
  limits <- comprehension (index (time_limit self)) Hs ;;
  ub1 <- Constraint2 Hs Fs assignfire_upper_bound1 ;;
  ub2 <- Constraint2 Hs Fs assignfire_upper_bound2 ;;
  lb <- Constraint2 Hs Fs assignfire_lower_bound ;;
  golden <- Constraint2 Hs Fs (golden_time_rule self arrival_time_hf_list) ;;
  tlimit <- Constraint2 Hs Fs (time_limit_rule time_hf_list limits) ;;
  supc <- Constraint1 Fs suppression_rule ;;
  one <- Constraint1 Hs one_assignment_rule ;;
  Ok {| H := Hs; F := Fs;
        time_hf := time_hf_list; cost_hf := cost_hf_list;
        arrival_time_hf := arrival_time_hf_list;
        difficulties := diffs; SUPP_CAPA := supp; TIME_LIMIT := limits;
        AssignFire_ub1 := ub1; AssignFire_ub2 := ub2; AssignFire_lb := lb;
        golden_time_constraint := golden; time_limit_constraint := tlimit;
        suppression_constraint := supc; one_assignment_constraint := one;
        vars := no_values |}.

Inductive TerminationCondition : Type :=
  | optimal | infeasible | unbounded | maxTimeLimit | otherCondition.

(** What [solver.solve(model)] does: raise, or return a result and load the
    variable values into the model. *)
Inductive SolverOutcome : Type :=
  | SolverRaised
  | SolverReturned (termination_condition : TerminationCondition) (v : Values).

Definition set_vars (m : ConcreteModel) (v : Values) : ConcreteModel :=
  {| H := H m; F := F m; time_hf := time_hf m; cost_hf := cost_hf m;
     arrival_time_hf := arrival_time_hf m; difficulties := difficulties m;
     SUPP_CAPA := SUPP_CAPA m; TIME_LIMIT := TIME_LIMIT m;
     AssignFire_ub1 := AssignFire_ub1 m; AssignFire_ub2 := AssignFire_ub2 m;
     AssignFire_lb := AssignFire_lb m;
     golden_time_constraint := golden_time_constraint m;
     time_limit_constraint := time_limit_constraint m;
     suppression_constraint := suppression_constraint m;
     one_assignment_constraint := one_assignment_constraint m;
     vars := v |}.

Section Solver.
(** The MILP solver selected by the configuration. *)
Variable solve : ConcreteModel -> SolverOutcome.

Definition build_model {I : Type} (self : PyomoOptimizer) (fire_indices : list I)
    (difficulties_in : list Q) (d1 d2 d3 : Matrix)
  : Result (list Message * option (ConcreteModel * Matrix * Matrix)) :=
  if is_empty fire_indices || is_empty (heli_df self) || is_empty (heli_locs self)
  then Ok ([CannotBuild], None)
  else
    model <- assemble_model self fire_indices difficulties_in d1 d2 d3 ;;
    match solve model with
    | SolverRaised => Ok ([ErrorSolving], None)
    | SolverReturned optimal v =>
        Ok ([], Some (set_vars model v, cost_hf model, time_hf model))
    | SolverReturned _ _ => Ok ([NoOptimalSolution], None)
    end.

End Solver.

(** ** What a built model contains *)

Lemma Forall2_in_left {A B : Type} (R : A -> B -> Prop) l ys x :
  Forall2 R l ys -> In x l -> exists y, In y ys /\ R x y.
Proof.
  induction 1 as [|a b l' ys' Hab _ IH]; intros Hin; [destruct Hin|].
  destruct Hin as [<- | Hin].
  - exists b. split; [now left | assumption].
  - destruct (IH Hin) as [y [Hy Hr]]. exists y. split; [now right | assumption].
Qed.

Lemma kept_in rs c : In (Expr c) rs -> In c (kept rs).
Proof.
  intros Hin. unfold kept. apply in_flat_map. exists (Expr c). split; [assumption | now left].
Qed.

Lemma Constraint2_inv Hs Fs rule cs h f :
  Constraint2 Hs Fs rule = Ok cs -> In h Hs -> In f Fs ->
  exists r, rule h f = Ok r /\ forall c, r = Expr c -> In c cs.
Proof.
  unfold Constraint2. intros Hc Hh Hf.
  destruct (comprehension _ (list_prod Hs Fs)) as [rs|] eqn:E; [|discriminate].
  simpl in Hc. inversion Hc; subst. apply comprehension_inv in E.
  destruct (Forall2_in_left _ _ _ (h, f) E) as [r [Hr Hrule]].
  { now apply in_prod. }
  exists r. split; [exact Hrule|]. intros c ->. now apply kept_in.
Qed.

Lemma comprehension_index {A : Type} (l : list A) n : forall s ys,
  comprehension (index l) (seq s n) = Ok ys ->
  forall i, (i < n)%nat -> nth_error ys i = nth_error l (s + i) /\ nth_error ys i <> None.
Proof.
  induction n as [|n IH]; intros s ys Hc i Hi; [lia|].
  simpl in Hc. unfold index at 1 in Hc.
  destruct (nth_error l s) as [a|] eqn:Ea; [|discriminate]. simpl in Hc.
  destruct (comprehension (index l) (seq (S s) n)) as [ys'|] eqn:E; [|discriminate].
  simpl in Hc. inversion Hc; subst.
  destruct i as [|i]; simpl.
  - rewrite Nat.add_0_r, Ea. split; [reflexivity | discriminate].
  - replace (s + S i)%nat with (S s + i)%nat by lia. apply (IH _ _ E). lia.
Qed.

(** Splitting a successful sequence of calls. *)
Tactic Notation "bind_inv" hyp(Hyp) ident(x) ident(Ex) :=
  match type of Hyp with
  | bind ?e _ = Ok _ =>
      destruct e as [x|] eqn:Ex; [cbn [bind] in Hyp | discriminate Hyp]
  end.

Record assembled {I : Type} (self : PyomoOptimizer) (fire_indices : list I)
       (d1 d2 d3 : Matrix) (m : ConcreteModel) : Prop := {
  asm_H : H m = seq 0 (length (heli_locs self));
  asm_F : F m = seq 0 (length fire_indices);
  asm_times :
    calculate_time_matrices self d1 d2 d3 fire_indices
    = Ok (time_hf m, cost_hf m, arrival_time_hf m);
  asm_limits :
    comprehension (index (time_limit self)) (seq 0 (length (heli_locs self)))
    = Ok (TIME_LIMIT m);
  asm_golden :
    Constraint2 (H m) (F m) (golden_time_rule self (arrival_time_hf m))
    = Ok (golden_time_constraint m);
  asm_tlimit :
    Constraint2 (H m) (F m) (time_limit_rule (time_hf m) (TIME_LIMIT m))
    = Ok (time_limit_constraint m)
  }.

Lemma assemble_model_inv {I : Type} self (fire_indices : list I) diffs d1 d2 d3 m :
  assemble_model self fire_indices diffs d1 d2 d3 = Ok m ->
  assembled self fire_indices d1 d2 d3 m.
Proof.
  unfold assemble_model. intros Hm.
  bind_inv Hm tca Etca. destruct tca as [[tm cs] ar].
  bind_inv Hm dl Edl. bind_inv Hm sp Esp. bind_inv Hm lm Elm.
  bind_inv Hm u1 Eu1. bind_inv Hm u2 Eu2. bind_inv Hm lb Elb.
  bind_inv Hm gd Egd. bind_inv Hm tl Etl. bind_inv Hm sc Esc. bind_inv Hm on Eon.
  inversion Hm; subst. split; simpl; auto.
Qed.

Lemma set_vars_assembled {I : Type} self (fire_indices : list I) d1 d2 d3 m v :
  assembled self fire_indices d1 d2 d3 m ->
  assembled self fire_indices d1 d2 d3 (set_vars m v).
Proof. intros [? ? ? ? ? ?]. split; simpl; assumption. Qed.

Section BuiltModel.
Variable solve : ConcreteModel -> SolverOutcome.

Lemma build_model_inv {I : Type} self (fire_indices : list I) diffs d1 d2 d3
      log model cost time :
  build_model solve self fire_indices diffs d1 d2 d3 = Ok (log, Some (model, cost, time)) ->
  exists m0 v,
    assemble_model self fire_indices diffs d1 d2 d3 = Ok m0 /\
    solve m0 = SolverReturned optimal v /\
    model = set_vars m0 v /\ cost = cost_hf m0 /\ time = time_hf m0 /\
    fire_indices <> [] /\ heli_locs self <> [].
Proof.
  unfold build_model. intros Hb.
  destruct fire_indices as [|i0 irest]; [discriminate|].
  destruct (heli_df self) as [|r0 rs]; [discriminate|].
  destruct (heli_locs self) as [|l0 ls] eqn:El; [discriminate|].
  cbn [is_empty orb] in Hb. rewrite <- El in *.
  bind_inv Hb m0 Em0.
  destruct (solve m0) as [|tc v] eqn:Es; [discriminate|].
  destruct tc; try discriminate. inversion Hb; subst.
  exists m0, v. repeat split; try reflexivity; try assumption; try discriminate.
  rewrite El. discriminate.
Qed.

(** C5.  In a model that [build_model] returns, for every routed helicopter
    [h] and fire [f] of the group: an arrival time above
    [golden_time_minutes] puts [Assign[h,f] == 0] among the golden-time
    constraints, a travel time above the helicopter's time limit puts it
    among the time-limit constraints; so whenever a valuation satisfies the
    model's constraints and has [Assign[h,f] = 1], the arrival time is at
    most [golden_time_minutes] and the travel time at most the limit. *)
Theorem hard_cutoffs_enforced {I : Type} self (fire_indices : list I) diffs d1 d2 d3
      log model cost time h f :
  build_model solve self fire_indices diffs d1 d2 d3 = Ok (log, Some (model, cost, time)) ->
  (h < length (heli_locs self))%nat -> (f < length fire_indices)%nat ->
  exists arrivalTime travelTime endurance,
    calculate_time_matrices self d1 d2 d3 fire_indices
    = Ok (time_hf model, cost_hf model, arrival_time_hf model) /\
    entry (arrival_time_hf model) h f = Some arrivalTime /\
    entry (time_hf model) h f = Some travelTime /\
    nth_error (time_limit self) h = Some endurance /\
    nth_error (TIME_LIMIT model) h = Some endurance /\
    (golden_time_minutes (opt_params self) < arrivalTime ->
     In (AssignEqZero h f) (golden_time_constraint model)) /\
    (endurance < travelTime -> In (AssignEqZero h f) (time_limit_constraint model)) /\
    (forall v, satisfies model v ->
               forall x, Assign v h f = Some x -> x == 1 ->
                         arrivalTime <= golden_time_minutes (opt_params self) /\
                         travelTime <= endurance).
Proof.
  intros Hb Hh Hf.
  destruct (build_model_inv _ _ _ _ _ _ _ _ _ _ Hb) as [m0 [v0 [Hm0 [_ [-> _]]]]].
  pose proof (set_vars_assembled _ _ _ _ _ _ v0 (assemble_model_inv _ _ _ _ _ _ _ Hm0))
    as [HH HF Htimes Hlim Hgold Htl].
  set (model := set_vars m0 v0) in *.
  assert (HhH : In h (H model)) by (rewrite HH; apply in_seq; lia).
  assert (HfF : In f (F model)) by (rewrite HF; apply in_seq; lia).
  destruct (Constraint2_inv _ _ _ _ h f Hgold HhH HfF) as [rg [Hrg Hing]].
  destruct (Constraint2_inv _ _ _ _ h f Htl HhH HfF) as [rt [Hrt Hint]].
  unfold golden_time_rule, index2 in Hrg.
  destruct (entry (arrival_time_hf model) h f) as [a|] eqn:Ea; [|discriminate].
  unfold time_limit_rule, index2, index in Hrt.
  destruct (entry (time_hf model) h f) as [t|] eqn:Et; [|discriminate].
  destruct (nth_error (TIME_LIMIT model) h) as [lim|] eqn:El; [|discriminate].
  simpl in Hrg, Hrt. inversion Hrg as [Hrg']. inversion Hrt as [Hrt'].
  destruct (comprehension_index _ _ _ _ Hlim h Hh) as [Hlim' _]. simpl in Hlim'.
  assert (Hcg : golden_time_minutes (opt_params self) < a ->
                In (AssignEqZero h f) (golden_time_constraint model)).
  { intros Hlt. apply Hing. rewrite <- Hrg'. apply Qlt_bool_iff in Hlt. now rewrite Hlt. }
  assert (Hct : lim < t -> In (AssignEqZero h f) (time_limit_constraint model)).
  { intros Hlt. apply Hint. rewrite <- Hrt'. apply Qlt_bool_iff in Hlt. now rewrite Hlt. }
  assert (Hzero : forall v x, satisfies model v -> Assign v h f = Some x -> x == 1 ->
                         ~ In (AssignEqZero h f) (constraints model)).
  { intros v x Hsat Hx Hone Hin. unfold satisfies in Hsat.
    rewrite Forall_forall in Hsat.
    destruct (Hsat _ Hin) as [x' [Hx' Hz]]. rewrite Hx in Hx'. inversion Hx'; subst.
    rewrite Hz in Hone. discriminate Hone. }
  exists a, t, lim.
  split; [exact Htimes|]. split; [reflexivity|]. split; [reflexivity|].
  split; [now rewrite <- Hlim'|]. split; [reflexivity|].
  split; [exact Hcg|]. split; [exact Hct|].
  intros v Hsat x Hx Hone. split; apply Qnot_lt_le; intros Hlt;
    apply (Hzero v x Hsat Hx Hone); unfold constraints; rewrite !in_app_iff; auto 10.
Qed.

End BuiltModel.

(** ** parse_solution *)

(** One row of the optimized report.  A placeholder row has only
    ["Fire Index"] and ["Heli Model"] (the marker for an unaddressed fire). *)
Inductive ReportRow : Type :=
  | AssignmentRow (fire_index hel_index : nat) (heli_model heli_base : string)
                (dist1 dist2 dist3 travel_time fuel_cost : Q)
  | PlaceholderRow (fire_index : nat).

Definition row_fire_index (r : ReportRow) : nat :=
  match r with
  | AssignmentRow fire_index _ _ _ _ _ _ _ _ => fire_index
  | PlaceholderRow fire_index => fire_index
  end.

Definition is_assignment (r : ReportRow) : bool :=
  match r with
  | AssignmentRow _ _ _ _ _ _ _ _ _ => true
  | PlaceholderRow _ => false
  end.

(** Key of [sort_values(by="Fire Index")].  pandas does not fix the order of
    rows with equal keys; the statements below only use membership and
    counts. *)
Definition by_fire_index (a b : ReportRow) : bool :=
  (row_fire_index a <=? row_fire_index b)%nat.

Section Parse.
(** [round(x, 2)] *)
Variable round2 : Q -> Q.

Definition base_name (self : PyomoOptimizer) (base_idx : Z) : string :=
  if valid_base (helipads self) base_idx then
    match nth_error (helipads self) (Z.to_nat base_idx) with
    | Some p => snd p
    | None => "UnknownBase"
    end
  else "UnknownBase".

(** The body of the double loop of [parse_solution] for one pair [(h, f)]:
    the rows it appends to [results]. *)
Definition parse_pair (self : PyomoOptimizer) (model : ConcreteModel)
    (cost time d1 d2 d3 : Matrix) (offset_index : nat) (hf : nat * nat)
  : Result (list ReportRow) :=
  let '(h, f) := hf in
  match Assign (vars model) h f with
  | None => Ok []
  | Some value =>
      if Qlt_bool (1 # 2) value then
        dist1 <- index2 d1 h f ;; dist2 <- index2 d2 h f ;; dist3 <- index2 d3 h f ;;
        t <- index2 time h f ;; c <- index2 cost h f ;;
        row <- index (heli_df self) h ;;
        Ok [AssignmentRow (offset_index + f) (h + 1)
              (df_model_nm row) (base_name self (df_base row))
              (round2 dist1) (round2 dist2) (round2 dist3) (round2 t) (round2 c)]
      else Ok []
  end.

Definition parse_solution (self : PyomoOptimizer) (model : option ConcreteModel)
    (cost time d1 d2 d3 : Matrix) (offset_index : nat) : Result (list ReportRow) :=
  match model with
  | None => Ok []
  | Some m =>
      per_pair <- comprehension (parse_pair self m cost time d1 d2 d3 offset_index)
                    (list_prod (H m) (F m)) ;;
      Ok (py_sorted by_fire_index (concat per_pair))
  end.

End Parse.

(** ** When building and parsing cannot raise *)

Lemma comprehension_total {A B : Type} (f : A -> Result B) l :
  (forall x, In x l -> exists y, f x = Ok y) -> exists ys, comprehension f l = Ok ys.
Proof.
  induction l as [|x t IH]; intros Hall; simpl.
  - now exists [].
  - destruct (Hall x (or_introl eq_refl)) as [y Hy]. rewrite Hy.
    destruct IH as [ys Hys]; [intros; apply Hall; now right|].
    rewrite Hys. simpl. eauto.
Qed.

Lemma comprehension_index_total {A : Type} (l : list A) n :
  (n <= length l)%nat -> exists ys, comprehension (index l) (seq 0 n) = Ok ys.
Proof.
  intros Hn. apply comprehension_total. intros i Hi. apply in_seq in Hi.
  unfold index. destruct (nth_error l i) as [a|] eqn:E; [simpl; now exists a|].
  apply nth_error_None in E. lia.
Qed.

Lemma Constraint2_total Hs Fs rule :
  (forall h f, In h Hs -> In f Fs -> exists r, rule h f = Ok r) ->
  exists cs, Constraint2 Hs Fs rule = Ok cs.
Proof.
  intros Hall. unfold Constraint2.
  destruct (comprehension_total (fun hf => rule (fst hf) (snd hf)) (list_prod Hs Fs))
    as [rs Hrs].
  { intros [h f] Hin. apply in_prod_iff in Hin. simpl. now apply Hall. }
  rewrite Hrs. simpl. eauto.
Qed.

Lemma Constraint1_total Is rule :
  (forall i, In i Is -> exists r, rule i = Ok r) -> exists cs, Constraint1 Is rule = Ok cs.
Proof.
  intros Hall. unfold Constraint1.
  destruct (comprehension_total rule Is Hall) as [rs Hrs]. rewrite Hrs. simpl. eauto.
Qed.

(** An optimizer whose parameter lists cover the routed helicopters and
    whose speeds are not zero, as [_init_parameters] leaves it on a registry
    without zero speeds. *)
Record optimizer_ok (self : PyomoOptimizer) : Prop := {
  opt_df : (length (heli_locs self) <= length (heli_df self))%nat;
  opt_w1 : (length (heli_locs self) <= length (speed_w1 self))%nat;
  opt_w2 : (length (heli_locs self) <= length (speed_w2 self))%nat;
  opt_eff : (length (heli_locs self) <= length (efficiency self))%nat;
  opt_lim : (length (heli_locs self) <= length (time_limit self))%nat;
  opt_sup : (length (heli_locs self) <= length (supp_capa self))%nat;
  opt_nz1 : Forall (fun s => ~ s == 0) (speed_w1 self);
  opt_nz2 : Forall (fun s => ~ s == 0) (speed_w2 self)
  }.

Lemma init_parameters_optimizer_ok self :
  Forall (fun row => ~ df_speed_w1 row == 0 /\ ~ df_speed_w2 row == 0) (heli_df self) ->
  optimizer_ok (snd (_init_parameters self)).
Proof.
  intros Hnz. unfold _init_parameters. rewrite heli_locs_loop_spec.
  assert (Hn : (length (valid_prefix (helipads self) (map df_base (heli_df self)))
                <= length (heli_df self))%nat).
  { pose proof (valid_prefix_length (helipads self) (map df_base (heli_df self))) as Hv.
    now rewrite length_map in Hv. }
  split; cbn [snd heli_locs heli_df speed_w1 speed_w2 efficiency time_limit supp_capa app];
    rewrite ?length_map; try exact Hn.
  - rewrite Forall_map. eapply Forall_impl; [|exact Hnz]. simpl. tauto.
  - rewrite Forall_map. eapply Forall_impl; [|exact Hnz]. simpl. tauto.
Qed.

Lemma init_optimizer_ok df pads params :
  Forall (fun row => ~ df_speed_w1 row == 0 /\ ~ df_speed_w2 row == 0) df ->
  optimizer_ok (snd (init df pads params)).
Proof.
  intros Hnz. unfold init.
  destruct df as [|r0 rs]; [split; simpl; auto|].
  destruct pads as [|p0 ps]; [split; simpl; auto; lia|].
  now apply init_parameters_optimizer_ok.
Qed.


Lemma assemble_model_total {I : Type} self (fire_indices : list I) diffs d1 d2 d3 :
  optimizer_ok self ->
  time_inputs_ok self d1 d2 d3 (length fire_indices) ->
  (length fire_indices <= length diffs)%nat ->
  exists m, assemble_model self fire_indices diffs d1 d2 d3 = Ok m.
Proof.
  intros Hopt Hok Hd. unfold assemble_model.
  rewrite (calculate_time_matrices_eq _ _ _ _ _ Hok). cbn [bind].
  destruct (comprehension_index_total diffs _ Hd) as [dl ->]. cbn [bind].
  destruct (comprehension_index_total (supp_capa self) _ (opt_sup _ Hopt)) as [sp ->].
  cbn [bind].
  destruct (comprehension_index_total (time_limit self) _ (opt_lim _ Hopt)) as [lm Hlm].
  rewrite Hlm. cbn [bind].
  destruct (Constraint2_total (seq 0 (length (heli_locs self)))
              (seq 0 (length fire_indices)) assignfire_upper_bound1) as [u1 ->];
    [unfold assignfire_upper_bound1; eauto|]. cbn [bind].
  destruct (Constraint2_total (seq 0 (length (heli_locs self)))
              (seq 0 (length fire_indices)) assignfire_upper_bound2) as [u2 ->];
    [unfold assignfire_upper_bound2; eauto|]. cbn [bind].
  destruct (Constraint2_total (seq 0 (length (heli_locs self)))
              (seq 0 (length fire_indices)) assignfire_lower_bound) as [lb ->];
    [unfold assignfire_lower_bound; eauto|]. cbn [bind].
  match goal with
  | |- context [Constraint2 ?hs ?fs (golden_time_rule ?s ?a)] =>
      destruct (Constraint2_total hs fs (golden_time_rule s a)) as [gd ->]
  end.
  { intros h f Hh Hf. apply in_seq in Hh. apply in_seq in Hf.
    unfold golden_time_rule, index2. rewrite table_entry by lia. simpl. eauto. }
  cbn [bind].
  match goal with
  | |- context [Constraint2 ?hs ?fs (time_limit_rule ?t ?l)] =>
      destruct (Constraint2_total hs fs (time_limit_rule t l)) as [tlc ->]
  end.
  { intros h f Hh Hf. apply in_seq in Hh. apply in_seq in Hf.
    unfold time_limit_rule, index2. rewrite table_entry by lia. simpl.
    destruct (comprehension_index _ _ _ _ Hlm h) as [_ Hsome]; [lia|].
    unfold index. destruct (nth_error lm h); [simpl; eauto | congruence]. }
  cbn [bind].
  destruct (Constraint1_total (seq 0 (length fire_indices)) suppression_rule) as [sc ->];
    [unfold suppression_rule; eauto|]. cbn [bind].
  destruct (Constraint1_total (seq 0 (length (heli_locs self))) one_assignment_rule)
    as [on ->]; [unfold one_assignment_rule; eauto|]. cbn [bind].
  eauto.
Qed.

(** ** What parse_solution returns *)

Definition row_hel_index (r : ReportRow) : nat :=
  match r with
  | AssignmentRow _ hel_index _ _ _ _ _ _ _ => hel_index
  | PlaceholderRow _ => 0%nat
  end.

(** [Assign[h,f].value is not None and Assign[h,f].value > 0.5] *)
Definition committed (m : ConcreteModel) (hf : nat * nat) : bool :=
  match Assign (vars m) (fst hf) (snd hf) with
  | Some value => Qlt_bool (1 # 2) value
  | None => false
  end.

Definition committed_pairs (m : ConcreteModel) : list (nat * nat) :=
  filter (committed m) (list_prod (H m) (F m)).

Section ParseFacts.
Variable round2 : Q -> Q.

Lemma parse_pair_rows self m cost time d1 d2 d3 offset_index hf rows :
  parse_pair round2 self m cost time d1 d2 d3 offset_index hf = Ok rows ->
  Forall (fun r => is_assignment r = true) rows /\
  map (fun r => (row_hel_index r, row_fire_index r)) rows
  = (if committed m hf then [(fst hf + 1, offset_index + snd hf)%nat] else []).
Proof.
  destruct hf as [h f]. unfold parse_pair, committed. cbn [fst snd].
  destruct (Assign (vars m) h f) as [value|]; [|intros E; inversion E; now split].
  destruct (Qlt_bool (1 # 2) value); [|intros E; inversion E; now split].
  intros E.
  bind_inv E x1 E1. bind_inv E x2 E2. bind_inv E x3 E3.
  bind_inv E t Et. bind_inv E c Ec. bind_inv E row Er.
  inversion E; subst. split; [repeat constructor | reflexivity].
Qed.

Lemma parse_pairs_rows self m cost time d1 d2 d3 offset_index pairs per_pair :
  comprehension (parse_pair round2 self m cost time d1 d2 d3 offset_index) pairs
  = Ok per_pair ->
  Forall (fun r => is_assignment r = true) (concat per_pair) /\
  map (fun r => (row_hel_index r, row_fire_index r)) (concat per_pair)
  = map (fun hf => (fst hf + 1, offset_index + snd hf)%nat) (filter (committed m) pairs).
Proof.
  intros Hc. apply comprehension_inv in Hc.
  induction Hc as [|hf rows pairs' per' Hrow _ IH]; simpl; [now split|].
  destruct (parse_pair_rows _ _ _ _ _ _ _ _ _ _ Hrow) as [Ha Hm].
  destruct IH as [IHa IHm]. split; [now apply Forall_app|].
  rewrite map_app, Hm, IHm. destruct (committed m hf); reflexivity.
Qed.

(** Every pair [(h, f)] whose [Assign] value exceeds 0.5 gives exactly one
    record, with helicopter number [h + 1] and fire index
    [offset_index + f]; there are no other records. *)
Lemma parse_solution_records self m cost time d1 d2 d3 offset_index rows :
  parse_solution round2 self (Some m) cost time d1 d2 d3 offset_index = Ok rows ->
  Forall (fun r => is_assignment r = true) rows /\
  Permutation (map (fun r => (row_hel_index r, row_fire_index r)) rows)
              (map (fun hf => (fst hf + 1, offset_index + snd hf)%nat) (committed_pairs m)).
Proof.
  unfold parse_solution. intros E. bind_inv E per_pair Ep. inversion E; subst.
  destruct (parse_pairs_rows _ _ _ _ _ _ _ _ _ _ Ep) as [Ha Hm].
  pose proof (py_sorted_perm by_fire_index (concat per_pair)) as Hperm.
  split.
  - rewrite Forall_forall in *. intros r Hr. apply Ha.
    now apply (Permutation_in _ Hperm).
  - unfold committed_pairs. rewrite <- Hm. now apply Permutation_map.
Qed.


End ParseFacts.

(** ** Setup on a registry without invalid bases *)

Lemma valid_prefix_all_valid pads bases :
  Forall (fun b => valid_base pads b = true) bases -> valid_prefix pads bases = bases.
Proof.
  induction 1 as [|b t Hb _ IH]; simpl; [reflexivity|]. now rewrite Hb, IH.
Qed.

(** When the registry and the helipad directory are not empty and every
    base index is inside the directory, the constructor prints nothing and
    gives every helicopter of the registry, in order, its parameters and
    the coordinates of its base. *)
Theorem init_all_bases_valid df pads params :
  df <> [] -> pads <> [] ->
  Forall (fun row => valid_base pads (df_base row) = true) df ->
  fst (init df pads params) = [] /\
  heli_locs (snd (init df pads params))
  = map (fun row => base_coord pads (df_base row)) df /\
  speed_w1 (snd (init df pads params)) = map df_speed_w1 df /\
  speed_w2 (snd (init df pads params)) = map df_speed_w2 df /\
  efficiency (snd (init df pads params)) = map df_efficiency df /\
  time_limit (snd (init df pads params)) = map df_time_limit df /\
  supp_capa (snd (init df pads params)) = map df_supp_capa df.
Proof.
  intros Hdf Hpads Hvalid. unfold init.
  destruct df as [|r0 rs]; [congruence|]. destruct pads as [|p0 ps]; [congruence|].
  unfold _init_parameters. rewrite heli_locs_loop_spec.
  cbn [heli_df helipads].
  rewrite valid_prefix_all_valid by (now rewrite Forall_map).
  assert (Hnone : nth_error (map df_base (r0 :: rs)) (length (map df_base (r0 :: rs)))
                  = None) by (apply nth_error_None; lia).
  rewrite Hnone. cbn [fst snd heli_locs speed_w1 speed_w2 efficiency time_limit
                       supp_capa app].
  rewrite map_map. repeat split.
Qed.

Lemma init_all_bases_valid_witness :
  fst (init [demo_row "K1" 0; demo_row "K2" 1] demo_pads demo_params) = [] /\
  heli_locs (snd (init [demo_row "K1" 0; demo_row "K2" 1] demo_pads demo_params))
  = [(37 # 1, 127 # 1); (35 # 1, 128 # 1)].
Proof.
  destruct (init_all_bases_valid [demo_row "K1" 0; demo_row "K2" 1] demo_pads demo_params)
    as [Hlog [Hlocs _]].
  - discriminate.
  - discriminate.
  - repeat constructor.
  - split; [exact Hlog|]. rewrite Hlocs. reflexivity.
Defined.

(** ** Signs and order of the computed times *)

Lemma at2_nonneg nh nf d h f :
  shaped nh nf d -> nonneg d -> (h < nh)%nat -> (f < nf)%nat -> 0 <= at2 d h f.
Proof.
  intros [Hl Hr] Hnn Hh Hf. unfold at2, nonneg in *.
  rewrite Forall_forall in Hnn, Hr.
  assert (Hrow : In (nth h d []) d) by (apply nth_In; lia).
  specialize (Hnn _ Hrow). rewrite Forall_forall in Hnn. apply Hnn.
  apply nth_In. rewrite (Hr _ Hrow). exact Hf.
Qed.

Lemma at1_pos (l : list Q) h :
  Forall (fun s => 0 < s) l -> (h < length l)%nat -> 0 < at1 l h.
Proof.
  intros Hall Hh. rewrite Forall_forall in Hall. apply Hall. now apply nth_In.
Qed.

Lemma Qdiv_nonneg a b : 0 <= a -> 0 < b -> 0 <= a / b.
Proof.
  intros Ha Hb. apply Qle_shift_div_l; [assumption|]. now rewrite Qmult_0_l.
Qed.

(** For distances that are not negative and speeds that are positive, every
    arrival time is non-negative and at most the travel time of the same
    helicopter and fire; with a non-negative fuel rate and efficiency the
    fuel cost is non-negative too. *)
Theorem times_nonneg_and_ordered {I : Type} self d1 d2 d3 (fire_indices : list I) :
  time_inputs_ok self d1 d2 d3 (length fire_indices) ->
  nonneg d1 -> nonneg d2 -> nonneg d3 ->
  Forall (fun s => 0 < s) (speed_w1 self) ->
  Forall (fun s => 0 < s) (speed_w2 self) ->
  0 <= fuel_rate (opt_params self) ->
  Forall (fun e => 0 <= e) (efficiency self) ->
  exists time_hf cost_hf arrival_time_hf,
    calculate_time_matrices self d1 d2 d3 fire_indices
    = Ok (time_hf, cost_hf, arrival_time_hf) /\
    forall h f, (h < length (heli_locs self))%nat -> (f < length fire_indices)%nat ->
      exists t c a,
        entry time_hf h f = Some t /\ entry cost_hf h f = Some c /\
        entry arrival_time_hf h f = Some a /\
        0 <= a /\ a <= t /\ 0 <= c.
Proof.
  intros Hok N1 N2 N3 P1 P2 Hrate Heff.
  rewrite (calculate_time_matrices_eq _ _ _ _ _ Hok).
  do 3 eexists. split; [reflexivity|]. intros h f Hh Hf.
  rewrite !table_entry by assumption. do 3 eexists.
  repeat (split; [reflexivity|]).
  destruct Hok as [S1 S2 S3 Hw1 Hw2 He _ _].
  assert (A1 : 0 <= at2 d1 h f / at1 (speed_w1 self) h).
  { apply Qdiv_nonneg; [eapply at2_nonneg; eassumption | apply at1_pos; [assumption|lia]]. }
  assert (A2 : 0 <= at2 d2 h f / at1 (speed_w2 self) h).
  { apply Qdiv_nonneg; [eapply at2_nonneg; eassumption | apply at1_pos; [assumption|lia]]. }
  assert (A3 : 0 <= at2 d3 h f / at1 (speed_w1 self) h).
  { apply Qdiv_nonneg; [eapply at2_nonneg; eassumption | apply at1_pos; [assumption|lia]]. }
  assert (Ha : 0 <= arrival_time self d1 d2 h f).
  { unfold arrival_time. apply (Qplus_le_compat 0 _ 0 _); assumption. }
  assert (Hat : arrival_time self d1 d2 h f <= travel_time self d1 d2 d3 h f).
  { unfold travel_time. fold (arrival_time self d1 d2 h f).
    rewrite <- (Qplus_0_r (arrival_time self d1 d2 h f)) at 1.
    apply Qplus_le_compat; [apply Qle_refl | assumption]. }
  split; [exact Ha|]. split; [exact Hat|].
  unfold fuel_cost. apply Qmult_le_0_compat.
  - apply Qmult_le_0_compat; [assumption|].
    rewrite Forall_forall in Heff. apply Heff. apply nth_In. lia.
  - eapply Qle_trans; [exact Ha | exact Hat].
Qed.

(** ** What calculate_time_matrices needs *)

Lemma matrix_comprehension_inv nh nf e m h f :
  matrix_comprehension nh nf e = Ok m -> (h < nh)%nat -> (f < nf)%nat ->
  exists y, e h f = Ok y.
Proof.
  unfold matrix_comprehension. intros Hm Hh Hf.
  apply comprehension_inv in Hm.
  destruct (Forall2_in_left _ _ _ h Hm) as [row [_ Hrow]]; [apply in_seq; lia|].
  apply comprehension_inv in Hrow.
  destruct (Forall2_in_left _ _ _ f Hrow) as [y [_ Hy]]; [apply in_seq; lia|].
  now exists y.
Qed.

Lemma div_ok a b y : div a b = Ok y -> ~ b == 0.
Proof.
  unfold div. destruct (Qeq_bool b 0) eqn:E; [discriminate|].
  intros _ Hb. apply Qeq_bool_iff in Hb. congruence.
Qed.

(** The call returns only if each of the three matrices has an entry for
    every routed helicopter and every fire of the group, and both speeds
    of every routed helicopter exist and are not zero: a missing row,
    column or speed makes it raise. *)
Theorem calculate_time_matrices_needs {I : Type} self d1 d2 d3 (fire_indices : list I)
      time_hf cost_hf arrival_time_hf h f :
  calculate_time_matrices self d1 d2 d3 fire_indices
  = Ok (time_hf, cost_hf, arrival_time_hf) ->
  (h < length (heli_locs self))%nat -> (f < length fire_indices)%nat ->
  entry d1 h f <> None /\ entry d2 h f <> None /\ entry d3 h f <> None /\
  exists s1 s2 e,
    nth_error (speed_w1 self) h = Some s1 /\ ~ s1 == 0 /\
    nth_error (speed_w2 self) h = Some s2 /\ ~ s2 == 0 /\
    nth_error (efficiency self) h = Some e.
Proof.
  unfold calculate_time_matrices. intros Hc Hh Hf.
  bind_inv Hc tm Et. bind_inv Hc cm Ec. bind_inv Hc am Ea.
  destruct (matrix_comprehension_inv _ _ _ _ h f Et Hh Hf) as [t Ht].
  destruct (matrix_comprehension_inv _ _ _ _ h f Ec Hh Hf) as [c Hcost].
  unfold time_hf_entry, index2, index in Ht.
  destruct (entry d1 h f) as [a1|]; [|discriminate]. cbn [of_option bind] in Ht.
  destruct (nth_error (speed_w1 self) h) as [s1|]; [|discriminate].
  cbn [of_option bind] in Ht.
  destruct (div a1 s1) as [t1|] eqn:D1; [|discriminate]. cbn [bind] in Ht.
  destruct (entry d2 h f) as [a2|]; [|discriminate]. cbn [of_option bind] in Ht.
  destruct (nth_error (speed_w2 self) h) as [s2|]; [|discriminate].
  cbn [of_option bind] in Ht.
  destruct (div a2 s2) as [t2|] eqn:D2; [|discriminate]. cbn [bind] in Ht.
  destruct (entry d3 h f) as [a3|]; [|discriminate].
  unfold cost_hf_entry, index in Hcost.
  destruct (nth_error (efficiency self) h) as [e|]; [|discriminate].
  repeat (split; [discriminate|]).
  exists s1, s2, e. repeat split; try reflexivity.
  - exact (div_ok _ _ _ D1).
  - exact (div_ok _ _ _ D2).
Qed.

(** ** The other constraints of a built model *)

Record assembled_rules {I : Type} (self : PyomoOptimizer) (fire_indices : list I)
       (diffs : list Q) (m : ConcreteModel) : Prop := {
  asr_H : H m = seq 0 (length (heli_locs self));
  asr_F : F m = seq 0 (length fire_indices);
  asr_diffs :
    comprehension (index diffs) (seq 0 (length fire_indices)) = Ok (difficulties m);
  asr_supp :
    comprehension (index (supp_capa self)) (seq 0 (length (heli_locs self)))
    = Ok (SUPP_CAPA m);
  asr_ub1 : Constraint2 (H m) (F m) assignfire_upper_bound1 = Ok (AssignFire_ub1 m);
  asr_ub2 : Constraint2 (H m) (F m) assignfire_upper_bound2 = Ok (AssignFire_ub2 m);
  asr_lb : Constraint2 (H m) (F m) assignfire_lower_bound = Ok (AssignFire_lb m);
  asr_sup : Constraint1 (F m) suppression_rule = Ok (suppression_constraint m);
  asr_one : Constraint1 (H m) one_assignment_rule = Ok (one_assignment_constraint m)
  }.

Lemma assemble_model_rules {I : Type} self (fire_indices : list I) diffs d1 d2 d3 m :
  assemble_model self fire_indices diffs d1 d2 d3 = Ok m ->
  assembled_rules self fire_indices diffs m.
Proof.
  unfold assemble_model. intros Hm.
  bind_inv Hm tca Etca. destruct tca as [[tm cs] ar].
  bind_inv Hm dl Edl. bind_inv Hm sp Esp. bind_inv Hm lm Elm.
  bind_inv Hm u1 Eu1. bind_inv Hm u2 Eu2. bind_inv Hm lb Elb.
  bind_inv Hm gd Egd. bind_inv Hm tlc Etl. bind_inv Hm sc Esc. bind_inv Hm on Eon.
  inversion Hm; subst. split; simpl; auto.
Qed.

Lemma set_vars_rules {I : Type} self (fire_indices : list I) diffs m v :
  assembled_rules self fire_indices diffs m ->
  assembled_rules self fire_indices diffs (set_vars m v).
Proof. intros [? ? ? ? ? ? ? ? ?]. split; simpl; assumption. Qed.

Lemma Constraint1_inv Is rule cs i :
  Constraint1 Is rule = Ok cs -> In i Is ->
  exists r, rule i = Ok r /\ forall c, r = Expr c -> In c cs.
Proof.
  unfold Constraint1. intros Hc Hi.
  destruct (comprehension rule Is) as [rs|] eqn:E; [|discriminate].
  simpl in Hc. inversion Hc; subst. apply comprehension_inv in E.
  destruct (Forall2_in_left _ _ _ i E Hi) as [r [Hr Hrule]].
  exists r. split; [exact Hrule|]. intros c ->. now apply kept_in.
Qed.

(** A binary decision variable with a value. *)
Definition binary (o : option Q) : Prop :=
  exists x, o = Some x /\ (x == 0 \/ x == 1).

Lemma satisfies_holds m v c : satisfies m v -> In c (constraints m) -> holds m v c.
Proof. unfold satisfies. rewrite Forall_forall. auto. Qed.

Section ModelFacts.
Variable solve : ConcreteModel -> SolverOutcome.

Lemma built_model_rules {I : Type} self (fire_indices : list I) diffs d1 d2 d3
      log model cost time :
  build_model solve self fire_indices diffs d1 d2 d3 = Ok (log, Some (model, cost, time)) ->
  assembled_rules self fire_indices diffs model.
Proof.
  intros Hb.
  destruct (build_model_inv _ _ _ _ _ _ _ _ _ _ _ Hb) as [m0 [v0 [Hm0 [_ [-> _]]]]].
  apply set_vars_rules. eapply assemble_model_rules. exact Hm0.
Qed.

(** In a model that [build_model] returns, a valuation that satisfies the
    constraints and gives [Assign[h,f]], [FireOn[f]] and [AssignFire[h,f]]
    values in {0, 1} has [AssignFire[h,f] = Assign[h,f] * FireOn[f]]. *)
Theorem linearization_exact {I : Type} self (fire_indices : list I) diffs d1 d2 d3
      log model cost time h f v :
  build_model solve self fire_indices diffs d1 d2 d3 = Ok (log, Some (model, cost, time)) ->
  (h < length (heli_locs self))%nat -> (f < length fire_indices)%nat ->
  satisfies model v ->
  binary (Assign v h f) -> binary (FireOn v f) -> binary (AssignFire v h f) ->
  val (AssignFire v h f) == val (Assign v h f) * val (FireOn v f).
Proof.
  intros Hb Hh Hf Hsat [a [Ea Ha]] [o [Eo Ho]] [af [Eaf Haf]].
  pose proof (built_model_rules _ _ _ _ _ _ _ _ _ _ Hb) as [HH HF _ _ Hu1 Hu2 Hlb _ _].
  assert (HhH : In h (H model)) by (rewrite HH; apply in_seq; lia).
  assert (HfF : In f (F model)) by (rewrite HF; apply in_seq; lia).
  destruct (Constraint2_inv _ _ _ _ h f Hu1 HhH HfF) as [r1 [Hr1 Hin1]].
  destruct (Constraint2_inv _ _ _ _ h f Hu2 HhH HfF) as [r2 [Hr2 Hin2]].
  destruct (Constraint2_inv _ _ _ _ h f Hlb HhH HfF) as [r3 [Hr3 Hin3]].
  inversion Hr1; subst r1. inversion Hr2; subst r2. inversion Hr3; subst r3.
  assert (C1 : holds model v (AssignFireLeAssign h f)).
  { apply satisfies_holds; [assumption|]. unfold constraints.
    rewrite !in_app_iff. left. now apply Hin1. }
  assert (C2 : holds model v (AssignFireLeFireOn h f)).
  { apply satisfies_holds; [assumption|]. unfold constraints.
    rewrite !in_app_iff. right. left. now apply Hin2. }
  assert (C3 : holds model v (AssignFireGeSum h f)).
  { apply satisfies_holds; [assumption|]. unfold constraints.
    rewrite !in_app_iff. right. right. left. now apply Hin3. }
  simpl in C1, C2, C3. rewrite Ea, Eo, Eaf in *. simpl in *.
  destruct Ha as [Ha | Ha], Ho as [Ho | Ho], Haf as [Haf | Haf];
    rewrite Ha, Ho, Haf in *; try reflexivity;
    try (exfalso; revert C1 C2 C3; unfold Qle; simpl; lia).
Qed.

(** In a model that [build_model] returns, a valuation that satisfies the
    constraints and has [FireOn[f] = 1] gives fire [f] helicopters whose
    suppression capacities, weighted by [Assign[h,f]], add up to at least
    the fire's difficulty. *)
Theorem suppression_adequate {I : Type} self (fire_indices : list I) diffs d1 d2 d3
      log model cost time f v x :
  build_model solve self fire_indices diffs d1 d2 d3 = Ok (log, Some (model, cost, time)) ->
  (f < length fire_indices)%nat ->
  satisfies model v -> FireOn v f = Some x -> x == 1 ->
  at1 diffs f
  <= Qsum (map (fun h => at1 (supp_capa self) h * val (Assign v h f))
               (seq 0 (length (heli_locs self)))).
Proof.
  intros Hb Hf Hsat Ex Hx.
  pose proof (built_model_rules _ _ _ _ _ _ _ _ _ _ Hb) as [HH HF Hd Hs _ _ _ Hsup _].
  assert (HfF : In f (F model)) by (rewrite HF; apply in_seq; lia).
  destruct (Constraint1_inv _ _ _ f Hsup HfF) as [r [Hr Hin]].
  inversion Hr; subst r.
  assert (C : holds model v (SuppressionCovers f)).
  { apply satisfies_holds; [assumption|]. unfold constraints.
    rewrite !in_app_iff. do 5 right. left. now apply Hin. }
  simpl in C. rewrite Ex in C. simpl in C. rewrite Hx, Qmult_1_r in C.
  assert (Ed : at1 (difficulties model) f = at1 diffs f).
  { destruct (comprehension_index _ _ _ _ Hd f Hf) as [E _]. simpl in E.
    unfold at1. destruct (nth_error diffs f) as [q|] eqn:Eq.
    - rewrite (nth_error_nth _ _ 0 E). now rewrite (nth_error_nth _ _ 0 Eq).
    - apply nth_error_None in Eq. apply nth_error_None in E.
      now rewrite !nth_overflow by assumption. }
  rewrite Ed in C. rewrite HH in C.
  erewrite map_ext_in; [exact C|].
  intros h Hh. apply in_seq in Hh. simpl.
  assert (Es : at1 (SUPP_CAPA model) h = at1 (supp_capa self) h).
  { destruct (comprehension_index _ _ _ _ Hs h) as [E _]; [lia|]. simpl in E.
    unfold at1. destruct (nth_error (supp_capa self) h) as [q|] eqn:Eq.
    - rewrite (nth_error_nth _ _ 0 E). now rewrite (nth_error_nth _ _ 0 Eq).
    - apply nth_error_None in Eq. apply nth_error_None in E.
      now rewrite !nth_overflow by assumption. }
  now rewrite Es.
Qed.

End ModelFacts.

(** ** One record per helicopter *)

Lemma Qsum_one {A : Type} (g : A -> Q) l a :
  (forall x, In x l -> 0 <= g x) -> In a l -> g a <= Qsum (map g l).
Proof.
  induction l as [|x t IH]; intros Hpos Hin; [destruct Hin|]. simpl.
  assert (Hx : 0 <= g x) by (apply Hpos; now left).
  assert (Ht : 0 <= Qsum (map g t)).
  { clear -Hpos. induction t as [|y t IH]; simpl; [lra|].
    assert (0 <= g y) by (apply Hpos; right; now left).
    assert (0 <= Qsum (map g t)) by (apply IH; intros z [Hz | Hz]; apply Hpos;
                                     [now left | right; now right]).
    lra. }
  destruct Hin as [<- | Hin]; [lra|].
  assert (g a <= Qsum (map g t)) by (apply IH; [intros; apply Hpos; now right | assumption]).
  lra.
Qed.

Lemma Qsum_two {A : Type} (g : A -> Q) l a b :
  (forall x, In x l -> 0 <= g x) -> In a l -> In b l -> a <> b ->
  g a + g b <= Qsum (map g l).
Proof.
  induction l as [|x t IH]; intros Hpos Ha Hb Hab; [destruct Ha|]. simpl.
  assert (Hx : 0 <= g x) by (apply Hpos; now left).
  assert (Ht : forall y, In y t -> 0 <= g y) by (intros; apply Hpos; now right).
  destruct Ha as [<- | Ha], Hb as [<- | Hb].
  - congruence.
  - pose proof (Qsum_one g t b Ht Hb). lra.
  - pose proof (Qsum_one g t a Ht Ha). lra.
  - pose proof (IH Ht Ha Hb Hab). lra.
Qed.

Lemma NoDup_list_prod {A B : Type} (l : list A) (l' : list B) :
  NoDup l -> NoDup l' -> NoDup (list_prod l l').
Proof.
  intros Hl Hl'. induction Hl as [|x t Hx _ IH]; simpl; [constructor|].
  apply NoDup_app.
  - apply NoDup_map_NoDup_ForallPairs; [|assumption].
    intros a b _ _ E. now inversion E.
  - exact IH.
  - intros [a b] Hin Hin'. apply in_map_iff in Hin. destruct Hin as [y [E _]].
    inversion E; subst. apply in_prod_iff in Hin'. tauto.
Qed.

Lemma committed_value m h f :
  committed m (h, f) = true ->
  exists x, Assign (vars m) h f = Some x /\ 1 # 2 < x.
Proof.
  unfold committed. simpl. destruct (Assign (vars m) h f) as [x|]; [|discriminate].
  intros Hc. exists x. split; [reflexivity | now apply Qlt_bool_iff].
Qed.

Section RecordFacts.
Variable solve : ConcreteModel -> SolverOutcome.
Variable round2 : Q -> Q.

(** When the values the solver loaded into a returned model satisfy its
    constraints and no [Assign] value is negative, [parse_solution] gives
    at most one record per helicopter. *)
Theorem one_record_per_helicopter {I : Type} self (fire_indices : list I) diffs
      d1 d2 d3 log model cost time offset_index rows :
  build_model solve self fire_indices diffs d1 d2 d3 = Ok (log, Some (model, cost, time)) ->
  satisfies model (vars model) ->
  (forall h f, In h (H model) -> In f (F model) -> 0 <= val (Assign (vars model) h f)) ->
  parse_solution round2 self (Some model) cost time d1 d2 d3 offset_index = Ok rows ->
  NoDup (map row_hel_index rows).
Proof.
  intros Hb Hsat Hpos Hparse.
  pose proof (built_model_rules _ _ _ _ _ _ _ _ _ _ _ Hb) as [HH HF _ _ _ _ _ _ Hone].
  destruct (parse_solution_records _ _ _ _ _ _ _ _ _ _ Hparse) as [_ Hperm].
  apply (Permutation_map fst) in Hperm. rewrite !map_map in Hperm. simpl in Hperm.
  apply (Permutation_NoDup (Permutation_sym Hperm)).
  apply NoDup_map_NoDup_ForallPairs.
  - intros [h1 f1] [h2 f2] Hin1 Hin2 E. simpl in E.
    assert (h1 = h2) by lia. subst h2. f_equal.
    unfold committed_pairs in Hin1, Hin2.
    apply filter_In in Hin1, Hin2. destruct Hin1 as [Hp1 Hc1], Hin2 as [Hp2 Hc2].
    apply in_prod_iff in Hp1, Hp2. destruct Hp1 as [Hh Hf1], Hp2 as [_ Hf2].
    destruct (Nat.eq_dec f1 f2) as [|Hne]; [assumption|]. exfalso.
    destruct (committed_value _ _ _ Hc1) as [x1 [E1 Hx1]].
    destruct (committed_value _ _ _ Hc2) as [x2 [E2 Hx2]].
    destruct (Constraint1_inv _ _ _ h1 Hone Hh) as [r [Hr Hin]].
    inversion Hr; subst r.
    assert (C : holds model (vars model) (AtMostOneFire h1)).
    { apply satisfies_holds; [assumption|]. unfold constraints.
      rewrite !in_app_iff. do 6 right. now apply Hin. }
    simpl in C.
    pose proof (Qsum_two (fun f => val (Assign (vars model) h1 f)) (F model) f1 f2
                  (fun f Hf => Hpos h1 f Hh Hf) Hf1 Hf2 Hne) as Hsum.
    simpl in Hsum. rewrite E1, E2 in Hsum. simpl in Hsum. lra.
  - unfold committed_pairs. apply NoDup_filter. apply NoDup_list_prod.
    + rewrite HH. apply seq_NoDup.
    + rewrite HF. apply seq_NoDup.
Qed.

End RecordFacts.

(** ** The content and order of the records *)

Section RecordContent.
Variable round2 : Q -> Q.

Definition row_heli_model (r : ReportRow) : string :=
  match r with
  | AssignmentRow _ _ heli_model _ _ _ _ _ _ => heli_model
  | PlaceholderRow _ => ""
  end.

Definition row_heli_base (r : ReportRow) : string :=
  match r with
  | AssignmentRow _ _ _ heli_base _ _ _ _ _ => heli_base
  | PlaceholderRow _ => ""
  end.

Lemma parse_pair_content self m cost time d1 d2 d3 offset_index h f rows r :
  parse_pair round2 self m cost time d1 d2 d3 offset_index (h, f) = Ok rows ->
  In r rows ->
  committed m (h, f) = true /\
  exists x1 x2 x3 t c hr,
    entry d1 h f = Some x1 /\ entry d2 h f = Some x2 /\ entry d3 h f = Some x3 /\
    entry time h f = Some t /\ entry cost h f = Some c /\
    nth_error (heli_df self) h = Some hr /\
    r = AssignmentRow (offset_index + f) (h + 1) (df_model_nm hr)
          (base_name self (df_base hr))
          (round2 x1) (round2 x2) (round2 x3) (round2 t) (round2 c).
Proof.
  unfold parse_pair, committed. cbn [fst snd].
  destruct (Assign (vars m) h f) as [value|]; [|intros E; inversion E; subst; intros []].
  destruct (Qlt_bool (1 # 2) value); [|intros E; inversion E; subst; intros []].
  unfold index2, index. intros E Hin.
  destruct (entry d1 h f) as [x1|]; [|discriminate]. cbn [of_option bind] in E.
  destruct (entry d2 h f) as [x2|]; [|discriminate]. cbn [of_option bind] in E.
  destruct (entry d3 h f) as [x3|]; [|discriminate]. cbn [of_option bind] in E.
  destruct (entry time h f) as [t|]; [|discriminate]. cbn [of_option bind] in E.
  destruct (entry cost h f) as [c|]; [|discriminate]. cbn [of_option bind] in E.
  destruct (nth_error (heli_df self) h) as [hr|]; [|discriminate].
  cbn [of_option bind] in E. inversion E; subst.
  destruct Hin as [<- | []]. split; [reflexivity|].
  exists x1, x2, x3, t, c, hr. repeat split.
Qed.

Lemma parse_solution_rows self m cost time d1 d2 d3 offset_index rows r :
  parse_solution round2 self (Some m) cost time d1 d2 d3 offset_index = Ok rows ->
  In r rows ->
  exists h f x1 x2 x3 t c hr,
    In h (H m) /\ In f (F m) /\ committed m (h, f) = true /\
    entry d1 h f = Some x1 /\ entry d2 h f = Some x2 /\ entry d3 h f = Some x3 /\
    entry time h f = Some t /\ entry cost h f = Some c /\
    nth_error (heli_df self) h = Some hr /\
    r = AssignmentRow (offset_index + f) (h + 1) (df_model_nm hr)
          (base_name self (df_base hr))
          (round2 x1) (round2 x2) (round2 x3) (round2 t) (round2 c).
Proof.
  unfold parse_solution. intros E Hr. bind_inv E per_pair Ep. inversion E; subst.
  apply (Permutation_in _ (py_sorted_perm by_fire_index (concat per_pair))) in Hr.
  apply in_concat in Hr. destruct Hr as [rows [Hrows Hin]].
  apply comprehension_inv in Ep.
  assert (Hpair : exists hf, In hf (list_prod (H m) (F m)) /\
                             parse_pair round2 self m cost time d1 d2 d3 offset_index hf
                             = Ok rows).
  { clear -Ep Hrows. induction Ep as [|hf y l ys Hy _ IH]; [destruct Hrows|].
    destruct Hrows as [<- | Hrows].
    - exists hf. split; [now left | assumption].
    - destruct (IH Hrows) as [hf' [Hin' Hp]]. exists hf'. split; [now right | assumption]. }
  destruct Hpair as [[h f] [Hhf Hp]]. apply in_prod_iff in Hhf.
  destruct (parse_pair_content _ _ _ _ _ _ _ _ _ _ _ _ Hp Hin)
    as [Hc [x1 [x2 [x3 [t [c [hr Hrest]]]]]]].
  exists h, f, x1, x2, x3, t, c, hr. tauto.
Qed.

(** The records come out in ascending order of fire index, and each one
    belongs to a pair [(h, f)] with [Assign[h,f] > 0.5]: it carries the
    fire index [offset_index + f], the helicopter number [h + 1], the model
    and base name of row [h] of the registry, and the rounded legs, travel
    time and fuel cost stored at [[h][f]]. *)
Theorem parse_solution_content self m cost time d1 d2 d3 offset_index rows :
  parse_solution round2 self (Some m) cost time d1 d2 d3 offset_index = Ok rows ->
  StronglySorted (fun a b => (row_fire_index a <= row_fire_index b)%nat) rows /\
  forall r, In r rows ->
    exists h f x1 x2 x3 t c hr,
      In h (H m) /\ In f (F m) /\ committed m (h, f) = true /\
      entry d1 h f = Some x1 /\ entry d2 h f = Some x2 /\ entry d3 h f = Some x3 /\
      entry time h f = Some t /\ entry cost h f = Some c /\
      nth_error (heli_df self) h = Some hr /\
      r = AssignmentRow (offset_index + f) (h + 1) (df_model_nm hr)
            (base_name self (df_base hr))
            (round2 x1) (round2 x2) (round2 x3) (round2 t) (round2 c).
Proof.
  intros E. split; [|intros r Hr; exact (parse_solution_rows _ _ _ _ _ _ _ _ _ _ E Hr)].
  unfold parse_solution in E. bind_inv E per_pair Ep. inversion E; subst.
  apply StronglySorted_impl_bool with (le := by_fire_index).
  - intros a b Hab. unfold by_fire_index in Hab. now apply Nat.leb_le.
  - apply py_sorted_sorted; unfold by_fire_index.
    + intros a b Hab. apply Nat.leb_le. apply Nat.leb_gt in Hab. lia.
    + intros a b c Hab Hbc. apply Nat.leb_le. apply Nat.leb_le in Hab, Hbc. lia.
Qed.

End RecordContent.

(** ** Base names of routed helicopters *)

Lemma init_helipads df pads params : helipads (snd (init df pads params)) = pads.
Proof.
  unfold init. destruct df; [reflexivity|]. destruct pads; [reflexivity|].
  unfold _init_parameters. now destruct (heli_locs_loop _ _ _).
Qed.

Lemma init_heli_locs df pads params :
  heli_locs (snd (init df pads params)) = []
  \/ heli_locs (snd (init df pads params))
     = map (base_coord pads) (valid_prefix pads (map df_base df)).
Proof.
  unfold init. destruct df; [now left|]. destruct pads; [now left|]. right.
  unfold _init_parameters. rewrite heli_locs_loop_spec. reflexivity.
Qed.

(** A helicopter that the constructor gave a routing location has a base
    index inside the helipad directory: its location is that helipad's
    coordinates and the base name written into its records is that
    helipad's name, not the fallback for unknown bases. *)
Theorem routed_helicopter_base df pads params h hr :
  (h < length (heli_locs (snd (init df pads params))))%nat ->
  nth_error df h = Some hr ->
  exists p,
    (0 <= df_base hr < Z.of_nat (length pads))%Z /\
    nth_error pads (Z.to_nat (df_base hr)) = Some p /\
    nth_error (heli_locs (snd (init df pads params))) h = Some (pad_coord p) /\
    base_name (snd (init df pads params)) (df_base hr) = snd p.
Proof.
  intros Hh Hrow.
  destruct (init_heli_locs df pads params) as [E | E]; rewrite E in *;
    [simpl in Hh; lia|].
  rewrite length_map in Hh.
  assert (Hb : nth_error (valid_prefix pads (map df_base df)) h = Some (df_base hr)).
  { rewrite valid_prefix_firstn, nth_error_firstn.
    apply Nat.ltb_lt in Hh. rewrite Hh. now apply map_nth_error. }
  assert (Hv : valid_base pads (df_base hr) = true).
  { pose proof (valid_prefix_all pads (map df_base df)) as Hall.
    rewrite Forall_forall in Hall. apply Hall. eapply nth_error_In. exact Hb. }
  destruct (valid_base_nth pads _ Hv) as [p Hp]. exists p.
  split.
  { unfold valid_base in Hv. apply andb_true_iff in Hv. destruct Hv as [H0 H1].
    apply Z.leb_le in H0. apply Z.ltb_lt in H1. lia. }
  split; [exact Hp|]. split.
  - rewrite (map_nth_error _ _ _ Hb). unfold base_coord. now rewrite Hp.
  - unfold base_name. rewrite init_helipads, Hv, Hp. reflexivity.
Qed.

Lemma routed_helicopter_base_witness :
  exists p,
    nth_error demo_pads 0 = Some p /\
    base_name (snd (init [demo_row "K1" 0; demo_row "K2" 7] demo_pads demo_params)) 0
    = snd p.
Proof.
  destruct (routed_helicopter_base [demo_row "K1" 0; demo_row "K2" 7] demo_pads
              demo_params 0 (demo_row "K1" 0)) as [p [_ [Hp [_ Hn]]]].
  - simpl. lia.
  - reflexivity.
  - exists p. split; assumption.
Defined.

(** ** What build_model returns *)

Section BuildOutcomes.
Variable solve : ConcreteModel -> SolverOutcome.

(** On inputs of the right shape [build_model] does not raise, whatever
    the solver does.  It returns a model exactly when the solver reports
    an optimal solution: the model then holds the solver's values and comes
    with the cost and travel-time matrices of [calculate_time_matrices].
    When the solver raises, or stops with another termination condition,
    the result is [None] and a message. *)
Theorem build_model_outcomes {I : Type} self (fire_indices : list I) diffs d1 d2 d3 :
  optimizer_ok self ->
  time_inputs_ok self d1 d2 d3 (length fire_indices) ->
  (length fire_indices <= length diffs)%nat ->
  fire_indices <> [] -> heli_df self <> [] -> heli_locs self <> [] ->
  exists m,
    assemble_model self fire_indices diffs d1 d2 d3 = Ok m /\
    calculate_time_matrices self d1 d2 d3 fire_indices
    = Ok (time_hf m, cost_hf m, arrival_time_hf m) /\
    match solve m with
    | SolverRaised =>
        build_model solve self fire_indices diffs d1 d2 d3 = Ok ([ErrorSolving], None)
    | SolverReturned optimal v =>
        build_model solve self fire_indices diffs d1 d2 d3
        = Ok ([], Some (set_vars m v, cost_hf m, time_hf m))
    | SolverReturned _ _ =>
        build_model solve self fire_indices diffs d1 d2 d3
        = Ok ([NoOptimalSolution], None)
    end.
Proof.
  intros Hopt Hok Hd Hf Hdf Hl.
  destruct (assemble_model_total self fire_indices diffs d1 d2 d3 Hopt Hok Hd) as [m Hm].
  exists m. split; [exact Hm|].
  split; [exact (asm_times _ _ _ _ _ _ (assemble_model_inv _ _ _ _ _ _ _ Hm))|].
  unfold build_model.
  destruct fire_indices as [|i0 irest]; [congruence|].
  destruct (heli_df self) as [|r0 rs]; [congruence|].
  destruct (heli_locs self) as [|l0 ls] eqn:El; [congruence|].
  cbn [is_empty orb]. rewrite Hm. cbn [bind].
  destruct (solve m) as [|tc v]; [reflexivity|]. destruct tc; reflexivity.
Qed.

End BuildOutcomes.

End Optimizer.

(* ------------------------------------------------------------------ *)
(** * dispatcher.py : WildfireDispatcher.dispatch_optimized            *)
(* ------------------------------------------------------------------ *)

Module WildfireDispatcher.
Import PyList GeoUtils Py Optimizer.
Local Open Scope Q_scope.

(** [min(group)] of a non-empty group. *)
Definition min_index (group : list nat) : nat :=
  fold_right Nat.min (hd 0%nat group) group.

(** [set(group) - set(solution_df["Fire Index"])], each index once.  Python
    does not fix the order in which a set is traversed. *)
Definition unassigned_fires (group : list nat) (solution_df : list ReportRow) : list nat :=
  nodup Nat.eq_dec
    (filter (fun fidx => negb (existsb (Nat.eqb fidx) (map row_fire_index solution_df)))
            group).

(** ["Fire Index"] + 1 *)
Definition one_based (r : ReportRow) : ReportRow :=
  match r with
  | AssignmentRow i h m b x1 x2 x3 t c => AssignmentRow (i + 1) h m b x1 x2 x3 t c
  | PlaceholderRow i => PlaceholderRow (i + 1)
  end.

(** On a group of consecutive batch positions the offset is right. *)
Lemma min_index_seq m k f :
  (f < k)%nat -> (min_index (seq m k) + f)%nat = nth f (seq m k) 0%nat.
Proof.
  intros Hf. rewrite seq_nth by assumption. f_equal.
  unfold min_index. destruct k as [|k]; [lia|]. simpl.
  assert (Hmin : forall n s, (s <= n)%nat ->
                             fold_right Nat.min s (seq n k) = s).
  { clear. induction k as [|k IH]; intros n s Hs; simpl; [reflexivity|].
    rewrite IH by lia. lia. }
  rewrite Hmin by lia. lia.
Qed.

(** ** Counting the rows of a fire *)














Section Optimized.
Variable strptime : string -> option Z.
Variable time_window : Q.
(** The length in kilometres of the geodesic between two points with valid
    latitudes. *)
Variable geodesic_km : Coord -> Coord -> Q.
Variable solve : ConcreteModel -> SolverOutcome.
Variable round2 : Q -> Q.

(** The body of the loop over [scenario_sets]: the rows the group adds to
    [result_df] (none after [continue]). *)
Definition process_group (self : PyomoOptimizer) (water_pts : list Coord)
    (fire_points : list Fire) (group : list nat) : Result (list ReportRow) :=
  fires <- comprehension (index fire_points) group ;;
  let fire_coords := map (fun fp => (fire_lat fp, fire_lng fp)) fires in
  let difficulties := map (fun fp => inject_Z (fire_intensity fp)) fires in
  routes <- snd (find_optimal_water_sources geodesic_km fire_coords water_pts
                   (heli_locs self)) ;;
  let '(d1, d2, d3) := routes in
  built <- build_model solve self group difficulties d1 d2 d3 ;;
  match snd built with
  | None => Ok []
  | Some (model, cost_hf, time_hf) =>
      solution_df <- parse_solution round2 self (Some model) cost_hf time_hf d1 d2 d3
                       (min_index group) ;;
      if is_empty solution_df then Ok solution_df
      else Ok (solution_df ++ map PlaceholderRow (unassigned_fires group solution_df))
  end.

(** [water_pts] is what [DataLoader.load_water_sources()] returned. *)
Definition dispatch_optimized (self : PyomoOptimizer) (water_pts : list Coord)
    (fire_points : list Fire) : Result (list ReportRow) :=
  if is_empty fire_points then Ok []
  else if is_empty (heli_df self) || is_empty (heli_locs self) then Ok []
  else
    scenario_sets <-
      of_option (ScenarioGenerator.group_by_time_proximity strptime time_window fire_points) ;;
    per_group <- comprehension (process_group self water_pts fire_points) scenario_sets ;;
    let result_df := concat per_group in
    Ok (map one_based (py_sorted by_fire_index result_df)).

(** ** One scenario group *)

(** The model [build_model] hands to the solver for a group. *)
Definition group_model (self : PyomoOptimizer) (water_pts : list Coord)
    (fire_points : list Fire) (group : list nat) : Result ConcreteModel :=
  fires <- comprehension (index fire_points) group ;;
  let fire_coords := map (fun fp => (fire_lat fp, fire_lng fp)) fires in
  let difficulties := map (fun fp => inject_Z (fire_intensity fp)) fires in
  routes <- snd (find_optimal_water_sources geodesic_km fire_coords water_pts
                   (heli_locs self)) ;;
  let '(d1, d2, d3) := routes in
  assemble_model self group difficulties d1 d2 d3.


Lemma Forall2_length_eq {A B : Type} (R : A -> B -> Prop) l l' :
  Forall2 R l l' -> length l = length l'.
Proof. induction 1; simpl; congruence. Qed.

Lemma Forall2_nth_pair {A B : Type} (R : A -> B -> Prop) l l' :
  Forall2 R l l' ->
  forall n a, nth_error l n = Some a -> exists b, nth_error l' n = Some b /\ R a b.
Proof.
  induction 1 as [|x y l l' Hxy _ IH]; intros n a Hn; [now destruct n|].
  destruct n as [|n]; simpl in *.
  - inversion Hn; subst. eauto.
  - now apply IH.
Qed.


Lemma router_shaped fire_coords water_pts heli_locs log d1 d2 d3 :
  fire_coords <> [] -> heli_locs <> [] ->
  find_optimal_water_sources geodesic_km fire_coords water_pts heli_locs
  = (log, Ok (d1, d2, d3)) ->
  shaped (length heli_locs) (length fire_coords) d1 /\
  shaped (length heli_locs) (length fire_coords) d2 /\
  shaped (length heli_locs) (length fire_coords) d3.
Proof.
  intros Hf Hh E.
  destruct (find_optimal_water_sources_returned _ _ _ _ _ _ Hf Hh E) as [_ Hd].
  inversion Hd; subst.
  repeat split; try apply length_map;
    rewrite Forall_map, Forall_forall; intros; apply length_map.
Qed.

Lemma is_empty_false {A : Type} (l : list A) : is_empty l = false -> l <> [].
Proof. destruct l; [discriminate | intros _; discriminate]. Qed.



(** ** The whole report *)





Lemma unassigned_fires_in group solution_df fidx :
  In fidx (unassigned_fires group solution_df) ->
  In fidx group /\ ~ In fidx (map row_fire_index solution_df).
Proof.
  unfold unassigned_fires. intros Hin. apply nodup_In, filter_In in Hin.
  destruct Hin as [Hg Hn]. split; [assumption|]. intros Hc.
  apply negb_true_iff in Hn.
  assert (Ht : existsb (Nat.eqb fidx) (map row_fire_index solution_df) = true).
  { apply existsb_exists. exists fidx. split; [assumption | apply Nat.eqb_refl]. }
  congruence.
Qed.



(** ** Order and numbering of the report *)

Lemma one_based_index r : row_fire_index (one_based r) = (row_fire_index r + 1)%nat.
Proof. destruct r; reflexivity. Qed.

(** The report is in ascending order of fire index and its fire indices
    count from 1. *)
Theorem report_sorted_one_based self water_pts fire_points report :
  dispatch_optimized self water_pts fire_points = Ok report ->
  StronglySorted (fun a b => (row_fire_index a <= row_fire_index b)%nat) report /\
  Forall (fun r => (1 <= row_fire_index r)%nat) report.
Proof.
  unfold dispatch_optimized. intros Hd.
  destruct (is_empty fire_points); [inversion Hd; split; constructor|].
  destruct (is_empty (heli_df self) || is_empty (heli_locs self));
    [inversion Hd; split; constructor|].
  bind_inv Hd scenario_sets Es. bind_inv Hd per_group Ep. inversion Hd; subst. split.
  - apply ScenarioGenerator.StronglySorted_map_in
      with (R := fun a b => by_fire_index a b = true).
    + intros a b _ _ Hab. rewrite !one_based_index.
      unfold by_fire_index in Hab. apply Nat.leb_le in Hab. lia.
    + apply py_sorted_sorted; unfold by_fire_index.
      * intros a b Hab. apply Nat.leb_le. apply Nat.leb_gt in Hab. lia.
      * intros a b c Hab Hbc. apply Nat.leb_le. apply Nat.leb_le in Hab, Hbc. lia.
  - rewrite Forall_map, Forall_forall. intros r _. rewrite one_based_index. lia.
Qed.

(** ** Fire indices on a batch in time order *)

(** A group that adds rows was routed, solved to optimality and parsed. *)
Lemma process_group_inv self water_pts fire_points group rows :
  process_group self water_pts fire_points group = Ok rows ->
  rows = [] \/
  exists fires log d1 d2 d3 m0 v solution_df,
    comprehension (index fire_points) group = Ok fires /\
    find_optimal_water_sources geodesic_km
      (map (fun fp => (fire_lat fp, fire_lng fp)) fires) water_pts (heli_locs self)
    = (log, Ok (d1, d2, d3)) /\
    assemble_model self group (map (fun fp => inject_Z (fire_intensity fp)) fires)
      d1 d2 d3 = Ok m0 /\
    solve m0 = SolverReturned optimal v /\
    parse_solution round2 self (Some (set_vars m0 v)) (cost_hf m0) (time_hf m0)
      d1 d2 d3 (min_index group) = Ok solution_df /\
    group <> [] /\ heli_locs self <> [] /\
    rows = solution_df ++ map PlaceholderRow (unassigned_fires group solution_df).
Proof.
  unfold process_group. intros Hp. bind_inv Hp fires Ef.
  destruct (find_optimal_water_sources geodesic_km
              (map (fun fp => (fire_lat fp, fire_lng fp)) fires) water_pts
              (heli_locs self)) as [log routes] eqn:Er.
  cbn [snd] in Hp. bind_inv Hp d Ed. destruct d as [[d1 d2] d3].
  bind_inv Hp built Eb.
  destruct built as [blog [[[m cost] time]|]]; cbn [snd] in Hp;
    [|inversion Hp; now left].
  bind_inv Hp solution_df Es.
  destruct (is_empty solution_df) eqn:Ee.
  - inversion Hp; subst. left. now destruct rows.
  - inversion Hp; subst. right.
    destruct (build_model_inv _ _ _ _ _ _ _ _ _ _ _ Eb)
      as [m0 [v0 [Hm0 [Hs [-> [-> [-> [Hg Hh]]]]]]]].
    exists fires, log, d1, d2, d3, m0, v0, solution_df. repeat split; assumption.
Qed.

(** When the batch is given in non-decreasing time order, every record of
    a group is the record of a pair [(h, f)] with [Assign[h,f] > 0.5] in the
    group's solved model, and what it carries belongs to the fire at the
    batch position it reports: that position is the one of the [f]-th fire
    of the group, and the three distances are the rounded legs between
    helicopter [h], a water source and that fire.  Every placeholder carries
    a batch position of the group that no record of the group carries. *)
Theorem time_ordered_batch_fire_ids self water_pts fire_points :
  Forall (ScenarioGenerator.parses strptime) fire_points ->
  (forall i j, (i <= j)%nat -> (j < length fire_points)%nat ->
               ScenarioGenerator.timestamp strptime fire_points i
               <= ScenarioGenerator.timestamp strptime fire_points j)%Z ->
  exists groups,
    ScenarioGenerator.group_by_time_proximity strptime time_window fire_points
    = Some groups /\
    forall group rows r,
      In group groups ->
      process_group self water_pts fire_points group = Ok rows -> In r rows ->
      match r with
      | AssignmentRow fire_index hel_index heli_model heli_base dist1 dist2 dist3 _ _ =>
          exists m v h f fp heli_loc hr water_loc,
            group_model self water_pts fire_points group = Ok m /\
            solve m = SolverReturned optimal v /\
            committed (set_vars m v) (h, f) = true /\
            hel_index = (h + 1)%nat /\
            nth_error (heli_locs self) h = Some heli_loc /\
            nth_error (heli_df self) h = Some hr /\
            heli_model = df_model_nm hr /\
            heli_base = base_name self (df_base hr) /\
            nth_error group f = Some fire_index /\
            nth_error fire_points fire_index = Some fp /\
            (water_pts <> [] -> In water_loc water_pts) /\
            dist1 = round2 (geodesic_km heli_loc water_loc) /\
            dist2 = round2 (geodesic_km (fire_lat fp, fire_lng fp) water_loc) /\
            dist3 = round2 (geodesic_km (fire_lat fp, fire_lng fp) heli_loc)
      | PlaceholderRow fire_index =>
          In fire_index group /\
          forall r', In r' rows -> is_assignment r' = true ->
                     row_fire_index r' <> fire_index
      end.
Proof.
  intros Hparse Hord.
  destruct (ScenarioGenerator.time_ordered_batch_concat strptime time_window
              fire_points Hparse Hord) as [groups [Hg Hseq]].
  pose proof (ScenarioGenerator.concat_seq_ranges groups _ _ Hseq) as Hranges.
  exists groups. split; [exact Hg|].
  intros group rows r Hgroup Hrows Hr.
  rewrite Forall_forall in Hranges. destruct (Hranges group Hgroup) as [s Hs].
  destruct (process_group_inv _ _ _ _ _ Hrows) as [-> | Hinv]; [destruct Hr|].
  destruct Hinv as [fires [log [d1 [d2 [d3 [m0 [v [sol
    [Hfires [Hroute [Hm0 [Hsolve [Hsol [Hgne [Hhne ->]]]]]]]]]]]]]]].
  assert (Hmodel : group_model self water_pts fire_points group = Ok m0).
  { unfold group_model. rewrite Hfires. cbn [bind]. rewrite Hroute. cbn [snd bind].
    exact Hm0. }
  pose proof (set_vars_assembled _ _ _ _ _ _ v (assemble_model_inv _ _ _ _ _ _ _ Hm0))
    as [HH HF _ _ _ _].
  pose proof (comprehension_inv _ _ _ Hfires) as Hpairs.
  pose proof (Forall2_length_eq _ _ _ Hpairs) as Hlen.
  assert (Hfc : map (fun fp => (fire_lat fp, fire_lng fp)) fires <> []).
  { intros E. apply (f_equal (@length _)) in E. rewrite length_map, <- Hlen in E.
    destruct group; [congruence | discriminate]. }
  destruct (find_optimal_water_sources_returned _ _ _ _ _ _ Hfc Hhne Hroute)
    as [_ Hd].
  apply in_app_or in Hr. destruct Hr as [Hr | Hr].
  - destruct (parse_solution_rows round2 self _ _ _ d1 d2 d3 _ sol r Hsol Hr)
      as [h [f [x1 [x2 [x3 [t [c [hr
            [Hh [Hf [Hc [E1 [E2 [E3 [_ [_ [Hhr ->]]]]]]]]]]]]]]]]].
    rewrite HH in Hh. rewrite HF in Hf. apply in_seq in Hh. apply in_seq in Hf.
    destruct (nth_error (heli_locs self) h) as [heli_loc|] eqn:Ehl;
      [|apply nth_error_None in Ehl; lia].
    assert (Egf : nth_error group f = Some (min_index group + f)%nat).
    { rewrite Hs at 2. rewrite (min_index_seq s (length group) f) by lia.
      rewrite <- Hs. apply nth_error_nth'. lia. }
    destruct (Forall2_nth_pair _ _ _ Hpairs _ _ Egf) as [fp [Efp Hidx]].
    unfold index in Hidx.
    destruct (nth_error fire_points (min_index group + f)) as [fp'|] eqn:Ebatch;
      [|discriminate].
    inversion Hidx; subst fp'.
    pose proof (map_nth_error (fun fp => (fire_lat fp, fire_lng fp)) _ _ Efp) as Ecoord.
    inversion Hd; subst d1 d2 d3.
    rewrite (entry_map (leg1 geodesic_km _) _ _ _ _ _ _ Ehl Ecoord) in E1.
    rewrite (entry_map (leg2 geodesic_km _) _ _ _ _ _ _ Ehl Ecoord) in E2.
    rewrite (entry_map (leg3 geodesic_km _) _ _ _ _ _ _ Ehl Ecoord) in E3.
    destruct (best_combo_legs geodesic_km (fire_lat fp, fire_lng fp)
                (effective_water_pts (map (fun fp => (fire_lat fp, fire_lng fp)) fires)
                   water_pts) heli_loc) as [w [Hw Hb]];
      [now apply effective_water_pts_nonempty|].
    unfold leg1 in E1. unfold leg2 in E2. unfold leg3 in E3.
    rewrite Hb in E1, E2, E3. cbn [fst snd] in E1, E2, E3.
    inversion E1; inversion E2; inversion E3; subst x1 x2 x3.
    exists m0, v, h, f, fp, heli_loc, hr, w.
    repeat split; try assumption; try reflexivity.
    intros Hwne. destruct water_pts; [congruence | exact Hw].
  - apply in_map_iff in Hr. destruct Hr as [fidx [<- Hfidx]].
    apply unassigned_fires_in in Hfidx. destruct Hfidx as [Hin Hnot].
    split; [exact Hin|]. intros r' Hr' Ha Heq. apply in_app_or in Hr'.
    destruct Hr' as [Hr' | Hr'].
    + apply Hnot. rewrite <- Heq. now apply in_map.
    + apply in_map_iff in Hr'. destruct Hr' as [x [<- _]]. discriminate.
Qed.

End Optimized.

(** ** Concrete runs *)

(** Rounding to two decimals (half up), standing for [round(x, 2)]. *)
Definition demo_round2 (q : Q) : Q := Qfloor (q * (100 # 1) + (1 # 2)) # 100.

Definition is_assign_zero (h f : nat) (c : ConstraintExpr) : bool :=
  match c with
  | AssignEqZero h' f' => (h =? h')%nat && (f =? f')%nat
  | _ => false
  end.

(** A solver for a fleet of one helicopter: it sends the helicopter to the
    last fire of the group that no cutoff constraint forbids, and reports
    that as optimal. *)
Definition demo_solver (m : ConcreteModel) : SolverOutcome :=
  let cutoffs := golden_time_constraint m ++ time_limit_constraint m in
  let allowed := filter (fun f => negb (existsb (is_assign_zero 0 f) cutoffs)) (F m) in
  let chosen (f : nat) : bool :=
    match rev allowed with
    | [] => false
    | target :: _ => (f =? target)%nat
    end in
  let pick (h f : nat) : option Q :=
    Some (if (h =? 0)%nat && chosen f then 1 else 0) in
  SolverReturned optimal
    (mkValues pick (fun f => Some (if chosen f then 1 else 0)) pick).

(** Three fires that are not in time order: A and C are five minutes apart,
    B comes two hours later. *)
Definition demo_fires : list Fire :=
  [mkFire "A" (37 # 1) (128 # 1) "2024-03-01" "10:00" 3;
   mkFire "B" (36 # 1) (127 # 1) "2024-03-01" "12:00" 3;
   mkFire "C" (37 # 1) (127 # 1) "2024-03-01" "10:05" 3].

Definition demo_self : PyomoOptimizer :=
  snd (init [demo_row "K1" 0] demo_pads (mkOptParams (1 # 200) (2 # 1) (100000 # 1))).

Definition demo_water_pts : list Coord := [(37 # 1, 127 # 1)].


(** In the group [[0; 2]] the golden-time cutoff forbids fire A (position 0
    of the group), and the solver's answer, helicopter 0 to fire C (position
    1 of the group), satisfies every constraint of the model. *)
Example demo_solution_feasible :
  exists m v,
    group_model demo_distance demo_self demo_water_pts demo_fires [0; 2]%nat = Ok m /\
    golden_time_constraint m = [AssignEqZero 0 0] /\
    demo_solver m = SolverReturned optimal v /\
    Assign v 0%nat 1%nat = Some 1 /\
    satisfies m v.
Proof.
  eexists. eexists. split; [vm_compute; reflexivity|].
  split; [reflexivity|]. split; [reflexivity|]. split; [reflexivity|].
  unfold satisfies, constraints. cbn [app AssignFire_ub1 AssignFire_ub2 AssignFire_lb
    golden_time_constraint time_limit_constraint suppression_constraint
    one_assignment_constraint].
  repeat constructor; try (vm_compute; discriminate).
  exists 0. split; reflexivity.
Qed.

(** C1.  The solver sends the helicopter to fire C, which is at position 2
    of the batch (3 when counted from 1) and at position 1 of its group
    [[0; 2]].  The record carries the fire index [min(group) + 1 = 1]
    (2 when counted from 1), the position of fire B, and fire C gets a
    placeholder although a helicopter was committed to it. *)
Theorem dispatch_optimized_fire_index_offset :
  dispatch_optimized ScenarioGenerator.demo_strptime (10 # 1) demo_distance
    demo_solver demo_round2 demo_self demo_water_pts demo_fires
  = Ok [PlaceholderRow 1;
        AssignmentRow 2 1 "K1" "Alpha" (0 # 100) (0 # 100) (0 # 100) (0 # 100) (0 # 100);
        PlaceholderRow 3] /\
  nth 1 [0; 2]%nat 0%nat = 2%nat /\
  (min_index [0; 2] + 1)%nat = 1%nat.
Proof. vm_compute. repeat split. Qed.


(** Two helicopters committed to one fire give that fire two rows. *)
Example two_helicopters_one_fire :
  dispatch_optimized ScenarioGenerator.demo_strptime (10 # 1) demo_distance
    (fun _ => SolverReturned optimal
                (mkValues (fun _ _ => Some 1) (fun _ => Some 1) (fun _ _ => Some 1)))
    demo_round2
    (snd (init [demo_row "K1" 0; demo_row "K2" 1] demo_pads
            (mkOptParams (1 # 1) (2 # 1) (100000 # 1))))
    demo_water_pts [mkFire "A" (37 # 1) (128 # 1) "2024-03-01" "10:00" 7]
  = Ok [AssignmentRow 1 1 "K1" "Alpha" (0 # 100) (100 # 100) (100 # 100) (1 # 100) (2 # 100);
        AssignmentRow 1 2 "K2" "Bravo" (300 # 100) (100 # 100) (200 # 100) (3 # 100) (6 # 100)].
Proof. vm_compute. reflexivity. Qed.

Lemma demo_self_ok : optimizer_ok demo_self.
Proof.
  apply init_optimizer_ok. repeat constructor; simpl; intros E; discriminate E.
Qed.


Lemma calculate_time_matrices_formulas_witness :
  exists time_hf cost_hf arrival_time_hf,
    calculate_time_matrices demo_self [[0; 0]] [[1; 0]] [[1; 0]] [0; 2]%nat
    = Ok (time_hf, cost_hf, arrival_time_hf).
Proof.
  destruct (calculate_time_matrices_formulas demo_self [[0; 0]] [[1; 0]] [[1; 0]]
              [0; 2]%nat) as [t [c [a [Hcalc _]]]].
  - split; try (split; [reflexivity | repeat constructor]);
      try (simpl; lia); repeat constructor; simpl; intros E; discriminate E.
  - exists t, c, a. exact Hcalc.
Defined.

Lemma hard_cutoffs_enforced_witness :
  exists model arrivalTime travelTime endurance,
    entry (arrival_time_hf model) 0 0 = Some arrivalTime /\
    entry (time_hf model) 0 0 = Some travelTime /\
    nth_error (TIME_LIMIT model) 0 = Some endurance /\
    (golden_time_minutes (opt_params demo_self) < arrivalTime ->
     In (AssignEqZero 0 0) (golden_time_constraint model)).
Proof.
  destruct (build_model demo_solver demo_self [0; 2]%nat [3; 3]
              [[0; 0]] [[1; 0]] [[1; 0]]) as [[log [[[model cost] time]|]]|] eqn:E;
    try (exfalso; vm_compute in E; discriminate E).
  destruct (hard_cutoffs_enforced demo_solver demo_self [0; 2]%nat [3; 3]
              [[0; 0]] [[1; 0]] [[1; 0]] log model cost time 0%nat 0%nat E)
    as [a [t [e [_ [Ha [Ht [_ [He [Hg _]]]]]]]]].
  - simpl. lia.
  - simpl. lia.
  - exists model, a, t, e. repeat split; assumption.
Defined.

(** ** Concrete runs for the model and the report *)

Lemma demo_time_inputs_ok :
  time_inputs_ok demo_self [[0; 0]] [[1; 0]] [[1; 0]] 2.
Proof.
  split; try (split; [reflexivity | repeat constructor]);
    try (simpl; lia); repeat constructor; simpl; intros E; discriminate E.
Qed.

Definition demo_built
  : Result (list Message * option (ConcreteModel * Matrix * Matrix)) :=
  build_model demo_solver demo_self [0; 2]%nat [3; 3] [[0; 0]] [[1; 0]] [[1; 0]].

(** The model of the group [[0; 2]] with the solver's values loaded. *)
Definition demo_model : ConcreteModel :=
  match demo_built with
  | Ok (_, Some (m, _, _)) => m
  | _ => mkModel [] [] [] [] [] [] [] [] [] [] [] [] [] [] [] no_values
  end.

Lemma demo_built_eq :
  build_model demo_solver demo_self [0; 2]%nat [3; 3] [[0; 0]] [[1; 0]] [[1; 0]]
  = Ok ([], Some (demo_model, cost_hf demo_model, time_hf demo_model)).
Proof. vm_compute. reflexivity. Qed.

Lemma demo_model_satisfied : satisfies demo_model (vars demo_model).
Proof.
  unfold satisfies. vm_compute constraints.
  repeat constructor; try (vm_compute; discriminate).
  exists 0. split; reflexivity.
Qed.

Lemma times_nonneg_and_ordered_witness :
  exists time_hf cost_hf arrival_time_hf,
    calculate_time_matrices demo_self [[0; 0]] [[1; 0]] [[1; 0]] [0; 2]%nat
    = Ok (time_hf, cost_hf, arrival_time_hf) /\
    exists t a, entry time_hf 0 0 = Some t /\ entry arrival_time_hf 0 0 = Some a /\
                0 <= a /\ a <= t.
Proof.
  destruct (times_nonneg_and_ordered demo_self [[0; 0]] [[1; 0]] [[1; 0]] [0; 2]%nat)
    as [tm [cm [am [Hc Hall]]]].
  - exact demo_time_inputs_ok.
  - repeat constructor; discriminate.
  - repeat constructor; discriminate.
  - repeat constructor; discriminate.
  - repeat constructor.
  - repeat constructor.
  - discriminate.
  - repeat constructor; discriminate.
  - exists tm, cm, am. split; [exact Hc|].
    destruct (Hall 0%nat 0%nat) as [t [c [a [Ht [_ [Ha [H0 [H1 _]]]]]]]];
      [simpl; lia | simpl; lia |].
    exists t, a. repeat split; assumption.
Defined.

Lemma calculate_time_matrices_needs_witness :
  entry [[0; 0]] 0 0 <> None /\ entry [[1; 0]] 0 0 <> None.
Proof.
  destruct (calculate_time_matrices demo_self [[0; 0]] [[1; 0]] [[1; 0]] [0; 2]%nat)
    as [[[tm cm] am]|] eqn:E; [|exfalso; vm_compute in E; discriminate E].
  destruct (calculate_time_matrices_needs demo_self [[0; 0]] [[1; 0]] [[1; 0]]
              [0; 2]%nat tm cm am 0 0 E) as [H1 [H2 _]].
  - simpl. lia.
  - simpl. lia.
  - split; assumption.
Defined.

Lemma linearization_exact_witness :
  val (AssignFire (vars demo_model) 0 1)
  == val (Assign (vars demo_model) 0 1) * val (FireOn (vars demo_model) 1).
Proof.
  apply (linearization_exact demo_solver demo_self [0; 2]%nat [3; 3]
           [[0; 0]] [[1; 0]] [[1; 0]] [] demo_model
           (cost_hf demo_model) (time_hf demo_model)).
  - exact demo_built_eq.
  - simpl. lia.
  - simpl. lia.
  - exact demo_model_satisfied.
  - exists 1. split; [reflexivity | now right].
  - exists 1. split; [reflexivity | now right].
  - exists 1. split; [reflexivity | now right].
Defined.

Lemma suppression_adequate_witness :
  at1 [3; 3] 1
  <= Qsum (map (fun h => at1 (supp_capa demo_self) h
                         * val (Assign (vars demo_model) h 1)) [0%nat]).
Proof.
  apply (suppression_adequate demo_solver demo_self [0; 2]%nat [3; 3]
           [[0; 0]] [[1; 0]] [[1; 0]] [] demo_model
           (cost_hf demo_model) (time_hf demo_model) 1 (vars demo_model) 1).
  - exact demo_built_eq.
  - simpl. lia.
  - exact demo_model_satisfied.
  - reflexivity.
  - reflexivity.
Defined.

Lemma demo_parse_eq :
  parse_solution demo_round2 demo_self (Some demo_model)
    (cost_hf demo_model) (time_hf demo_model) [[0; 0]] [[1; 0]] [[1; 0]] 0
  = Ok [AssignmentRow 1 1 "K1" "Alpha" (0 # 100) (0 # 100) (0 # 100) (0 # 100) (0 # 100)].
Proof. vm_compute. reflexivity. Qed.

Lemma one_record_per_helicopter_witness :
  NoDup (map row_hel_index
           [AssignmentRow 1 1 "K1" "Alpha" (0 # 100) (0 # 100) (0 # 100) (0 # 100) (0 # 100)]).
Proof.
  apply (one_record_per_helicopter demo_solver demo_round2 demo_self [0; 2]%nat [3; 3]
           [[0; 0]] [[1; 0]] [[1; 0]] [] demo_model
           (cost_hf demo_model) (time_hf demo_model) 0%nat).
  - exact demo_built_eq.
  - exact demo_model_satisfied.
  - intros h f Hh Hf. vm_compute in Hh, Hf.
    destruct Hh as [<- | []]. destruct Hf as [<- | [<- | []]]; vm_compute; discriminate.
  - exact demo_parse_eq.
Defined.

Lemma parse_solution_content_witness :
  StronglySorted (fun a b => (row_fire_index a <= row_fire_index b)%nat)
    [AssignmentRow 1 1 "K1" "Alpha" (0 # 100) (0 # 100) (0 # 100) (0 # 100) (0 # 100)].
Proof.
  destruct (parse_solution_content demo_round2 demo_self demo_model
              (cost_hf demo_model) (time_hf demo_model) [[0; 0]] [[1; 0]] [[1; 0]] 0%nat
              _ demo_parse_eq) as [Hs _].
  exact Hs.
Defined.

Lemma build_model_outcomes_witness :
  exists m,
    assemble_model demo_self [0; 2]%nat [3; 3] [[0; 0]] [[1; 0]] [[1; 0]] = Ok m /\
    calculate_time_matrices demo_self [[0; 0]] [[1; 0]] [[1; 0]] [0; 2]%nat
    = Ok (time_hf m, cost_hf m, arrival_time_hf m).
Proof.
  destruct (build_model_outcomes demo_solver demo_self [0; 2]%nat [3; 3]
              [[0; 0]] [[1; 0]] [[1; 0]]) as [m [Hm [Hc _]]].
  - exact demo_self_ok.
  - exact demo_time_inputs_ok.
  - simpl. lia.
  - discriminate.
  - discriminate.
  - discriminate.
  - exists m. split; assumption.
Defined.

Lemma report_sorted_one_based_witness :
  Forall (fun r => (1 <= row_fire_index r)%nat)
    [PlaceholderRow 1;
     AssignmentRow 2 1 "K1" "Alpha" (0 # 100) (0 # 100) (0 # 100) (0 # 100) (0 # 100);
     PlaceholderRow 3].
Proof.
  destruct (report_sorted_one_based ScenarioGenerator.demo_strptime (10 # 1) demo_distance
              demo_solver demo_round2 demo_self demo_water_pts demo_fires
              [PlaceholderRow 1;
               AssignmentRow 2 1 "K1" "Alpha" (0 # 100) (0 # 100) (0 # 100) (0 # 100)
                 (0 # 100);
               PlaceholderRow 3]) as [_ Hone].
  - vm_compute. reflexivity.
  - exact Hone.
Defined.

(** The same three fires, given in time order. *)
Definition demo_ordered_fires : list Fire :=
  [mkFire "A" (37 # 1) (128 # 1) "2024-03-01" "10:00" 3;
   mkFire "C" (37 # 1) (127 # 1) "2024-03-01" "10:05" 3;
   mkFire "B" (36 # 1) (127 # 1) "2024-03-01" "12:00" 3].

(** Now the record for fire C carries its batch position, 1 (2 when
    counted from 1), and fire A gets the placeholder. *)
Example dispatch_optimized_ordered_run :
  dispatch_optimized ScenarioGenerator.demo_strptime (10 # 1) demo_distance
    demo_solver demo_round2 demo_self demo_water_pts demo_ordered_fires
  = Ok [PlaceholderRow 1;
        AssignmentRow 2 1 "K1" "Alpha" (0 # 100) (0 # 100) (0 # 100) (0 # 100) (0 # 100)].
Proof. vm_compute. reflexivity. Qed.

Lemma time_ordered_batch_fire_ids_witness :
  exists f fp heli_loc,
    nth_error [0; 1]%nat f = Some 1%nat /\
    nth_error demo_ordered_fires 1 = Some fp /\
    nth_error (heli_locs demo_self) 0 = Some heli_loc /\
    (0 # 100) = demo_round2 (demo_distance (fire_lat fp, fire_lng fp) heli_loc).
Proof.
  destruct (time_ordered_batch_fire_ids ScenarioGenerator.demo_strptime (10 # 1)
              demo_distance demo_solver demo_round2 demo_self demo_water_pts
              demo_ordered_fires) as [groups [Hg Hall]].
  - repeat constructor; unfold ScenarioGenerator.parses; vm_compute; discriminate.
  - intros i j Hij Hj. simpl in Hj.
    destruct i as [|[|[|i]]], j as [|[|[|j]]]; try lia; vm_compute; discriminate.
  - vm_compute in Hg. injection Hg as <-.
    specialize (Hall [0; 1]%nat
                  [AssignmentRow 1 1 "K1" "Alpha" (0 # 100) (0 # 100) (0 # 100)
                     (0 # 100) (0 # 100);
                   PlaceholderRow 0]
                  (AssignmentRow 1 1 "K1" "Alpha" (0 # 100) (0 # 100) (0 # 100)
                     (0 # 100) (0 # 100))
                  (or_introl eq_refl)).
    destruct Hall as [m [v [h [f [fp [heli_loc [hr [w
      [_ [_ [_ [Hh [Hloc [_ [_ [_ [Hf [Hfp [_ [_ [_ H3]]]]]]]]]]]]]]]]]]]]].
    + vm_compute. reflexivity.
    + now left.
    + assert (h = 0%nat) by lia. subst h.
      exists f, fp, heli_loc. repeat split; assumption.
Defined.

End WildfireDispatcher.

(* ------------------------------------------------------------------ *)
(** * dispatcher.py : BasicDispatcher.dispatch                         *)
(* ------------------------------------------------------------------ *)

Module BasicDispatcher.
Import PyList.

(** One row of [helicopters_df]: a base and its nominal helicopter count. *)
Record BaseRow : Type := mkBaseRow {
  base_name : string;
  base_model : string;
  base_lat : Q;
  base_lng : Q;
  helicopters : Z
  }.

(** One row of [dispatch_log]. *)
Inductive LogRow : Type :=
  | NoInitialResponse (fire : string)      (* 'Heli Base': "no initial response possible", count 0 *)
  | NoAdditionalDispatch (fire : string)   (* 'Heli Base': "no additional dispatch possible", count 0 *)
  | Sent (fire base model : string) (to_send nominal : Z).  (* 'Heli Count': "to_send/nominal" *)

(** One row of [near_heli]: a row of [heli_copy] with its label, the
    ['available'] value at the time the frame was filtered, and the distance
    to the fire. *)
Record NearRow : Type := mkNearRow {
  hp_name : nat;
  hp_row : BaseRow;
  hp_available : Z;
  hp_distance : Q
  }.

(** [heli_copy.at[label, 'available'] -= to_send] *)
Fixpoint decrement (label : nat) (to_send : Z) (available : list Z) {struct available}
  : list Z :=
  match available, label with
  | [], _ => []
  | a :: t, O => (a - to_send) :: t
  | a :: t, S i => a :: decrement i to_send t
  end.

Definition Zsum (l : list Z) : Z := fold_right Z.add 0 l.

Section Dispatch.
(** [GeoUtils.calculate_distance] on the coordinates of the fires and of the
    helipads, as they are in the data: the greedy dispatcher makes no
    coordinate of its own. *)
Variable calculate_distance : Coord -> Coord -> Q.
(** [config ... ['max_helicopter_range_km']] *)
Variable max_range : Q.
(** [needs i] is what the [i]-th call of this run to
    [random.choices(options, weights=weights)[0]] returns, the generator
    having been seeded by the constructor. *)
Variable needs : nat -> Z.

(** The rows of [heli_copy] for one fire, with the ['distance'] column. *)
Definition heli_rows (fire_loc : Coord) (bases : list BaseRow) (available : list Z)
  : list NearRow :=
  map (fun x => mkNearRow (fst x) (fst (snd x)) (snd (snd x))
                 (calculate_distance fire_loc
                    (base_lat (fst (snd x)), base_lng (fst (snd x)))))
      (enumerate (combine bases available)).

Definition in_range (r : NearRow) : bool := Qle_bool (hp_distance r) max_range.

(** Key of [sort_values('distance')]; pandas does not fix the order of rows
    at equal distance. *)
Definition by_distance (a b : NearRow) : bool := Qle_bool (hp_distance a) (hp_distance b).

(** [heli_copy[heli_copy['distance'] <= max_range].sort_values('distance')] *)
Definition near_heli (fire_loc : Coord) (bases : list BaseRow) (available : list Z)
  : list NearRow :=
  py_sorted by_distance (filter in_range (heli_rows fire_loc bases available)).

(** The allocation loop, on the state [(needed, available, dispatch_log)]. *)
Fixpoint allocate (fire : string) (near : list NearRow) (needed : Z)
    (available : list Z) (dispatch_log : list LogRow) : list Z * list LogRow :=
  match near with
  | [] => (available, dispatch_log)
  | hp :: rest =>
      if needed <=? 0 then (available, dispatch_log)
      else if 0 <? hp_available hp then
        let to_send := Z.min needed (hp_available hp) in
        allocate fire rest (needed - to_send)
          (decrement (hp_name hp) to_send available)
          (dispatch_log ++ [Sent fire (base_name (hp_row hp)) (base_model (hp_row hp))
                              to_send (helicopters (hp_row hp))])
      else allocate fire rest needed available dispatch_log
  end.

(** One iteration of the loop over [fire_points]; [i] counts the fires
    already processed. *)
Definition dispatch_fire (bases : list BaseRow) (st : list Z * list LogRow)
    (x : nat * Fire) : list Z * list LogRow :=
  let '(available, dispatch_log) := st in
  let '(i, fire) := x in
  let fire_loc := (fire_lat fire, fire_lng fire) in
  let near := near_heli fire_loc bases available in
  let needed := needs i in
  match near with
  | [] => (available, dispatch_log ++ [NoInitialResponse (fire_name fire)])
  | _ :: _ =>
      if Zsum (map hp_available near) <? needed
      then (available, dispatch_log ++ [NoAdditionalDispatch (fire_name fire)])
      else allocate (fire_name fire) near needed available dispatch_log
  end.

(** The state after the whole loop: the ledger and the log. *)
Definition run (bases : list BaseRow) (fire_points : list Fire) : list Z * list LogRow :=
  fold_left (dispatch_fire bases) (enumerate fire_points) (map helicopters bases, []).

Definition dispatch (bases : list BaseRow) (fire_points : list Fire) : list LogRow :=
  match fire_points, bases with
  | [], _ => []
  | _, [] => []
  | _ :: _, _ :: _ => snd (run bases fire_points)
  end.

(** The ledger after the first [k] fires. *)
Definition ledger_after (bases : list BaseRow) (fire_points : list Fire) (k : nat) : list Z :=
  fst (fold_left (dispatch_fire bases) (firstn k (enumerate fire_points))
         (map helicopters bases, [])).

(** ** The allocation ledger *)

(** From one ledger to a later one: no base gains helicopters, and no count
    that was non-negative becomes negative. *)
Definition shrinks (before after : list Z) : Prop :=
  Forall2 (fun a a' => a' <= a /\ (0 <= a -> 0 <= a')) before after.

Lemma shrinks_refl l : shrinks l l.
Proof. induction l; constructor; [lia | assumption]. Qed.

Lemma shrinks_trans l1 l2 l3 : shrinks l1 l2 -> shrinks l2 l3 -> shrinks l1 l3.
Proof.
  intros H12. revert l3. induction H12 as [|a b l1 l2 Hab _ IH]; intros l3 H23.
  - inversion H23. constructor.
  - inversion H23 as [|b' c l2' l3' Hbc Hrest]; subst. constructor; [lia | now apply IH].
Qed.

Lemma decrement_other label to_send available j :
  j <> label -> nth_error (decrement label to_send available) j = nth_error available j.
Proof.
  revert label j. induction available as [|a t IH]; intros label j Hne; [reflexivity|].
  destruct label as [|i], j as [|j]; simpl; try reflexivity; try congruence.
  apply IH. congruence.
Qed.

Lemma decrement_shrinks label to_send available a :
  nth_error available label = Some a -> 0 < to_send <= a ->
  shrinks available (decrement label to_send available).
Proof.
  revert label. induction available as [|x t IH]; intros label Hn Hk.
  - constructor.
  - destruct label as [|i]; simpl in *.
    + inversion Hn; subst. constructor; [lia | apply shrinks_refl].
    + constructor; [lia | now apply IH].
Qed.

Lemma allocate_shrinks fire near : forall needed available dispatch_log,
  NoDup (map hp_name near) ->
  (forall hp, In hp near -> nth_error available (hp_name hp) = Some (hp_available hp)) ->
  shrinks available (fst (allocate fire near needed available dispatch_log)).
Proof.
  induction near as [|hp rest IH]; intros needed available dispatch_log Hnd Hsnap; simpl.
  - apply shrinks_refl.
  - inversion Hnd as [|? ? Hnotin Hnd']; subst.
    destruct (needed <=? 0) eqn:En; [apply shrinks_refl|].
    apply Z.leb_gt in En.
    destruct (0 <? hp_available hp) eqn:Ea.
    + apply Z.ltb_lt in Ea.
      eapply shrinks_trans.
      * apply (decrement_shrinks (hp_name hp) (Z.min needed (hp_available hp))
                 available (hp_available hp)); [apply Hsnap; now left | lia].
      * apply IH; [assumption|]. intros hp' Hin'.
        rewrite decrement_other; [apply Hsnap; now right|].
        intros E. apply Hnotin. rewrite <- E. now apply in_map.
    + apply IH; [assumption|]. intros; apply Hsnap; now right.
Qed.

Lemma nth_error_combine_r {A B : Type} (l : list A) (l' : list B) j a b :
  nth_error (combine l l') j = Some (a, b) -> nth_error l' j = Some b.
Proof.
  revert l' j. induction l as [|x t IH]; intros l' j; [destruct j; discriminate|].
  destruct l' as [|y t']; [destruct j; discriminate|].
  destruct j as [|j]; simpl; [intros E; now inversion E | apply IH].
Qed.

Lemma heli_rows_names fire_loc bases available :
  map hp_name (heli_rows fire_loc bases available)
  = seq 0 (length (combine bases available)).
Proof.
  unfold heli_rows. rewrite map_map. simpl.
  apply (enumerate_from_fst (combine bases available) 0).
Qed.

Lemma heli_rows_snapshot fire_loc bases available hp :
  In hp (heli_rows fire_loc bases available) ->
  nth_error available (hp_name hp) = Some (hp_available hp).
Proof.
  unfold heli_rows. intros Hin. apply in_map_iff in Hin.
  destruct Hin as [[j [b a]] [<- Hin]]. simpl.
  apply enumerate_from_nth in Hin. destruct Hin as [_ Hn].
  rewrite Nat.sub_0_r in Hn. eapply nth_error_combine_r; eassumption.
Qed.

Lemma NoDup_map_filter {A B : Type} (f : A -> B) (p : A -> bool) l :
  NoDup (map f l) -> NoDup (map f (filter p l)).
Proof.
  induction l as [|x t IH]; simpl; intros Hnd; [constructor|].
  inversion Hnd as [|? ? Hnotin Hnd']; subst.
  destruct (p x); simpl; [|now apply IH].
  constructor; [|now apply IH].
  intros Hin. apply Hnotin. apply in_map_iff in Hin.
  destruct Hin as [y [Hy Hin]]. apply filter_In in Hin.
  rewrite <- Hy. apply in_map. tauto.
Qed.

Lemma near_heli_perm fire_loc bases available :
  Permutation (near_heli fire_loc bases available)
              (filter in_range (heli_rows fire_loc bases available)).
Proof. apply py_sorted_perm. Qed.

Lemma dispatch_fire_shrinks bases available dispatch_log x :
  shrinks available (fst (dispatch_fire bases (available, dispatch_log) x)).
Proof.
  destruct x as [i fire]. unfold dispatch_fire.
  set (fire_loc := (fire_lat fire, fire_lng fire)).
  pose proof (near_heli_perm fire_loc bases available) as Hperm.
  destruct (near_heli fire_loc bases available) as [|hp rest] eqn:En.
  - apply shrinks_refl.
  - destruct (Zsum (map hp_available (hp :: rest)) <? needs i); [apply shrinks_refl|].
    apply allocate_shrinks.
    + apply (Permutation_NoDup (l := map hp_name
                 (filter in_range (heli_rows fire_loc bases available)))).
      * symmetry. now apply Permutation_map.
      * apply NoDup_map_filter. rewrite heli_rows_names. apply seq_NoDup.
    + intros hp' Hin. apply (heli_rows_snapshot fire_loc bases).
      apply (Permutation_in _ Hperm) in Hin. apply filter_In in Hin. tauto.
Qed.

Lemma fold_firstn_step {S X : Type} (R : S -> S -> Prop) (f : S -> X -> S) :
  (forall s, R s s) -> (forall s x, R s (f s x)) ->
  forall l k init,
    R (fold_left f (firstn k l) init) (fold_left f (firstn (Datatypes.S k) l) init).
Proof.
  intros Hrefl Hstep. induction l as [|x t IH]; intros k init.
  - rewrite !firstn_nil. apply Hrefl.
  - destruct k as [|k]; simpl.
    + apply Hstep.
    + apply (IH k (f init x)).
Qed.

Lemma shrinks_nth before after b a :
  shrinks before after -> nth_error before b = Some a ->
  exists a', nth_error after b = Some a' /\ a' <= a /\ (0 <= a -> 0 <= a').
Proof.
  intros Hs. revert b. induction Hs as [|x y l l' Hxy _ IH]; intros b Hb.
  - destruct b; discriminate.
  - destruct b as [|b]; simpl in *.
    + inversion Hb; subst. exists y. tauto.
    + now apply IH.
Qed.

(** C10.  The ledger starts at the nominal counts; processing one more fire
    never raises a base's count and never turns a non-negative count
    negative; so after any number of fires each base holds at most its
    nominal count, and a non-negative one if the nominal count is. *)
Theorem ledger_monotone (bases : list BaseRow) (fire_points : list Fire) :
  ledger_after bases fire_points 0 = map helicopters bases /\
  (forall k, Forall2 (fun a a' => a' <= a /\ (0 <= a -> 0 <= a'))
                     (ledger_after bases fire_points k)
                     (ledger_after bases fire_points (S k))) /\
  (forall k b base,
      nth_error bases b = Some base ->
      exists a, nth_error (ledger_after bases fire_points k) b = Some a /\
                a <= helicopters base /\ (0 <= helicopters base -> 0 <= a)) /\
  ledger_after bases fire_points (length fire_points) = fst (run bases fire_points).
Proof.
  assert (Hstep : forall k, shrinks (ledger_after bases fire_points k)
                                    (ledger_after bases fire_points (S k))).
  { intros k. unfold ledger_after.
    apply (fold_firstn_step (fun s s' => shrinks (fst s) (fst s'))).
    - intros s. apply shrinks_refl.
    - intros [available dispatch_log] x. apply dispatch_fire_shrinks. }
  split; [reflexivity|]. split; [exact Hstep|]. split.
  - intros k b base Hb.
    assert (Hk : shrinks (map helicopters bases) (ledger_after bases fire_points k)).
    { induction k as [|k IH]; [apply shrinks_refl|].
      eapply shrinks_trans; [exact IH | apply Hstep]. }
    apply (shrinks_nth _ _ b (helicopters base) Hk).
    now apply map_nth_error.
  - unfold ledger_after, run, enumerate.
    rewrite <- (enumerate_from_length fire_points 0). now rewrite firstn_all.
Qed.

(** ** Marker records *)

Lemma Zsum_perm l l' : Permutation l l' -> Zsum l = Zsum l'.
Proof. induction 1; simpl; lia. Qed.

(** The summed availability of the bases within range of a fire. *)
Definition in_range_available (fire_loc : Coord) (bases : list BaseRow)
    (available : list Z) : Z :=
  Zsum (map hp_available (filter in_range (heli_rows fire_loc bases available))).

(** C8.  A fire with no base within [max_range] adds exactly the
    "no initial response" marker to the log; a fire with a base in range
    whose in-range bases together hold fewer helicopters than sampled adds
    exactly the "no additional dispatch" marker.  In both cases the ledger
    is left as it was. *)
Theorem marker_records bases available dispatch_log i fire :
  let fire_loc := (fire_lat fire, fire_lng fire) in
  let reachable := filter in_range (heli_rows fire_loc bases available) in
  (reachable = [] ->
   dispatch_fire bases (available, dispatch_log) (i, fire)
   = (available, dispatch_log ++ [NoInitialResponse (fire_name fire)])) /\
  (reachable <> [] -> in_range_available fire_loc bases available < needs i ->
   dispatch_fire bases (available, dispatch_log) (i, fire)
   = (available, dispatch_log ++ [NoAdditionalDispatch (fire_name fire)])).
Proof.
  intros fire_loc reachable. unfold dispatch_fire. fold fire_loc.
  pose proof (near_heli_perm fire_loc bases available) as Hperm. fold reachable in Hperm.
  split.
  - intros E. rewrite E in Hperm. symmetry in Hperm.
    apply Permutation_nil in Hperm. now rewrite Hperm.
  - intros Hne Hlt.
    destruct (near_heli fire_loc bases available) as [|hp rest] eqn:En.
    + apply Permutation_nil in Hperm. contradiction.
    + unfold in_range_available in Hlt. fold reachable in Hlt.
      rewrite <- (Zsum_perm _ _ (Permutation_map hp_available Hperm)) in Hlt.
      apply Z.ltb_lt in Hlt. now rewrite Hlt.
Qed.

(** No base within range, stated on the bases. *)
Lemma out_of_range_unreachable fire_loc bases available :
  (forall b, In b bases ->
             (max_range < calculate_distance fire_loc (base_lat b, base_lng b))%Q) ->
  filter in_range (heli_rows fire_loc bases available) = [].
Proof.
  intros Hfar.
  destruct (filter in_range (heli_rows fire_loc bases available)) as [|r t] eqn:E;
    [reflexivity|].
  assert (Hin : In r (filter in_range (heli_rows fire_loc bases available)))
    by (rewrite E; now left).
  apply filter_In in Hin. destruct Hin as [Hin Hr].
  unfold heli_rows in Hin. apply in_map_iff in Hin.
  destruct Hin as [[j [b a]] [<- Hin]].
  apply enumerate_from_nth in Hin. destruct Hin as [_ Hn].
  apply nth_error_In, in_combine_l in Hn.
  unfold in_range in Hr. simpl in Hr. apply Qle_bool_iff in Hr.
  exfalso. exact (Qlt_not_le _ _ (Hfar b Hn) Hr).
Qed.

End Dispatch.

(** ** Concrete runs *)

Definition demo_bases : list BaseRow :=
  [mkBaseRow "Alpha" "KA-32" 0 0 2; mkBaseRow "Bravo" "S-64" 0 (3 # 1) 1;
   mkBaseRow "Far" "KA-32" (50 # 1) (50 # 1) 5]%Q.

Definition demo_fire (nm : string) (la ln : Q) : Fire :=
  mkFire nm la ln "2024-03-01" "10:00" 3.

Definition demo_fires : list Fire :=
  [demo_fire "F1" 0 1; demo_fire "F2" 0 (2 # 1); demo_fire "F3" (100 # 1) (100 # 1);
   demo_fire "F4" 0 (2 # 1)]%Q.

Definition demo_needs (i : nat) : Z := nth i [2; 3; 1; 1] 1.

(** The second fire finds one helicopter in range but needs three: nothing
    is sent and the ledger keeps that helicopter for the fourth fire. *)
Example dispatch_run :
  run GeoUtils.demo_distance (5 # 1) demo_needs demo_bases demo_fires
  = ([0; 0; 5],
     [Sent "F1" "Alpha" "KA-32" 2 2; NoAdditionalDispatch "F2";
      NoInitialResponse "F3"; Sent "F4" "Bravo" "S-64" 1 1]).
Proof. vm_compute. reflexivity. Qed.

Example ledger_trace :
  map (ledger_after GeoUtils.demo_distance (5 # 1) demo_needs demo_bases demo_fires)
      [0; 1; 2; 3; 4]%nat
  = [[2; 1; 5]; [0; 1; 5]; [0; 1; 5]; [0; 1; 5]; [0; 0; 5]].
Proof. vm_compute. reflexivity. Qed.

Lemma marker_records_witness :
  dispatch_fire GeoUtils.demo_distance (5 # 1) demo_needs demo_bases ([0; 1; 5], [])
    (2%nat, demo_fire "F3" (100 # 1) (100 # 1))
  = ([0; 1; 5], [NoInitialResponse "F3"]) /\
  dispatch_fire GeoUtils.demo_distance (5 # 1) demo_needs demo_bases ([0; 1; 5], [])
    (1%nat, demo_fire "F2" 0 (2 # 1))
  = ([0; 1; 5], [NoAdditionalDispatch "F2"]).
Proof.
  split.
  - apply (marker_records GeoUtils.demo_distance (5 # 1) demo_needs demo_bases
             [0; 1; 5] [] 2%nat (demo_fire "F3" (100 # 1) (100 # 1))).
    vm_compute. reflexivity.
  - apply (marker_records GeoUtils.demo_distance (5 # 1) demo_needs demo_bases
             [0; 1; 5] [] 1%nat (demo_fire "F2" 0 (2 # 1))).
    + vm_compute. discriminate.
    + vm_compute. reflexivity.
Defined.

(** ** What an allocation sends and where it takes it from *)

(** The helicopters sent according to a list of log rows. *)
Definition sent_total (rows : list LogRow) : Z :=
  Zsum (map (fun row => match row with
                        | Sent _ _ _ to_send _ => to_send
                        | _ => 0
                        end) rows).

Definition sent_to (fire : string) (row : LogRow) : Prop :=
  match row with
  | Sent fire' _ _ _ _ => fire' = fire
  | _ => False
  end.

(** A row that reports a positive count, at most the base's nominal one. *)
Definition within_nominal (row : LogRow) : Prop :=
  match row with
  | Sent _ _ _ to_send nominal => 0 < to_send <= nominal
  | _ => True
  end.

Lemma sent_total_app l l' : sent_total (l ++ l') = sent_total l + sent_total l'.
Proof.
  unfold sent_total. rewrite map_app. induction (map _ l) as [|x t IH]; simpl; lia.
Qed.

Lemma decrement_sum label to_send available a :
  nth_error available label = Some a ->
  Zsum (decrement label to_send available) = Zsum available - to_send.
Proof.
  revert label. induction available as [|x t IH]; intros label Hn.
  - destruct label; discriminate.
  - destruct label as [|i]; simpl in *; [lia|]. rewrite (IH _ Hn). lia.
Qed.

Section Allocation.
Variable calculate_distance : Coord -> Coord -> Q.
Variable max_range : Q.
Variable needs : nat -> Z.

Lemma allocate_meets_need fire near : forall needed available dispatch_log,
  NoDup (map hp_name near) ->
  (forall hp, In hp near -> nth_error available (hp_name hp) = Some (hp_available hp)) ->
  (forall hp, In hp near -> 0 <= hp_available hp) ->
  0 <= needed <= Zsum (map hp_available near) ->
  exists new,
    snd (allocate fire near needed available dispatch_log) = dispatch_log ++ new /\
    Forall (sent_to fire) new /\ sent_total new = needed /\
    Zsum (fst (allocate fire near needed available dispatch_log))
    = Zsum available - needed.
Proof.
  induction near as [|hp rest IH]; intros needed available dispatch_log Hnd Hsnap Hpos Hn.
  - simpl in *. exists []. rewrite app_nil_r.
    repeat split; [constructor | unfold sent_total; simpl; lia | lia].
  - simpl. inversion Hnd as [|? ? Hnotin Hnd']; subst.
    destruct (needed <=? 0) eqn:En.
    { apply Z.leb_le in En. exists []. rewrite app_nil_r.
      repeat split; [constructor | unfold sent_total; simpl; lia | simpl; lia]. }
    apply Z.leb_gt in En. simpl in Hn.
    assert (Ha : 0 <= hp_available hp) by (apply Hpos; now left).
    assert (Hrest : 0 <= Zsum (map hp_available rest)).
    { clear -Hpos. induction rest as [|r t IH]; simpl; [lia|].
      assert (0 <= hp_available r) by (apply Hpos; right; now left).
      assert (0 <= Zsum (map hp_available t))
        by (apply IH; intros x [Hx | Hx]; apply Hpos; [now left | right; now right]).
      lia. }
    destruct (0 <? hp_available hp) eqn:Ea.
    + apply Z.ltb_lt in Ea.
      destruct (IH (needed - Z.min needed (hp_available hp))
                  (decrement (hp_name hp) (Z.min needed (hp_available hp)) available)
                  (dispatch_log ++ [Sent fire (base_name (hp_row hp))
                                      (base_model (hp_row hp))
                                      (Z.min needed (hp_available hp))
                                      (helicopters (hp_row hp))]))
        as [new [Hlog [Hall [Htot Hsum]]]].
      * assumption.
      * intros hp' Hin'. rewrite decrement_other; [apply Hsnap; now right|].
        intros E. apply Hnotin. rewrite <- E. now apply in_map.
      * intros; apply Hpos; now right.
      * lia.
      * eexists. split; [rewrite Hlog, <- app_assoc; reflexivity|].
        split; [constructor; [reflexivity | assumption]|].
        split; [rewrite sent_total_app; unfold sent_total at 1; simpl; lia|].
        rewrite Hsum, (decrement_sum _ _ _ (hp_available hp)); [lia|].
        apply Hsnap. now left.
    + apply Z.ltb_ge in Ea.
      apply IH; [assumption | intros; apply Hsnap; now right
                 | intros; apply Hpos; now right | lia].
Qed.

(** When a fire has a base in range and the in-range bases, none of them
    with a negative count, together hold at least the sampled number of
    helicopters, the fire gets exactly that number: the rows added to the
    log are all rows for this fire, their counts add up to the need, and
    the ledger loses exactly as many helicopters. *)
Theorem dispatch_fire_meets_need bases available dispatch_log i fire :
  let fire_loc := (fire_lat fire, fire_lng fire) in
  Forall (fun a => 0 <= a) available ->
  filter (in_range max_range) (heli_rows calculate_distance fire_loc bases available)
  <> [] ->
  0 <= needs i <= in_range_available calculate_distance max_range fire_loc bases available ->
  exists new,
    snd (dispatch_fire calculate_distance max_range needs bases
           (available, dispatch_log) (i, fire)) = dispatch_log ++ new /\
    Forall (sent_to (fire_name fire)) new /\
    sent_total new = needs i /\
    Zsum (fst (dispatch_fire calculate_distance max_range needs bases
                 (available, dispatch_log) (i, fire)))
    = Zsum available - needs i.
Proof.
  intros fire_loc Hpos Hreach Hneed. unfold dispatch_fire. fold fire_loc.
  pose proof (near_heli_perm calculate_distance max_range fire_loc bases available)
    as Hperm.
  unfold in_range_available in Hneed.
  rewrite <- (Zsum_perm _ _ (Permutation_map hp_available Hperm)) in Hneed.
  destruct (near_heli calculate_distance max_range fire_loc bases available)
    as [|hp rest] eqn:En.
  - apply Permutation_nil in Hperm. contradiction.
  - destruct (Zsum (map hp_available (hp :: rest)) <? needs i) eqn:El;
      [apply Z.ltb_lt in El; lia|].
    assert (Hin : forall hp', In hp' (hp :: rest) ->
                              In hp' (heli_rows calculate_distance fire_loc bases available)).
    { intros hp' Hhp. apply (Permutation_in _ Hperm) in Hhp.
      apply filter_In in Hhp. tauto. }
    apply allocate_meets_need.
    + apply (Permutation_NoDup (l := map hp_name
                 (filter (in_range max_range)
                         (heli_rows calculate_distance fire_loc bases available)))).
      * symmetry. now apply Permutation_map.
      * apply NoDup_map_filter. rewrite heli_rows_names. apply seq_NoDup.
    + intros hp' Hhp. apply (heli_rows_snapshot calculate_distance fire_loc bases).
      now apply Hin.
    + intros hp' Hhp.
      pose proof (heli_rows_snapshot calculate_distance fire_loc bases available hp'
                    (Hin hp' Hhp)) as Hs.
      rewrite Forall_forall in Hpos. apply Hpos. eapply nth_error_In. exact Hs.
    + exact Hneed.
Qed.

(** ** Counts in the log *)

Lemma combine_related {A B : Type} (R : A -> B -> Prop) l l' x y :
  Forall2 R l l' -> In (x, y) (combine l l') -> R x y.
Proof.
  induction 1 as [|a b l l' Hab _ IH]; simpl; [intros []|].
  intros [E | Hin]; [now inversion E; subst | now apply IH].
Qed.

Definition ledger_le (bases : list BaseRow) (available : list Z) : Prop :=
  Forall2 (fun b a => a <= helicopters b) bases available.

Lemma ledger_le_shrinks bases available available' :
  ledger_le bases available -> shrinks available available' ->
  ledger_le bases available'.
Proof.
  unfold ledger_le, shrinks. intros Hle. revert available'.
  induction Hle as [|b a bs l Hab _ IH]; intros l' Hs; inversion Hs; subst;
    constructor; [lia | now apply IH].
Qed.

Lemma ledger_le_init bases : ledger_le bases (map helicopters bases).
Proof. induction bases as [|b t IH]; simpl; constructor; [lia | exact IH]. Qed.

Lemma allocate_within_nominal fire near : forall needed available dispatch_log,
  (forall hp, In hp near -> hp_available hp <= helicopters (hp_row hp)) ->
  Forall within_nominal dispatch_log ->
  Forall within_nominal (snd (allocate fire near needed available dispatch_log)).
Proof.
  induction near as [|hp rest IH]; intros needed available dispatch_log Hle Hlog; simpl.
  - assumption.
  - destruct (needed <=? 0) eqn:En; [assumption|]. apply Z.leb_gt in En.
    destruct (0 <? hp_available hp) eqn:Ea.
    + apply Z.ltb_lt in Ea. apply IH; [intros; apply Hle; now right|].
      apply Forall_app. split; [assumption|]. constructor; [|constructor].
      simpl. pose proof (Hle hp (or_introl eq_refl)). lia.
    + apply IH; [intros; apply Hle; now right | assumption].
Qed.

Lemma heli_rows_nominal fire_loc bases available hp :
  ledger_le bases available ->
  In hp (heli_rows calculate_distance fire_loc bases available) ->
  hp_available hp <= helicopters (hp_row hp).
Proof.
  intros Hle Hin. unfold heli_rows in Hin. apply in_map_iff in Hin.
  destruct Hin as [[j [b a]] [<- Hin]]. simpl.
  apply enumerate_from_nth in Hin. destruct Hin as [_ Hn].
  apply nth_error_In in Hn. exact (combine_related _ _ _ _ _ Hle Hn).
Qed.

Lemma dispatch_fire_within_nominal bases st x :
  ledger_le bases (fst st) -> Forall within_nominal (snd st) ->
  ledger_le bases (fst (dispatch_fire calculate_distance max_range needs bases st x)) /\
  Forall within_nominal (snd (dispatch_fire calculate_distance max_range needs bases st x)).
Proof.
  destruct st as [available dispatch_log]. intros Hle Hlog. simpl in Hle, Hlog. split.
  - eapply ledger_le_shrinks; [exact Hle | apply dispatch_fire_shrinks].
  - destruct x as [i fire]. unfold dispatch_fire.
    set (fire_loc := (fire_lat fire, fire_lng fire)).
    pose proof (near_heli_perm calculate_distance max_range fire_loc bases available)
      as Hperm.
    destruct (near_heli calculate_distance max_range fire_loc bases available)
      as [|hp rest] eqn:En.
    + apply Forall_app. split; [assumption | repeat constructor].
    + destruct (Zsum (map hp_available (hp :: rest)) <? needs i).
      * apply Forall_app. split; [assumption | repeat constructor].
      * apply allocate_within_nominal; [|assumption].
        intros hp' Hhp. apply (heli_rows_nominal fire_loc bases available); [assumption|].
        apply (Permutation_in _ Hperm) in Hhp. apply filter_In in Hhp. tauto.
Qed.

(** Every row of the log that reports helicopters sent reports at least
    one and at most the nominal count of the base, whatever the fires, the
    bases and the sampled needs. *)
Theorem dispatch_counts_within_nominal bases fire_points :
  Forall within_nominal (dispatch calculate_distance max_range needs bases fire_points).
Proof.
  unfold dispatch. destruct fire_points as [|f0 fs]; [constructor|].
  destruct bases as [|b0 bs]; [constructor|].
  unfold run.
  assert (Hinv : forall l st,
             ledger_le (b0 :: bs) (fst st) -> Forall within_nominal (snd st) ->
             Forall within_nominal
               (snd (fold_left (dispatch_fire calculate_distance max_range needs (b0 :: bs))
                       l st))).
  { induction l as [|x l IH]; intros st Hle Hlog; simpl; [assumption|].
    destruct (dispatch_fire_within_nominal (b0 :: bs) st x Hle Hlog) as [Hle' Hlog'].
    now apply IH. }
  apply Hinv; cbn [fst snd]; [apply ledger_le_init | constructor].
Qed.

(** ** Bases out of range *)

Lemma allocate_only_near fire near : forall needed available dispatch_log b,
  ~ In b (map hp_name near) ->
  nth_error (fst (allocate fire near needed available dispatch_log)) b
  = nth_error available b.
Proof.
  induction near as [|hp rest IH]; intros needed available dispatch_log b Hb; simpl.
  - reflexivity.
  - destruct (needed <=? 0); [reflexivity|].
    simpl in Hb. destruct (0 <? hp_available hp).
    + rewrite IH by tauto. apply decrement_other. intros E. apply Hb. now left.
    + apply IH. tauto.
Qed.

Lemma heli_rows_base fire_loc bases available hp :
  In hp (heli_rows calculate_distance fire_loc bases available) ->
  nth_error bases (hp_name hp) = Some (hp_row hp) /\
  hp_distance hp
  = calculate_distance fire_loc (base_lat (hp_row hp), base_lng (hp_row hp)).
Proof.
  unfold heli_rows. intros Hin. apply in_map_iff in Hin.
  destruct Hin as [[j [b a]] [<- Hin]]. simpl.
  apply enumerate_from_nth in Hin. destruct Hin as [_ Hn].
  rewrite Nat.sub_0_r in Hn. split; [|reflexivity].
  clear -Hn. revert available j Hn.
  induction bases as [|x t IH]; intros available j Hn; [destruct j; discriminate|].
  destruct available as [|y t']; [destruct j; discriminate|].
  destruct j as [|j]; simpl in *; [now inversion Hn | eapply IH; exact Hn].
Qed.

(** A fire never changes the count of a base that is farther away than
    the maximum range. *)
Theorem out_of_range_base_untouched bases available dispatch_log i fire b base :
  nth_error bases b = Some base ->
  (max_range
   < calculate_distance (fire_lat fire, fire_lng fire) (base_lat base, base_lng base))%Q ->
  nth_error (fst (dispatch_fire calculate_distance max_range needs bases
                    (available, dispatch_log) (i, fire))) b
  = nth_error available b.
Proof.
  intros Hb Hfar. unfold dispatch_fire.
  set (fire_loc := (fire_lat fire, fire_lng fire)) in *.
  pose proof (near_heli_perm calculate_distance max_range fire_loc bases available)
    as Hperm.
  destruct (near_heli calculate_distance max_range fire_loc bases available)
    as [|hp rest] eqn:En; [reflexivity|].
  destruct (Zsum (map hp_available (hp :: rest)) <? needs i); [reflexivity|].
  apply allocate_only_near. intros Hin. apply in_map_iff in Hin.
  destruct Hin as [hp' [Hname Hhp]].
  apply (Permutation_in _ Hperm) in Hhp. apply filter_In in Hhp.
  destruct Hhp as [Hrow Hrange].
  destruct (heli_rows_base _ _ _ _ Hrow) as [Hbase Hdist].
  rewrite Hname, Hb in Hbase. inversion Hbase; subst base.
  unfold in_range in Hrange. rewrite Hdist in Hrange. apply Qle_bool_iff in Hrange.
  exact (Qlt_not_le _ _ Hfar Hrange).
Qed.

End Allocation.

Lemma dispatch_fire_meets_need_witness :
  exists new,
    snd (dispatch_fire GeoUtils.demo_distance (5 # 1) demo_needs demo_bases
           ([2; 1; 5], []) (0%nat, demo_fire "F1" 0 1)) = [] ++ new /\
    sent_total new = 2.
Proof.
  destruct (dispatch_fire_meets_need GeoUtils.demo_distance (5 # 1) demo_needs
              demo_bases [2; 1; 5] [] 0%nat (demo_fire "F1" 0 1))
    as [new [Hlog [_ [Htot _]]]].
  - repeat constructor; discriminate.
  - vm_compute. discriminate.
  - vm_compute. split; discriminate.
  - exists new. split; assumption.
Defined.

Lemma out_of_range_base_untouched_witness :
  nth_error (fst (dispatch_fire GeoUtils.demo_distance (5 # 1) demo_needs demo_bases
                    ([2; 1; 5], []) (0%nat, demo_fire "F1" 0 1))) 2
  = Some 5.
Proof.
  apply (out_of_range_base_untouched GeoUtils.demo_distance (5 # 1) demo_needs
           demo_bases [2; 1; 5] [] 0%nat (demo_fire "F1" 0 1) 2%nat
           (mkBaseRow "Far" "KA-32" (50 # 1) (50 # 1) 5)).
  - reflexivity.
  - vm_compute. reflexivity.
Defined.

End BasicDispatcher.

(* ------------------------------------------------------------------ *)
(** * utils.py : ConfigManager._set_solver_path                        *)
(* ------------------------------------------------------------------ *)

Module ConfigManager.

(** [self.config['solver']]: the two keys the method reads and writes;
    [None] is a key that is absent. *)
Record SolverConfig : Type := mkSolverConfig {
  name : option string;
  executable_path : option string
  }.

(** How the method ends: it returns, or it calls [sys.exit(1)]. *)
Inductive Outcome : Type :=
  | Returns (config : SolverConfig) (warned : bool)
  | Exits.

(** Python truthiness of a string or [None]. *)
Definition truthy (o : option string) : bool :=
  match o with
  | Some s => negb (String.eqb s "")
  | None => false
  end.

(** [solver_executables = {'cbc': 'cbc', 'glpk': 'glpsol'}] *)
Definition solver_executables : list (string * string) :=
  [("cbc", "cbc"); ("glpk", "glpsol")]%string.

(** [dict.get(key)] *)
Fixpoint get (d : list (string * string)) (key : string) : option string :=
  match d with
  | [] => None
  | (k, v) :: t => if String.eqb k key then Some v else get t key
  end.

Section SolverPath.
(** [shutil.which] *)
Variable which : string -> option string.

(** The loop over [solver_executables.items()]. *)
Fixpoint try_alternatives (items : list (string * string)) : Outcome :=
  match items with
  | [] => Exits
  | (nm, exec_name) :: rest =>
      if truthy (which exec_name)
      then Returns (mkSolverConfig (Some nm) (which exec_name)) true
      else try_alternatives rest
  end.

Definition usable (path : option string) : bool :=
  match path with
  | Some p => truthy path && truthy (which p)
  | None => false
  end.

Definition _set_solver_path (config : SolverConfig) : Outcome :=
  let solver_name := match name config with Some n => n | None => "glpk"%string end in
  if usable (executable_path config) then Returns config false
  else
    match get solver_executables solver_name with
    | Some executable =>
        if truthy (Some executable) && truthy (which executable)
        then Returns (mkSolverConfig (name config) (which executable)) false
        else try_alternatives solver_executables
    | None => try_alternatives solver_executables
    end.

(** The solver name the rest of the program works with. *)
Definition effective_name (config : SolverConfig) : string :=
  match name config with
  | Some n => n
  | None => "glpk"
  end.

Lemma try_alternatives_exits :
  try_alternatives solver_executables = Exits <->
  truthy (which "cbc") = false /\ truthy (which "glpsol") = false.
Proof.
  unfold solver_executables. cbn [try_alternatives]. destruct (truthy (which "cbc")); [split; [discriminate | intros [? _]; discriminate]|].
  destruct (truthy (which "glpsol")); split; try discriminate; try tauto.
  intros [_ ?]. discriminate.
Qed.

Lemma get_solver_executables nm executable :
  get solver_executables nm = Some executable ->
  (nm = "cbc" /\ executable = "cbc")%string \/ (nm = "glpk" /\ executable = "glpsol")%string.
Proof.
  unfold solver_executables. cbn [get]. destruct (String.eqb "cbc" nm) eqn:E1.
  - apply String.eqb_eq in E1. intros E.
    assert (He : executable = "cbc"%string) by congruence. subst. left. now split.
  - destruct (String.eqb "glpk" nm) eqn:E2; [|discriminate].
    apply String.eqb_eq in E2. intros E.
    assert (He : executable = "glpsol"%string) by congruence. subst. right. now split.
Qed.

(** The method ends the process exactly when the configured path is not
    usable and neither [cbc] nor [glpsol] is found. *)
Theorem set_solver_path_exits_iff (config : SolverConfig) :
  _set_solver_path config = Exits <->
  usable (executable_path config) = false /\
  truthy (which "cbc") = false /\ truthy (which "glpsol") = false.
Proof.
  unfold _set_solver_path.
  destruct (usable (executable_path config)).
  - split; [discriminate | intros [? _]; discriminate].
  - destruct (get solver_executables _) as [executable|] eqn:Eg.
    + destruct (get_solver_executables _ _ Eg) as [[_ ->] | [_ ->]]; simpl truthy at 1;
        cbn [andb].
      * destruct (truthy (which "cbc")) eqn:Ec.
        -- split; [discriminate | intros [_ [? _]]; discriminate].
        -- rewrite try_alternatives_exits. rewrite Ec. tauto.
      * destruct (truthy (which "glpsol")) eqn:Eg'.
        -- split; [discriminate | intros [_ [_ ?]]; discriminate].
        -- rewrite try_alternatives_exits. rewrite Eg'. tauto.
    + rewrite try_alternatives_exits. tauto.
Qed.

(** When the method returns, the configuration has an executable path.
    Either the configuration is untouched, its path being usable, or the
    solver in effect is [cbc] or [glpk] and the path is what [shutil.which]
    finds for that solver's executable; the configured solver is kept
    whenever its own executable is found, and a warning is printed exactly
    when the solver name is replaced. *)
Theorem set_solver_path_resolved (config config' : SolverConfig) (warned : bool) :
  _set_solver_path config = Returns config' warned ->
  truthy (executable_path config') = true /\
  ((config' = config /\ usable (executable_path config) = true /\ warned = false) \/
   (exists executable,
       get solver_executables (effective_name config') = Some executable /\
       executable_path config' = which executable /\
       (warned = false -> name config' = name config) /\
       (warned = true ->
        name config' = Some (effective_name config') /\
        forall own, get solver_executables (effective_name config) = Some own ->
                    truthy (which own) = false))).
Proof.
  unfold _set_solver_path.
  destruct (usable (executable_path config)) eqn:Eu.
  - intros E. inversion E; subst. split; [|now left].
    unfold usable in Eu. destruct (executable_path config'); [|discriminate].
    now apply andb_true_iff in Eu.
  - fold (effective_name config).
    assert (Halt : forall own_missing : (forall own,
                     get solver_executables (effective_name config) = Some own ->
                     truthy (which own) = false),
               try_alternatives solver_executables = Returns config' warned ->
               truthy (executable_path config') = true /\
               exists executable,
                 get solver_executables (effective_name config') = Some executable /\
                 executable_path config' = which executable /\
                 (warned = false -> name config' = name config) /\
                 (warned = true ->
                  name config' = Some (effective_name config') /\
                  forall own, get solver_executables (effective_name config) = Some own ->
                              truthy (which own) = false)).
    { intros Hown. unfold solver_executables at 1. cbn [try_alternatives].
      destruct (truthy (which "cbc")) eqn:Ec.
      - intros E. inversion E; subst. split; [exact Ec|].
        exists "cbc"%string. repeat split; try discriminate; auto.
      - destruct (truthy (which "glpsol")) eqn:Eg; [|discriminate].
        intros E. inversion E; subst. split; [exact Eg|].
        exists "glpsol"%string. repeat split; try discriminate; auto. }
    destruct (get solver_executables (effective_name config)) as [executable|] eqn:Eg.
    + destruct (truthy (Some executable) && truthy (which executable)) eqn:Et.
      * intros E. inversion E; subst. apply andb_true_iff in Et. destruct Et as [_ Et].
        split; [exact Et|]. right. exists executable.
        repeat split; try discriminate; auto.
      * intros E. destruct (Halt) as [Hp Hex]; [|exact E|split; [exact Hp | now right]].
        intros own Hown. inversion Hown; subst own.
        destruct (get_solver_executables _ _ Eg) as [[_ ->] | [_ ->]];
          simpl in Et; exact Et.
    + intros E. destruct (Halt) as [Hp Hex]; [|exact E|split; [exact Hp | now right]].
      intros own Hown. discriminate.
Qed.

End SolverPath.

(** A machine with only [glpsol] installed. *)
Definition demo_which (s : string) : option string :=
  if String.eqb s "glpsol" then Some "/usr/bin/glpsol"%string else None.

(** Asked for [cbc], the configuration falls back to [glpk] with a
    warning. *)
Example set_solver_path_fallback :
  _set_solver_path demo_which (mkSolverConfig (Some "cbc"%string) None)
  = Returns (mkSolverConfig (Some "glpk"%string) (Some "/usr/bin/glpsol"%string)) true.
Proof. reflexivity. Qed.

Lemma set_solver_path_resolved_witness :
  truthy (Some "/usr/bin/glpsol"%string) = true.
Proof.
  destruct (set_solver_path_resolved demo_which
              (mkSolverConfig (Some "cbc"%string) None)
              (mkSolverConfig (Some "glpk"%string) (Some "/usr/bin/glpsol"%string)) true)
    as [Ht _].
  - reflexivity.
  - exact Ht.
Defined.

End ConfigManager.
